(** * Formula Audio Lab: generator worklet and effects routing

    A shallow embedding of the per-sample generator
    ([FormulaGeneratorProcessor], formula-generator.worklet.ts), of the
    per-generator mixer gain ([AudioEngine.enableFormula]) and of the effects
    stages and their routing ([EffectsChain], [Reverb], [Phaser]), followed
    by the recorder worklet ([RecorderProcessor]) and the state token of the
    URL hash ([b64urlEncode], [b64urlDecode], [loadStateFromURL],
    [writeStateToURL]).

    JavaScript numbers are modelled as real numbers: the rounding of doubles
    and of stores into a [Float32Array] is idealised away, and integer-valued
    quantities (array lengths, loop indices, results of [Math.floor]) are kept
    in [nat] or [Z].  The one place where the host is not a function of the
    program state is a parameter of the development: the sequence of values
    returned by successive calls of [Math.random]. *)

From Stdlib Require Import Reals Lra Lia ZArith Ascii.
From stdpp Require Import gmap strings list.

#[local] Open Scope R_scope.

(** ** JavaScript [Math] helpers on reals *)

Module JS.

(** [Math.floor], as an integer. *)
Definition floor (x : R) : Z := Int_part x.

(** [Math.trunc], as an integer (used by the remainder operator). *)
Definition trunc (x : R) : Z :=
  if Rle_dec 0 x then Int_part x else (- Int_part (- x))%Z.

(** [x % y] on numbers: the remainder has the sign of the dividend. *)
Definition rem (x y : R) : R := x - y * IZR (trunc (x / y)).

(** [Math.log2]. *)
Definition log2 (x : R) : R := ln x / ln 2.

(** [Math.pow(2, y)]. *)
Definition pow2 (y : R) : R := exp (y * ln 2).

(** [this.clamp(x, a, b)], that is [Math.max(a, Math.min(b, x))]. *)
Definition clamp (x a b : R) : R := Rmax a (Rmin b x).

(** [v || d] on a possibly missing number: [d] when [v] is undefined or 0. *)
Definition or_else (v : option R) (d : R) : R :=
  match v with
  | Some x => if Req_dec_T x 0 then d else x
  | None => d
  end.

(** A host whose [Math.random] always returns 0. *)
Definition zero_random : nat -> R := fun _ => 0.

End JS.

(** ** The generator worklet *)

Module Worklet.

(** [FormulaParams], used as a string-keyed object: the constructor spreads
    [o.params] over the defaults and ['set'] messages are merged into it with
    [Object.assign]. *)
Abbreviation Params := (gmap string R).

(** The defaults of the constructor, in source order. *)
Definition default_params : Params :=
  list_to_map
    [ ("gain", 0.2); ("fc", 220); ("fm", 2); ("I", 2);
      ("f1", 220); ("f2", 221);
      ("base", 110); ("depth", 330); ("r", 3.86); ("lfoHz", 40);
      ("f0", 55); ("k", 0.15);
      ("fund", 110); ("N", 12); ("move", 0.35);
      ("f", 220); ("f2pm", 3);
      ("fbeat", 220); ("df", 0.8);
      ("fd", 110); ("alpha", 3.0);
      ("fq", 120); ("Aq", 220); ("wq", 0.8);
      ("sigma", 10); ("rho", 28); ("beta", 2.6667);
      ("lBase", 120); ("lFreqScale", 40); ("lAmp", 0.25);
      ("ksFreq", 110); ("ksDamp", 0.985); ("ksBright", 0.5);
      ("bcFreq", 220); ("bcBits", 6); ("bcDown", 8);
      ("nCut", 800); ("pinkBright", 0.5); ("brownStep", 0.02);
      ("velvetDensity", 2000);
      ("rossA", 0.2); ("rossB", 0.2); ("rossC", 5.7);
      ("rossBase", 120); ("rossFreqScale", 30); ("rossAmp", 0.25);
      ("shepBase", 55); ("shepSpeed", 0.1); ("shepOctaves", 6) ].

(** Reading a declared field [p.key].  Every key of [default_params] is
    present in every parameter object a processor holds (the constructor
    installs them and [Object.assign] only adds or overwrites keys), so the
    fallback value is never used for them. *)
Definition param (p : Params) (key : string) : R := default 0 (p !! key).

(** [p.gain ?? 0.2]. *)
Definition gain_or_default (p : Params) : R := default 0.2 (p !! "gain").

(** [WorkletMessage]. *)
Inductive WorkletMessage :=
| MsgSet (params : Params)
| MsgReset.

(** The fields of [FormulaGeneratorProcessor].  [rng] is not a field of the
    class: it is the number of calls made to [Math.random] so far. *)
Record Processor := mkProcessor {
  formula : string;
  sr : R;
  t : R;
  phase : R;
  logi : R;
  lx : R; ly : R; lz : R;
  ksBuf : option (list R);
  ksIdx : nat;
  ksN : nat;
  nlp : R;
  pinkB0 : R; pinkB1 : R; pinkB2 : R; pinkB3 : R;
  pinkB4 : R; pinkB5 : R; pinkB6 : R;
  brownVal : R;
  velvetCounter : R;
  velvetNext : R;
  rx : R; ry : R; rz : R;
  shepardPhases : list R;
  shepardT : R;
  p : Params;
  rng : nat
}.

(** Write-back of the loop's local copies at the end of [process]. *)
Definition set_locals (s : Processor) 
  (v_phase v_t v_logi v_lx v_ly v_lz v_nlp : R) : Processor :=
  mkProcessor (formula s) (sr s) v_t v_phase v_logi v_lx v_ly v_lz (ksBuf s)
    (ksIdx s) (ksN s) v_nlp (pinkB0 s) (pinkB1 s) (pinkB2 s) (pinkB3 s)
    (pinkB4 s) (pinkB5 s) (pinkB6 s) (brownVal s) (velvetCounter s)
    (velvetNext s) (rx s) (ry s) (rz s) (shepardPhases s) (shepardT s) (p s)
    (rng s).

(** [this.ksN = n; this.ksBuf = buf; this.ksIdx = idx]. *)
Definition set_ks (s : Processor) (buf : list R) (idx n : nat) : Processor :=
  mkProcessor (formula s) (sr s) (t s) (phase s) (logi s) (lx s) (ly s) (lz s)
    (Some buf) idx n (nlp s) (pinkB0 s) (pinkB1 s) (pinkB2 s) (pinkB3 s)
    (pinkB4 s) (pinkB5 s) (pinkB6 s) (brownVal s) (velvetCounter s)
    (velvetNext s) (rx s) (ry s) (rz s) (shepardPhases s) (shepardT s) (p s)
    (rng s).

(** A store into [this.ksBuf]. *)
Definition set_ksBuf (s : Processor) (buf : list R) : Processor :=
  mkProcessor (formula s) (sr s) (t s) (phase s) (logi s) (lx s) (ly s) (lz s)
    (Some buf) (ksIdx s) (ksN s) (nlp s) (pinkB0 s) (pinkB1 s) (pinkB2 s)
    (pinkB3 s) (pinkB4 s) (pinkB5 s) (pinkB6 s) (brownVal s) (velvetCounter s)
    (velvetNext s) (rx s) (ry s) (rz s) (shepardPhases s) (shepardT s) (p s)
    (rng s).

(** [this.ksIdx = idx]. *)
Definition set_ksIdx (s : Processor) (idx : nat) : Processor :=
  mkProcessor (formula s) (sr s) (t s) (phase s) (logi s) (lx s) (ly s) (lz s)
    (ksBuf s) idx (ksN s) (nlp s) (pinkB0 s) (pinkB1 s) (pinkB2 s) (pinkB3 s)
    (pinkB4 s) (pinkB5 s) (pinkB6 s) (brownVal s) (velvetCounter s)
    (velvetNext s) (rx s) (ry s) (rz s) (shepardPhases s) (shepardT s) (p s)
    (rng s).

(** The seven accumulators of the pink-noise filter. *)
Definition set_pink (s : Processor) (b0 b1 b2 b3 b4 b5 b6 : R) : Processor :=
  mkProcessor (formula s) (sr s) (t s) (phase s) (logi s) (lx s) (ly s) (lz s)
    (ksBuf s) (ksIdx s) (ksN s) (nlp s) b0 b1 b2 b3 b4 b5 b6 (brownVal s)
    (velvetCounter s) (velvetNext s) (rx s) (ry s) (rz s) (shepardPhases s)
    (shepardT s) (p s) (rng s).

(** [this.brownVal = v]. *)
Definition set_brownVal (s : Processor) (v : R) : Processor :=
  mkProcessor (formula s) (sr s) (t s) (phase s) (logi s) (lx s) (ly s) (lz s)
    (ksBuf s) (ksIdx s) (ksN s) (nlp s) (pinkB0 s) (pinkB1 s) (pinkB2 s)
    (pinkB3 s) (pinkB4 s) (pinkB5 s) (pinkB6 s) v (velvetCounter s)
    (velvetNext s) (rx s) (ry s) (rz s) (shepardPhases s) (shepardT s) (p s)
    (rng s).

(** [this.velvetCounter = c; this.velvetNext = nx]. *)
Definition set_velvet (s : Processor) (c nx : R) : Processor :=
  mkProcessor (formula s) (sr s) (t s) (phase s) (logi s) (lx s) (ly s) (lz s)
    (ksBuf s) (ksIdx s) (ksN s) (nlp s) (pinkB0 s) (pinkB1 s) (pinkB2 s)
    (pinkB3 s) (pinkB4 s) (pinkB5 s) (pinkB6 s) (brownVal s) c nx (rx s)
    (ry s) (rz s) (shepardPhases s) (shepardT s) (p s) (rng s).

(** [this.rx = x; this.ry = y; this.rz = z]. *)
Definition set_rossler (s : Processor) (x y z : R) : Processor :=
  mkProcessor (formula s) (sr s) (t s) (phase s) (logi s) (lx s) (ly s) (lz s)
    (ksBuf s) (ksIdx s) (ksN s) (nlp s) (pinkB0 s) (pinkB1 s) (pinkB2 s)
    (pinkB3 s) (pinkB4 s) (pinkB5 s) (pinkB6 s) (brownVal s) (velvetCounter s)
    (velvetNext s) x y z (shepardPhases s) (shepardT s) (p s) (rng s).

(** A store into [this.shepardPhases]. *)
Definition set_shepardPhases (s : Processor) (ph : list R) : Processor :=
  mkProcessor (formula s) (sr s) (t s) (phase s) (logi s) (lx s) (ly s) (lz s)
    (ksBuf s) (ksIdx s) (ksN s) (nlp s) (pinkB0 s) (pinkB1 s) (pinkB2 s)
    (pinkB3 s) (pinkB4 s) (pinkB5 s) (pinkB6 s) (brownVal s) (velvetCounter s)
    (velvetNext s) (rx s) (ry s) (rz s) ph (shepardT s) (p s) (rng s).

(** [this.shepardT = v]. *)
Definition set_shepardT (s : Processor) (v : R) : Processor :=
  mkProcessor (formula s) (sr s) (t s) (phase s) (logi s) (lx s) (ly s) (lz s)
    (ksBuf s) (ksIdx s) (ksN s) (nlp s) (pinkB0 s) (pinkB1 s) (pinkB2 s)
    (pinkB3 s) (pinkB4 s) (pinkB5 s) (pinkB6 s) (brownVal s) (velvetCounter s)
    (velvetNext s) (rx s) (ry s) (rz s) (shepardPhases s) v (p s) (rng s).

(** The parameter object after an in-place [Object.assign]. *)
Definition set_p (s : Processor) (q : Params) : Processor :=
  mkProcessor (formula s) (sr s) (t s) (phase s) (logi s) (lx s) (ly s) (lz s)
    (ksBuf s) (ksIdx s) (ksN s) (nlp s) (pinkB0 s) (pinkB1 s) (pinkB2 s)
    (pinkB3 s) (pinkB4 s) (pinkB5 s) (pinkB6 s) (brownVal s) (velvetCounter s)
    (velvetNext s) (rx s) (ry s) (rz s) (shepardPhases s) (shepardT s) q
    (rng s).

(** The host's random sequence advanced to position [n]. *)
Definition set_rng (s : Processor) (n : nat) : Processor :=
  mkProcessor (formula s) (sr s) (t s) (phase s) (logi s) (lx s) (ly s) (lz s)
    (ksBuf s) (ksIdx s) (ksN s) (nlp s) (pinkB0 s) (pinkB1 s) (pinkB2 s)
    (pinkB3 s) (pinkB4 s) (pinkB5 s) (pinkB6 s) (brownVal s) (velvetCounter s)
    (velvetNext s) (rx s) (ry s) (rz s) (shepardPhases s) (shepardT s) (p s) n.

(** The local copies [process] works on: [phase], [t], [logi], [lx], [ly],
    [lz] and [nlp] are read once before the loop and written back after it. *)
Record Locals := mkLocals {
  l_phase : R;
  l_t : R;
  l_logi : R;
  l_lx : R; l_ly : R; l_lz : R;
  l_nlp : R
}.

Definition read_locals (s : Processor) : Locals :=
  mkLocals (phase s) (t s) (logi s) (lx s) (ly s) (lz s) (nlp s).

Definition write_back (s : Processor) (l : Locals) : Processor :=
  set_locals s (l_phase l) (l_t l) (l_logi l) (l_lx l) (l_ly l) (l_lz l)
    (l_nlp l).

Definition with_phase (l : Locals) (v : R) : Locals :=
  mkLocals v (l_t l) (l_logi l) (l_lx l) (l_ly l) (l_lz l) (l_nlp l).

Definition with_t (l : Locals) (v : R) : Locals :=
  mkLocals (l_phase l) v (l_logi l) (l_lx l) (l_ly l) (l_lz l) (l_nlp l).

Definition with_logi_phase (l : Locals) (v_logi v_phase : R) : Locals :=
  mkLocals v_phase (l_t l) v_logi (l_lx l) (l_ly l) (l_lz l) (l_nlp l).

Definition with_lorenz_phase (l : Locals) (x y z v_phase : R) : Locals :=
  mkLocals v_phase (l_t l) (l_logi l) x y z (l_nlp l).

Definition with_nlp (l : Locals) (v : R) : Locals :=
  mkLocals (l_phase l) (l_t l) (l_logi l) (l_lx l) (l_ly l) (l_lz l) v.

(** The labels of the [switch (this.formula)] in [process]. *)
Inductive FormulaCase :=
| CaseFm | CaseLogistic | CaseGliss | CaseAdditive | CasePm | CaseBeats
| CaseDist | CaseQuasi | CaseLorenz | CaseKarplus | CaseNoiselp
| CasePinknoise | CaseBrownnoise | CaseVelvetnoise | CaseRossler
| CaseShepard
| CaseDefault.

Definition case_labels : list (string * FormulaCase) :=
  [ ("fm", CaseFm); ("logistic", CaseLogistic); ("gliss", CaseGliss);
    ("additive", CaseAdditive); ("pm", CasePm); ("beats", CaseBeats);
    ("dist", CaseDist); ("quasi", CaseQuasi); ("lorenz", CaseLorenz);
    ("karplus", CaseKarplus); ("noiselp", CaseNoiselp);
    ("pinknoise", CasePinknoise); ("brownnoise", CaseBrownnoise);
    ("velvetnoise", CaseVelvetnoise); ("rossler", CaseRossler);
    ("shepard", CaseShepard) ].

(** Which arm of the switch a formula id selects. *)
Definition switch_case (id : string) : FormulaCase :=
  match List.find (fun c => String.eqb id c.1) case_labels with
  | Some c => c.2
  | None => CaseDefault
  end.

Definition twoPi : R := 2 * PI.

(** The logistic update period: [Math.max(1, Math.floor(sr / Math.max(1e-3,
    p.lfoHz)))]. *)
Definition logistic_step (sr lfoHz : R) : Z :=
  Z.max 1 (JS.floor (sr / Rmax 0.001 lfoHz)).

(** One application of the logistic recurrence followed by the clamp. *)
Definition logistic_update (r x : R) : R := JS.clamp (r * x * (1 - x)) 0 1.

(** The harmonic count of the additive formula:
    [Math.max(1, Math.floor(p.N))]. *)
Definition additive_N (pN : R) : Z := Z.max 1 (JS.floor pN).

(** The body of the additive loop for harmonic [k]:
    [ak = (1 / k) * sin(twoPi * move * t + k); s += ak * sin(twoPi * (k *
    fund) * t)]. *)
Definition additive_term (fund move t : R) (s : R) (k : nat) : R :=
  let ak := 1 / INR k * sin (twoPi * move * t + INR k) in
  s + ak * sin (twoPi * (INR k * fund) * t).

(** The additive arm: the loop [for (k = 1; k <= N; k++)] and the final
    scaling by [1.0 / Math.log2(N + 1)]. *)
Definition additive_sample (p : Params) (t : R) : R :=
  let fund := param p "fund" in
  let N := additive_N (param p "N") in
  let move := param p "move" in
  let s := fold_left (additive_term fund move t) (seq 1 (Z.to_nat N)) 0 in
  s * (1 / JS.log2 (IZR N + 1)).

(** The Karplus-Strong buffer length:
    [Math.max(2, Math.floor(this.sr / Math.max(20, p.ksFreq || 110)))]. *)
Definition ksLength (s : Processor) : nat :=
  let freq := Rmax 20 (JS.or_else (p s !! "ksFreq") 110) in
  Z.to_nat (Z.max 2 (JS.floor (sr s / freq))).

(** A read of a [Float32Array] at an index that is in range whenever the
    processor was built by the constructor ([ksIdx < ksN = length ksBuf],
    ten Shepard phases). *)
Definition f32_get (buf : list R) (i : nat) : R := default 0 (buf !! i).

Section Host.

(** The value returned by the [n]-th call of [Math.random] (counting from
    0). *)
Variable Math_random : nat -> R.

(** [Math.random()]. *)
Definition random (s : Processor) : R * Processor :=
  (Math_random (rng s), set_rng s (S (rng s))).

(** [initKS(force)]. *)
Definition initKS (force : bool) (s : Processor) : Processor :=
  let n := ksLength s in
  if negb force && bool_decide (is_Some (ksBuf s)) && bool_decide (ksN s = n)
  then s
  else
    let buf := List.map (fun i => Math_random (rng s + i) * 2 - 1) (seq 0 n) in
    set_rng (set_ks s buf 0%nat n) (rng s + n).

(** The constructor: [o.formula || 'fm'], the global [sampleRate], the
    defaults overridden by [o.params], and a first [initKS(true)].  [rng0] is
    the position of the host's random sequence when the processor is built. *)
Definition constructor (o_formula : option string) (o_params : Params)
  (sampleRate : R) (rng0 : nat) : Processor :=
  let id :=
    match o_formula with
    | Some f => if String.eqb f "" then "fm"%string else f
    | None => "fm"%string
    end in
  initKS true
    (mkProcessor id sampleRate 0 0 0.33 0.1 0 0 None 0 0 0
       0 0 0 0 0 0 0 0 0 0 0.1 0 0 (replicate 10 0) 0
       (o_params ∪ default_params) rng0).

(** [resetState()]. *)
Definition resetState (s : Processor) : Processor :=
  let s1 :=
    initKS true
      (mkProcessor (formula s) (sr s) 0 0 0.33 0.1 0 0 (ksBuf s) (ksIdx s)
         (ksN s) 0 (pinkB0 s) (pinkB1 s) (pinkB2 s) (pinkB3 s) (pinkB4 s)
         (pinkB5 s) (pinkB6 s) (brownVal s) (velvetCounter s) (velvetNext s)
         (rx s) (ry s) (rz s) (shepardPhases s) (shepardT s) (p s) (rng s)) in
  let s2 := set_pink s1 0 0 0 0 0 0 0 in
  let s3 := set_brownVal s2 0 in
  let s4 := set_velvet s3 0 0 in
  let s5 := set_rossler s4 0.1 0 0 in
  let s6 := set_shepardPhases s5 (List.map (fun _ => 0) (shepardPhases s5)) in
  set_shepardT s6 0.

(** [this.port.onmessage]. *)
Definition onmessage (s : Processor) (msg : WorkletMessage) : Processor :=
  match msg with
  | MsgSet params => set_p s (params ∪ p s)
  | MsgReset => resetState s
  end.

(** The Shepard arm's loop body for octave [k]: [continue] above 18 kHz,
    otherwise advance and wrap the phase and add the weighted sine. *)
Definition shepard_octave (baseF srate T : R) (acc : R * list R) (k : nat) :
  R * list R :=
  let '(sum, phases) := acc in
  let centerLog := JS.log2 440 in
  let sigma := 1.5 in
  let freqMult := JS.pow2 (INR k + T) in
  let freq := baseF * freqMult in
  if Rgt_dec freq 18000 then (sum, phases)
  else
    let logF := JS.log2 freq in
    let envelope := exp (-0.5 * Rsqr ((logF - centerLog) / sigma)) in
    let ph1 := f32_get phases k + twoPi * (freq / srate) in
    let ph2 := if Rgt_dec ph1 twoPi then ph1 - twoPi else ph1 in
    (sum + envelope * sin ph2, <[k := ph2]> phases).

(** One iteration of the [switch]: the value [x] of this sample, and the
    processor fields and local copies after it.  [i] is the loop index, that
    is the position of the sample in the current block. *)
Definition sample (i : nat) (s : Processor) (l : Locals) :
  R * Processor * Locals :=
  let q := p s in
  let t := l_t l in
  match switch_case (formula s) with
  | CaseFm =>
      (sin (twoPi * param q "fc" * t
            + param q "I" * sin (twoPi * param q "fm" * t)), s, l)
  | CaseLogistic =>
      let step := logistic_step (sr s) (param q "lfoHz") in
      let logi :=
        if (Z.rem (Z.of_nat i) step =? 0)%Z
        then logistic_update (param q "r") (l_logi l)
        else l_logi l in
      let f := param q "base" + param q "depth" * (logi - 0.5) in
      let phase := l_phase l + twoPi * (Rmax 0 f / sr s) in
      (sin phase, s, with_logi_phase l logi phase)
  | CaseGliss =>
      let f := param q "f0" * exp (param q "k" * t) in
      let phase := l_phase l + twoPi * (f / sr s) in
      (sin phase, s, with_phase l phase)
  | CaseAdditive => (additive_sample q t, s, l)
  | CasePm =>
      let phi := sin (sin (twoPi * param q "f2pm" * t)) in
      (sin (twoPi * param q "f" * t + phi * 5.0), s, l)
  | CaseBeats =>
      (0.5 * (sin (twoPi * param q "fbeat" * t)
              + sin (twoPi * (param q "fbeat" + param q "df") * t)), s, l)
  | CaseDist => (tanh (param q "alpha" * sin (twoPi * param q "fd" * t)), s, l)
  | CaseQuasi =>
      let mod_ := sin (sin (sin (param q "wq" * t))) in
      let f := Rmax 0 (param q "fq" + param q "Aq" * mod_) in
      let phase := l_phase l + twoPi * (f / sr s) in
      (sin phase, s, with_phase l phase)
  | CaseLorenz =>
      let dt := 1 / sr s in
      let dx := param q "sigma" * (l_ly l - l_lx l) in
      let dy := l_lx l * (param q "rho" - l_lz l) - l_ly l in
      let dz := l_lx l * l_ly l - param q "beta" * l_lz l in
      let lx := l_lx l + dx * dt in
      let ly := l_ly l + dy * dt in
      let lz := l_lz l + dz * dt in
      let freq := Rmax 0 (param q "lBase" + param q "lFreqScale" * Rabs lx) in
      let amp :=
        JS.clamp (param q "lAmp" * (0.3 + 0.7 * (0.5 + 0.5 * tanh ly))) 0 1 in
      let phase := l_phase l + twoPi * (freq / sr s) in
      (amp * sin phase, s, with_lorenz_phase l lx ly lz phase)
  | CaseKarplus =>
      let s1 := initKS false s in
      let buf := default [] (ksBuf s1) in
      let N := ksN s1 in
      let idx := ksIdx s1 in
      let y0 := f32_get buf idx in
      let y1 := f32_get buf ((idx + 1) mod N) in
      let damp := JS.clamp (param q "ksDamp") 0.8 0.99999 in
      let bright := JS.clamp (param q "ksBright") 0 1 in
      let avg := 0.5 * (y0 + y1) in
      let next := damp * (bright * y0 + (1 - bright) * avg) in
      let s2 := set_ksBuf s1 (<[idx := next]> buf) in
      (y0, set_ksIdx s2 ((idx + 1) mod N), l)
  | CaseNoiselp =>
      let '(r0, s1) := random s in
      let white := r0 * 2 - 1 in
      let cut := JS.clamp (param q "nCut") 20 18000 in
      let a := 1 - exp (-2 * PI * cut / sr s) in
      let nlp := l_nlp l + a * (white - l_nlp l) in
      (nlp, s1, with_nlp l nlp)
  | CasePinknoise =>
      let '(r0, s1) := random s in
      let white := r0 * 2 - 1 in
      let b0 := 0.99886 * pinkB0 s1 + white * 0.0555179 in
      let b1 := 0.99332 * pinkB1 s1 + white * 0.0750759 in
      let b2 := 0.969 * pinkB2 s1 + white * 0.153852 in
      let b3 := 0.8665 * pinkB3 s1 + white * 0.3104856 in
      let b4 := 0.55 * pinkB4 s1 + white * 0.5329522 in
      let b5 := -0.7616 * pinkB5 s1 - white * 0.016898 in
      let pink := b0 + b1 + b2 + b3 + b4 + b5 + pinkB6 s1 + white * 0.5362 in
      let b6 := white * 0.115926 in
      let bright := JS.clamp (param q "pinkBright") 0 1 in
      (pink * 0.11 * (1 - bright) + white * bright * 0.5,
       set_pink s1 b0 b1 b2 b3 b4 b5 b6, l)
  | CaseBrownnoise =>
      let '(r0, s1) := random s in
      let white := r0 * 2 - 1 in
      let step := JS.clamp (param q "brownStep") 0.001 0.1 in
      let v := JS.clamp (brownVal s1 + white * step) (-1) 1 in
      (v, set_brownVal s1 v, l)
  | CaseVelvetnoise =>
      let density := Rmax 100 (param q "velvetDensity") in
      let avgSamples := sr s / density in
      if Rge_dec (velvetCounter s) (velvetNext s) then
        let '(r0, s1) := random s in
        let x := if Rgt_dec r0 0.5 then 1 else -1 in
        let '(r1, s2) := random s1 in
        let next := velvetCounter s2 + avgSamples * (0.5 + r1) in
        (x, set_velvet s2 (velvetCounter s2 + 1) next, l)
      else
        (0, set_velvet s (velvetCounter s + 1) (velvetNext s), l)
  | CaseRossler =>
      let dt := 1 / sr s in
      let a := param q "rossA" in
      let b := param q "rossB" in
      let c := param q "rossC" in
      let dx := - ry s - rz s in
      let dy := rx s + a * ry s in
      let dz := b + rz s * (rx s - c) in
      let x1 := JS.clamp (rx s + dx * dt * 100) (-50) 50 in
      let y1 := JS.clamp (ry s + dy * dt * 100) (-50) 50 in
      let z1 := JS.clamp (rz s + dz * dt * 100) (-50) 50 in
      let freq := Rmax 0 (param q "rossBase" + param q "rossFreqScale" * x1) in
      let amp :=
        JS.clamp (param q "rossAmp" * (0.3 + 0.7 * (0.5 + 0.02 * y1))) 0 1 in
      let phase := l_phase l + twoPi * (freq / sr s) in
      (amp * sin phase, set_rossler s x1 y1 z1, with_phase l phase)
  | CaseShepard =>
      let baseF := Rmax 20 (param q "shepBase") in
      let speed := param q "shepSpeed" in
      let octaves :=
        Z.to_nat (Z.max 1 (Z.min 10 (JS.floor (param q "shepOctaves")))) in
      let T0 := shepardT s + speed / sr s in
      let T := if Rgt_dec T0 1 then T0 - 1 else T0 in
      let '(sum, phases) :=
        fold_left (shepard_octave baseF (sr s) T) (seq 0 octaves)
          (0, shepardPhases s) in
      (sum / sqrt (INR octaves),
       set_shepardPhases (set_shepardT s T) phases, l)
  | CaseDefault => (0, s, l)
  end.

(** The tail of the loop body: [t += 1 / sr; if (phase > 1e9) phase %=
    twoPi]. *)
Definition advance (srate : R) (l : Locals) : Locals :=
  let l1 := with_t l (l_t l + 1 / srate) in
  if Rgt_dec (l_phase l1) 1000000000
  then with_phase l1 (JS.rem (l_phase l1) twoPi)
  else l1.

(** The loop [for (let i = 0; i < n; i++)] of [process], started at index
    [i] with [n] iterations to go; the samples stored into [ch0] are
    returned in order. *)
Fixpoint loop (n i : nat) (s : Processor) (l : Locals) :
  list R * Processor * Locals :=
  match n with
  | O => ([], s, l)
  | S n' =>
      let '(x, s1, l1) := sample i s l in
      let y := x * gain_or_default (p s1) in
      let '(ys, s2, l2) := loop n' (S i) s1 (advance (sr s1) l1) in
      (y :: ys, s2, l2)
  end.

(** [process(inputs, outputs, parameters)] on an output channel of [n]
    frames: the content of [ch0] afterwards, the processor afterwards, and
    the returned keep-alive flag. *)
Definition process (s : Processor) (n : nat) : list R * Processor * bool :=
  let '(out, s', l') := loop n 0 s (read_locals s) in
  (out, write_back s' l', true).

(** The values of [x] over one [process] call, before the multiplication
    of the store [ch0[i] = x * (p.gain ?? 0.2)]. *)
Fixpoint raw_samples (n i : nat) (s : Processor) (l : Locals) : list R :=
  match n with
  | O => []
  | S n' =>
      let '(x, s1, l1) := sample i s l in
      x :: raw_samples n' (S i) s1 (advance (sr s1) l1)
  end.

End Host.

(** *** Reference formulas and schedules

    The closed forms the generator is compared with. *)

(** The ids that have an arm in the [switch] of [process]. *)
Definition recognized_ids : list string := List.map fst case_labels.

(** [f 1 + f 2 + ... + f N], added in this order. *)
Fixpoint sum_harmonics (f : nat -> R) (N : nat) : R :=
  match N with
  | O => 0
  | S n => sum_harmonics f n + f (S n)
  end.

(** The product of two sinusoids at [f1] and [f2], at time [t]. *)
Definition am_as_claimed (q : Params) (t : R) : R :=
  sin (twoPi * param q "f1" * t) * sin (twoPi * param q "f2" * t).

(** The number of harmonics of the additive formula. *)
Definition additive_harmonics (q : Params) : nat :=
  Z.to_nat (additive_N (param q "N")).

(** The additive formula with the amplitude phase [move * t + k]. *)
Definition additive_as_claimed (q : Params) (t : R) : R :=
  let N := additive_harmonics q in
  sum_harmonics
    (fun k => 1 / INR k * sin (param q "move" * t + INR k)
              * sin (twoPi * INR k * param q "fund" * t)) N
  * (1 / JS.log2 (INR N + 1)).

(** The additive formula with the amplitude phase [2 PI * move * t + k]. *)
Definition additive_as_coded (q : Params) (t : R) : R :=
  let N := additive_harmonics q in
  sum_harmonics
    (fun k => 1 / INR k * sin (twoPi * param q "move" * t + INR k)
              * sin (twoPi * INR k * param q "fund" * t)) N
  * (1 / JS.log2 (INR N + 1)).

(** The logistic value after [n] iterations of the loop started at index
    [i]: the recurrence is applied at the indices that are multiples of
    [step]. *)
Fixpoint logistic_run (step : Z) (r : R) (n i : nat) (x : R) : R :=
  match n with
  | O => x
  | S n' =>
      logistic_run step r n' (S i)
        (if (Z.rem (Z.of_nat i) step =? 0)%Z then logistic_update r x else x)
  end.

(** An additive generator with one harmonic and [move = 5], at 48 kHz. *)
Definition additive_example : Processor :=
  constructor JS.zero_random (Some "additive"%string)
    {[ "N"%string := 1; "move"%string := 5 ]} 48000 0.

(** A generator built for the id ['bitcrush'], at 44.1 kHz. *)
Definition bitcrush_example : Processor :=
  constructor JS.zero_random (Some "bitcrush"%string) ∅ 44100 0.

End Worklet.

(** ** The mixer side of a generator *)

Module AudioEngine.

(** [GeneratorNode]: the worklet, the gain node between it and the mix bus
    (represented by the value its [gain] parameter is driven to), and the
    engine's copy of the parameter values. *)
Record GeneratorNode := mkGeneratorNode {
  worklet : Worklet.Processor;
  gain : R;
  params : gmap string R
}.

(** The fields of [AudioEngine] that [enableFormula] reads: whether [ctx] is
    set, and the generator map. *)
Record t := mkAudioEngine {
  ctx : bool;
  generators : gmap string GeneratorNode
}.

(** [enableFormula(id, enabled)]; [setTargetAtTime(targetGain, now, 0.02)]
    is recorded as the target the gain node settles on. *)
Definition enableFormula (e : t) (id : string) (enabled : bool) : t :=
  match generators e !! id with
  | Some gen =>
      if ctx e then
        let targetGain :=
          if enabled then default 0.2 (params gen !! "gain") else 0 in
        mkAudioEngine (ctx e)
          (<[id := mkGeneratorNode (worklet gen) targetGain (params gen)]>
             (generators e))
      else e
  | None => e
  end.

End AudioEngine.

(** ** Effect stages *)

(** [BiquadFilterType]. *)
Inductive BiquadFilterType :=
| lowpass | highpass | bandpass | lowshelf | highshelf | peaking | notch
| allpass.

(** A [BiquadFilterNode], by the values of its parameters. *)
Record BiquadFilterNode := mkBiquad {
  bq_type : BiquadFilterType;
  bq_frequency : R;
  bq_Q : R
}.

(** An [AudioBuffer]. *)
Record AudioBuffer := mkAudioBuffer {
  ab_sampleRate : R;
  ab_length : nat;
  ab_channels : list (list R)
}.

Module Filter.

Record t := mk { node : BiquadFilterNode }.

(** [ctx.createBiquadFilter()] with the defaults of the Web Audio API. *)
Definition new : t := mk (mkBiquad lowpass 350 1).

Definition setType (type : BiquadFilterType) (f : t) : t :=
  mk (mkBiquad type (bq_frequency (node f)) (bq_Q (node f))).

Definition setFrequency (freq : R) (f : t) : t :=
  mk (mkBiquad (bq_type (node f)) freq (bq_Q (node f))).

Definition setQ (q : R) (f : t) : t :=
  mk (mkBiquad (bq_type (node f)) (bq_frequency (node f)) q).

Definition update (type : BiquadFilterType) (freq q : R) (f : t) : t :=
  setQ q (setFrequency freq (setType type f)).

End Filter.

Inductive ChorusMode := chorus_mode | flanger_mode.

Module Chorus.

Record t := mk {
  delayTime : R;
  lfo_frequency : R;
  lfoGain : R;
  dryGain : R;
  wetGain : R;
  feedbackGain : R
}.

Definition new : t := mk 0 440 1 1 1 1.

Definition setMode (mode : ChorusMode) (c : t) : t :=
  let baseMs := match mode with flanger_mode => 2.0 | chorus_mode => 12.0 end in
  mk (baseMs / 1000) (lfo_frequency c) (lfoGain c) (dryGain c) (wetGain c)
    (feedbackGain c).

Definition setRate (rate : R) (c : t) : t :=
  mk (delayTime c) rate (lfoGain c) (dryGain c) (wetGain c) (feedbackGain c).

Definition setDepth (depthMs : R) (c : t) : t :=
  mk (delayTime c) (lfo_frequency c) (depthMs / 1000) (dryGain c) (wetGain c)
    (feedbackGain c).

Definition setMix (mix : R) (c : t) : t :=
  mk (delayTime c) (lfo_frequency c) (lfoGain c) (1 - mix) mix
    (feedbackGain c).

Definition setFeedback (fb : R) (c : t) : t :=
  mk (delayTime c) (lfo_frequency c) (lfoGain c) (dryGain c) (wetGain c) fb.

Definition update (mode : ChorusMode) (rate depthMs mix feedback : R)
  (c : t) : t :=
  setFeedback feedback
    (setMix mix (setDepth depthMs (setRate rate (setMode mode c)))).

End Chorus.

Module Limiter.

Record t := mk {
  threshold : R;
  release : R;
  ratio : R;
  attack : R;
  knee : R
}.

(** The constructor: the API defaults with the fixed limiter settings. *)
Definition new : t := mk (-24) 0.25 20 0.003 0.

Definition setThreshold (v : R) (l : t) : t :=
  mk v (release l) (ratio l) (attack l) (knee l).

Definition setRelease (v : R) (l : t) : t :=
  mk (threshold l) v (ratio l) (attack l) (knee l).

Definition update (thr rel : R) (l : t) : t :=
  setRelease rel (setThreshold thr l).

End Limiter.

Module Delay.

Record t := mk {
  delayTime : R;
  dryGain : R;
  wetGain : R;
  feedbackGain : R
}.

Definition new : t := mk 0 1 1 1.

Definition setTime (time : R) (d : t) : t :=
  mk time (dryGain d) (wetGain d) (feedbackGain d).

Definition setFeedback (fb : R) (d : t) : t :=
  mk (delayTime d) (dryGain d) (wetGain d) fb.

Definition setMix (mix : R) (d : t) : t :=
  mk (delayTime d) (1 - mix) mix (feedbackGain d).

Definition update (time feedback mix : R) (d : t) : t :=
  setMix mix (setFeedback feedback (setTime time d)).

End Delay.

Module Reverb.

Record t := mk {
  buffer : option AudioBuffer;
  dryGain : R;
  wetGain : R
}.

Definition new : t := mk None 1 1.

(** The length of the impulse response:
    [Math.max(1, Math.floor(sr * seconds))]. *)
Definition irLength (sampleRate seconds : R) : nat :=
  Z.to_nat (Z.max 1 (JS.floor (sampleRate * seconds))).

(** The duration [setDecay] asks for:
    [Math.min(6.0, Math.max(0.3, decay * 1.4))]. *)
Definition irSeconds (decay : R) : R := Rmin 6.0 (Rmax 0.3 (decay * 1.4)).

Section Host.

Variable Math_random : nat -> R.

(** [makeImpulseResponse(seconds, decay)], called when [rng] values of the
    host's random sequence have been used: channel 0 is filled first, then
    channel 1. *)
Definition makeImpulseResponse (sampleRate seconds decay : R) (rng : nat) :
  AudioBuffer :=
  let len := irLength sampleRate seconds in
  let channel (ch : nat) :=
    List.map
      (fun i =>
         let t := INR i / sampleRate in
         let env := exp (- t / Rmax 0.001 decay) in
         (Math_random (rng + ch * len + i) * 2 - 1) * env)
      (seq 0 len) in
  mkAudioBuffer sampleRate len [channel 0%nat; channel 1%nat].

(** [setDecay(decay)]: returns the stage and the advanced position of the
    random sequence. *)
Definition setDecay (sampleRate decay : R) (r : t) (rng : nat) : t * nat :=
  let seconds := irSeconds decay in
  (mk (Some (makeImpulseResponse sampleRate seconds decay rng)) (dryGain r)
     (wetGain r),
   (rng + 2 * irLength sampleRate seconds)%nat).

Definition setMix (mix : R) (r : t) : t := mk (buffer r) (1 - mix) mix.

Definition update (sampleRate decay mix : R) (r : t) (rng : nat) : t * nat :=
  let '(r1, rng1) := setDecay sampleRate decay r rng in
  (setMix mix r1, rng1).

End Host.

End Reverb.

Module Phaser.

Record t := mk {
  filters : list BiquadFilterNode;
  lfo_frequency : R;
  lfoGains : list R;
  dryGain : R;
  wetGain : R;
  feedbackGain : R
}.

Definition MAX_STAGES : nat := 8.

(** The constructor: [MAX_STAGES] all-pass filters, each with its LFO gain. *)
Definition new : t :=
  mk (replicate MAX_STAGES (mkBiquad allpass 1000 0.5)) 440
    (replicate MAX_STAGES 1500) 1 1 1.

Definition setRate (rate : R) (ph : t) : t :=
  mk (filters ph) rate (lfoGains ph) (dryGain ph) (wetGain ph)
    (feedbackGain ph).

(** The body of the loop of [setDepth] at index [i]. *)
Definition setDepth_at (freqRange : R) (ph : t) (i : nat) : t :=
  mk (alter (fun f => mkBiquad (bq_type f) 1000 (bq_Q f)) i (filters ph))
    (lfo_frequency ph)
    (alter (fun _ => freqRange) i (lfoGains ph))
    (dryGain ph) (wetGain ph) (feedbackGain ph).

Definition setDepth (depth : R) (ph : t) : t :=
  let freqRange := 3000 * depth in
  fold_left (setDepth_at freqRange) (seq 0 (length (filters ph))) ph.

Definition setFeedback (fb : R) (ph : t) : t :=
  mk (filters ph) (lfo_frequency ph) (lfoGains ph) (dryGain ph) (wetGain ph)
    fb.

Definition setMix (mix : R) (ph : t) : t :=
  mk (filters ph) (lfo_frequency ph) (lfoGains ph) (1 - mix) mix
    (feedbackGain ph).

(** [update(rate, depth, _stages, feedback, mix)]. *)
Definition update (rate depth _stages feedback mix : R) (ph : t) : t :=
  setMix mix (setFeedback feedback (setDepth depth (setRate rate ph))).

(** The stage count scales the LFO depth: two stage counts give different
    LFO gains on some phaser, everything else being equal. *)
Definition stage_count_scales_depth : Prop :=
  exists rate depth stages stages' feedback mix ph,
    lfoGains (update rate depth stages feedback mix ph)
    <> lfoGains (update rate depth stages' feedback mix ph).

End Phaser.

(** ** The effects chain *)

Module EffectsChain.

(** [EffectsState]. *)
Record EffectsState := mkEffectsState {
  filterOn : bool;
  filterType : BiquadFilterType;
  filterFreq : R;
  filterQ : R;
  chorusOn : bool;
  chorusMode : ChorusMode;
  chorusRate : R;
  chorusDepth : R;
  chorusMix : R;
  chorusFb : R;
  reverbOn : bool;
  reverbDecay : R;
  reverbMix : R;
  limiterOn : bool;
  limiterThr : R;
  limiterRel : R;
  delayOn : bool;
  delayTime : R;
  delayFb : R;
  delayMix : R;
  phaserOn : bool;
  phaserRate : R;
  phaserDepth : R;
  phaserStages : R;
  phaserFb : R;
  phaserMix : R
}.

(** [DEFAULT_FX]. *)
Definition DEFAULT_FX : EffectsState :=
  mkEffectsState false lowpass 1000 0.7
    false chorus_mode 0.35 6 0.35 0.15
    false 2.8 0.25
    false (-12) 0.15
    false 0.35 0.4 0.3
    false 0.5 0.7 4 0.3 0.5.

(** The six stage slots. *)
Inductive Stage :=
| FilterStage | ChorusStage | PhaserStage | DelayStage | ReverbStage
| LimiterStage.

(** The audio nodes the chain owns.  The nodes of the stages are made once
    by the constructors; [SumGain s id] is the gain node the block of stage
    [s] makes with [ctx.createGain()] during a rebuild, [id] counting the
    nodes made this way since the chain was built. *)
Inductive AudioNode :=
| inputNode | outputNode
| filter_node
| chorus_dry | chorus_delayNode | chorus_feedback | chorus_wet
| phaser_dry | phaser_input | phaser_filter (i : nat) | phaser_output
| phaser_feedback | phaser_wet
| delay_dry | delay_delayNode | delay_feedback | delay_wet
| reverb_dry | reverb_convolverNode | reverb_wet
| limiter_node
| SumGain (s : Stage) (id : nat).

#[global] Instance Stage_eq_dec : EqDecision Stage.
Proof. solve_decision. Defined.

#[global] Instance AudioNode_eq_dec : EqDecision AudioNode.
Proof. solve_decision. Defined.

(** A connection [a.connect(b)]. *)
Abbreviation Edge := (AudioNode * AudioNode)%type.

(** [a.connect(b)]: connecting an output to an input it already feeds has no
    effect. *)
Definition connect (e : Edge) (g : list Edge) : list Edge :=
  if decide (e ∈ g) then g else g ++ [e].

(** A run of [connect] calls, in order. *)
Definition connect_all (calls : list Edge) (g : list Edge) : list Edge :=
  fold_left (fun g e => connect e g) calls g.

(** [a.disconnect()]: drops every connection leaving [a]. *)
Definition disconnect (a : AudioNode) (g : list Edge) : list Edge :=
  List.filter (fun e => negb (bool_decide (e.1 = a))) g.

(** [EffectsChain]: the six stages, the connections among the chain's nodes,
    the number of gain nodes made by rebuilds so far, and from the audio
    context the sample rate and the position in the host's random
    sequence. *)
Record t := mk {
  filter : Filter.t;
  chorus : Chorus.t;
  reverb : Reverb.t;
  limiter : Limiter.t;
  delay : Delay.t;
  phaser : Phaser.t;
  connections : list Edge;
  created : nat;
  sampleRate : R;
  rng : nat
}.

(** The constructor. *)
Definition new (sampleRate : R) (rng0 : nat) : t :=
  mk Filter.new Chorus.new Reverb.new Limiter.new Delay.new Phaser.new
    [] 0 sampleRate rng0.

(** [this.phaser.allFilters], as nodes. *)
Definition allFilters (c : t) : list AudioNode :=
  List.map phaser_filter (seq 0 (length (Phaser.filters (phaser c)))).

(** The nodes [disconnectAll] calls [disconnect] on, in order: the input,
    then [filter], [chorus], [reverb], [limiter], [delay], [phaser], then
    the output. *)
Definition disconnected (c : t) : list AudioNode :=
  [ inputNode; filter_node;
    chorus_delayNode; chorus_dry; chorus_wet; chorus_feedback;
    reverb_convolverNode; reverb_dry; reverb_wet;
    limiter_node;
    delay_delayNode; delay_dry; delay_wet; delay_feedback;
    phaser_dry; phaser_wet; phaser_feedback; phaser_input; phaser_output ]
  ++ allFilters c ++ [ outputNode ].

(** [disconnectAll()]. *)
Definition disconnectAll (c : t) : list Edge :=
  fold_left (fun g a => disconnect a g) (disconnected c) (connections c).

(** The state threaded through [rebuild]: the connections, the number of
    gain nodes made, and the variable [node]. *)
Record Wiring := mkWiring {
  w_edges : list Edge;
  w_created : nat;
  w_node : AudioNode
}.

(** The [connect] call of the block [if (state.filterOn)]. *)
Definition filter_calls (node : AudioNode) : list Edge :=
  [ (node, filter_node) ].

(** The [connect] calls of the block [if (state.chorusOn)], in order. *)
Definition chorus_calls (node chorusSum : AudioNode) : list Edge :=
  [ (node, chorus_dry); (node, chorus_delayNode);
    (chorus_delayNode, chorus_feedback);
    (chorus_feedback, chorus_delayNode);
    (chorus_delayNode, chorus_wet);
    (chorus_dry, chorusSum); (chorus_wet, chorusSum) ].

(** The loop [for (const f of this.phaser.allFilters)]: the calls it makes
    and the final value of [pNode]. *)
Fixpoint filter_chain (pNode : AudioNode) (fs : list AudioNode) :
  list Edge * AudioNode :=
  match fs with
  | [] => ([], pNode)
  | f :: fs' =>
      let '(calls, last) := filter_chain f fs' in
      ((pNode, f) :: calls, last)
  end.

(** The [connect] calls of the block [if (state.phaserOn)], in order. *)
Definition phaser_calls (fs : list AudioNode) (node phaserSum : AudioNode) :
  list Edge :=
  let '(chain, pNode) := filter_chain phaser_input fs in
  [ (node, phaser_dry); (node, phaser_input) ]
  ++ chain
  ++ [ (pNode, phaser_output);
       (phaser_output, phaser_feedback);
       (phaser_feedback, phaser_input);
       (phaser_output, phaser_wet);
       (phaser_dry, phaserSum); (phaser_wet, phaserSum) ].

(** The [connect] calls of the block [if (state.delayOn)], in order. *)
Definition delay_calls (node delaySum : AudioNode) : list Edge :=
  [ (node, delay_dry); (node, delay_delayNode);
    (delay_delayNode, delay_feedback);
    (delay_feedback, delay_delayNode);
    (delay_delayNode, delay_wet);
    (delay_dry, delaySum); (delay_wet, delaySum) ].

(** The [connect] calls of the block [if (state.reverbOn)], in order. *)
Definition reverb_calls (node reverbSum : AudioNode) : list Edge :=
  [ (node, reverb_dry); (node, reverb_convolverNode);
    (reverb_convolverNode, reverb_wet);
    (reverb_dry, reverbSum); (reverb_wet, reverbSum) ].

(** The [connect] call of the block [if (state.limiterOn)]. *)
Definition limiter_calls (node : AudioNode) : list Edge :=
  [ (node, limiter_node) ].

(** A block whose input and output are one node of the stage ([filter],
    [limiter]): [node.connect(stage.input); node = stage.output]. *)
Definition wire_through (calls : AudioNode -> list Edge) (out : AudioNode)
  (w : Wiring) : Wiring :=
  mkWiring (connect_all (calls (w_node w)) (w_edges w)) (w_created w) out.

(** A block with a dry and a wet path: the calls are made, the sum node
    being a new gain node, and [node] becomes that sum node. *)
Definition wire_mixed (s : Stage) (calls : AudioNode -> AudioNode -> list Edge)
  (w : Wiring) : Wiring :=
  let sum := SumGain s (w_created w) in
  mkWiring (connect_all (calls (w_node w) sum) (w_edges w))
    (S (w_created w)) sum.

(** [rebuild(state)]. *)
Definition rebuild (state : EffectsState) (c : t) : t :=
  let w := mkWiring (disconnectAll c) (created c) inputNode in
  let w :=
    if filterOn state then wire_through filter_calls filter_node w else w in
  let w :=
    if chorusOn state then wire_mixed ChorusStage chorus_calls w else w in
  let w :=
    if phaserOn state
    then wire_mixed PhaserStage (phaser_calls (allFilters c)) w else w in
  let w :=
    if delayOn state then wire_mixed DelayStage delay_calls w else w in
  let w :=
    if reverbOn state then wire_mixed ReverbStage reverb_calls w else w in
  let w :=
    if limiterOn state then wire_through limiter_calls limiter_node w
    else w in
  mk (filter c) (chorus c) (reverb c) (limiter c) (delay c) (phaser c)
    (connect (w_node w, outputNode) (w_edges w)) (w_created w)
    (sampleRate c) (rng c).

Section Host.

Variable Math_random : nat -> R.

(** [updateParams(state)]. *)
Definition updateParams (state : EffectsState) (c : t) : t :=
  let filter' :=
    Filter.update (filterType state) (filterFreq state) (filterQ state)
      (filter c) in
  let chorus' :=
    Chorus.update (chorusMode state) (chorusRate state) (chorusDepth state)
      (chorusMix state) (chorusFb state) (chorus c) in
  let '(reverb', rng') :=
    Reverb.update Math_random (sampleRate c) (reverbDecay state)
      (reverbMix state) (reverb c) (rng c) in
  let limiter' :=
    Limiter.update (limiterThr state) (limiterRel state) (limiter c) in
  let delay' :=
    Delay.update (delayTime state) (delayFb state) (delayMix state)
      (delay c) in
  let phaser' :=
    Phaser.update (phaserRate state) (phaserDepth state) (phaserStages state)
      (phaserFb state) (phaserMix state) (phaser c) in
  mk filter' chorus' reverb' limiter' delay' phaser' (connections c)
    (created c) (sampleRate c) rng'.

(** The states the chain can be in: built by the constructor, then changed
    by [rebuild] and [updateParams] only. *)
Inductive chain_state : t -> Prop :=
| chain_new sr rng0 : chain_state (new sr rng0)
| chain_rebuild state c : chain_state c -> chain_state (rebuild state c)
| chain_update state c : chain_state c -> chain_state (updateParams state c).

End Host.

(** *** The signal path, at the level of stages *)

#[local] Close Scope R_scope.

(** Where a node sits along the chain: at the chain input, inside one of the
    six stages, at the gain node that sums the dry and the wet path of a
    stage, or at the chain output. *)
Inductive Position :=
| AtInput
| AtStage (s : Stage)
| AtSum (s : Stage)
| AtOutput.

#[global] Instance Position_eq_dec : EqDecision Position.
Proof. solve_decision. Defined.

(** The position of a node.  The gain node a block of [rebuild] makes is
    no node of the stage: it has a position of its own, after the stage
    whose two paths it sums. *)
Definition position (n : AudioNode) : Position :=
  match n with
  | inputNode => AtInput
  | outputNode => AtOutput
  | filter_node => AtStage FilterStage
  | chorus_dry | chorus_delayNode | chorus_feedback | chorus_wet =>
      AtStage ChorusStage
  | phaser_dry | phaser_input | phaser_filter _ | phaser_output
  | phaser_feedback | phaser_wet => AtStage PhaserStage
  | delay_dry | delay_delayNode | delay_feedback | delay_wet =>
      AtStage DelayStage
  | reverb_dry | reverb_convolverNode | reverb_wet => AtStage ReverbStage
  | limiter_node => AtStage LimiterStage
  | SumGain s _ => AtSum s
  end.

(** The canonical order of the stage slots. *)
Definition stage_order : list Stage :=
  [ FilterStage; ChorusStage; PhaserStage; DelayStage; ReverbStage;
    LimiterStage ].

(** The enable flag of a stage. *)
Definition enabled (state : EffectsState) (s : Stage) : bool :=
  match s with
  | FilterStage => filterOn state
  | ChorusStage => chorusOn state
  | PhaserStage => phaserOn state
  | DelayStage => delayOn state
  | ReverbStage => reverbOn state
  | LimiterStage => limiterOn state
  end.

(** The stages whose block has a dry and a wet path. *)
Definition mixed (s : Stage) : bool :=
  match s with
  | ChorusStage | PhaserStage | DelayStage | ReverbStage => true
  | FilterStage | LimiterStage => false
  end.

(** The positions the block of a stage adds to the path: the stage, then
    for a stage with two paths the gain node that sums them. *)
Definition stage_positions (s : Stage) : list Position :=
  if mixed s then [ AtStage s; AtSum s ] else [ AtStage s ].

(** The series path a state asks for: the input, the enabled stages in
    canonical order, each followed by its sum node if it has one, the
    output. *)
Definition series_path (state : EffectsState) : list Position :=
  AtInput
  :: List.flat_map stage_positions (List.filter (enabled state) stage_order)
  ++ [ AtOutput ].

(** The nodes fed by the chain input: those a run of connections leads to
    from [inputNode]. *)
Inductive reach (g : list Edge) : AudioNode -> Prop :=
| reach_input : reach g inputNode
| reach_step a b : reach g a -> (a, b) ∈ g -> reach g b.

(** The signal passes from position [x] to a different position [y]: a node
    at [x] that the input feeds is connected to a node at [y]. *)
Definition stage_link (g : list Edge) (x y : Position) : Prop :=
  exists a b,
    reach g a /\ (a, b) ∈ g /\ position a = x /\ position b = y /\ x <> y.

(** [y] comes right after [x] in [l]. *)
Definition adjacent {A} (x y : A) (l : list A) : Prop :=
  exists l1 l2, l = l1 ++ x :: y :: l2.

(** The signal of node [a] arrives at node [b]: a run of connections leads
    from [a] to [b]. *)
Inductive feeds (g : list Edge) : AudioNode -> AudioNode -> Prop :=
| feeds_here a : feeds g a a
| feeds_step a b c : (a, b) ∈ g -> feeds g b c -> feeds g a c.

(** *** The calls of one rebuild

    What follows serves the proofs.  The [connect] calls of a rebuild do
    not depend on the connections left by earlier rebuilds, and they depend
    on the number of gain nodes made so far only through the identity of
    the sum nodes; they are listed for the case where none was made before,
    checked by computation for each of the 64 choices of flags, and moved
    to the general case by renaming the sum nodes. *)

(** Renaming of the sum nodes when [k] gain nodes were made before. *)
Definition shift (k : nat) (n : AudioNode) : AudioNode :=
  match n with
  | SumGain s id => SumGain s (id + k)
  | _ => n
  end.

Definition shift_edge (k : nat) (e : Edge) : Edge :=
  (shift k e.1, shift k e.2).

(** The filter nodes of a phaser with [MAX_STAGES] filters. *)
Definition the_filters : list AudioNode :=
  List.map phaser_filter (seq 0 Phaser.MAX_STAGES).

(** The counterparts of [wire_through] and [wire_mixed] that only record
    the calls, after those recorded so far. *)
Definition plan_through (calls : AudioNode -> list Edge) (out : AudioNode)
  (w : Wiring) : Wiring :=
  mkWiring (w_edges w ++ calls (w_node w)) (w_created w) out.

Definition plan_mixed (s : Stage)
  (calls : AudioNode -> AudioNode -> list Edge) (w : Wiring) : Wiring :=
  let sum := SumGain s (w_created w) in
  mkWiring (w_edges w ++ calls (w_node w) sum) (S (w_created w)) sum.

(** The [connect] calls of a rebuild in program order, and the number of
    gain nodes made once it is over, when [k] were made before. *)
Definition rebuild_calls (state : EffectsState) (k : nat) : list Edge * nat :=
  let w := mkWiring [] k inputNode in
  let w :=
    if filterOn state then plan_through filter_calls filter_node w else w in
  let w :=
    if chorusOn state then plan_mixed ChorusStage chorus_calls w else w in
  let w :=
    if phaserOn state
    then plan_mixed PhaserStage (phaser_calls the_filters) w else w in
  let w :=
    if delayOn state then plan_mixed DelayStage delay_calls w else w in
  let w :=
    if reverbOn state then plan_mixed ReverbStage reverb_calls w else w in
  let w :=
    if limiterOn state then plan_through limiter_calls limiter_node w
    else w in
  (w_edges w ++ [ (w_node w, outputNode) ], w_created w).

(** The calls come in the order of the signal: every call leaves a node of
    [seen] or the target of an earlier call. *)
Fixpoint flowb (seen : list AudioNode) (calls : list Edge) : bool :=
  match calls with
  | [] => true
  | (a, b) :: rest => bool_decide (a ∈ seen) && flowb (b :: seen) rest
  end.

(** [adjacent], decided. *)
Fixpoint adjacentb (x y : Position) (l : list Position) : bool :=
  match l with
  | a :: (b :: _) as l' =>
      (bool_decide (x = a) && bool_decide (y = b)) || adjacentb x y l'
  | _ => false
  end.

(** A call stays inside a position or follows the path. *)
Definition link_okb (path : list Position) (e : Edge) : bool :=
  bool_decide (position e.1 = position e.2)
  || adjacentb (position e.1) (position e.2) path.

(** The consecutive pairs of a list. *)
Fixpoint pairs {A} (l : list A) : list (A * A) :=
  match l with
  | a :: (b :: _) as l' => (a, b) :: pairs l'
  | _ => []
  end.

(** Some call goes from the first position to the second. *)
Definition has_linkb (calls : list Edge) (xy : Position * Position) : bool :=
  existsb
    (fun e => bool_decide (position e.1 = xy.1)
              && bool_decide (position e.2 = xy.2)) calls.

(** A node that exists when [m] gain nodes were made: a sum node among the
    [m] first, a filter among the [MAX_STAGES] of the phaser. *)
Definition node_okb (m : nat) (n : AudioNode) : bool :=
  match n with
  | SumGain _ id => bool_decide (id < m)
  | phaser_filter i => bool_decide (i < Phaser.MAX_STAGES)
  | _ => true
  end.

(** Some call enters stage [s]. *)
Definition on_pathb (calls : list Edge) (s : Stage) : bool :=
  existsb (fun e => bool_decide (position e.2 = AtStage s)) calls.

(** The checks made on the calls of a rebuild when no gain node was made
    before. *)
Definition calls_okb (state : EffectsState) : bool :=
  let '(calls, m) := rebuild_calls state 0 in
  let path := series_path state in
  flowb [ inputNode ] calls
  && forallb (link_okb path) calls
  && forallb (has_linkb calls) (pairs path)
  && forallb (fun e => node_okb m e.1 && node_okb m e.2) calls
  && forallb (fun s => bool_decide (on_pathb calls s = enabled state s))
       stage_order
  && bool_decide (NoDup path).

(** The nodes of a stage that the block of the stage connects: for the
    Phaser, with the [MAX_STAGES] filters of [allFilters]. *)
Definition stage_nodes (s : Stage) : list AudioNode :=
  match s with
  | FilterStage => [ filter_node ]
  | ChorusStage =>
      [ chorus_dry; chorus_delayNode; chorus_feedback; chorus_wet ]
  | PhaserStage =>
      [ phaser_dry; phaser_input ] ++ the_filters
      ++ [ phaser_output; phaser_feedback; phaser_wet ]
  | DelayStage => [ delay_dry; delay_delayNode; delay_feedback; delay_wet ]
  | ReverbStage => [ reverb_dry; reverb_convolverNode; reverb_wet ]
  | LimiterStage => [ limiter_node ]
  end.

(** The wet path of the Phaser: its input, the [MAX_STAGES] filters one
    after the other, its output. *)
Definition phaser_chain : list Edge :=
  pairs (phaser_input :: the_filters ++ [ phaser_output ]).

(** One pass through the calls from the last to the first, adding to
    [seen] the source of each call whose target is in it. *)
Definition drain_pass (calls : list Edge) (seen : list AudioNode) :
  list AudioNode :=
  fold_right
    (fun e seen => if bool_decide (e.2 ∈ seen) then e.1 :: seen else seen)
    seen calls.

(** Nodes whose signal arrives at the chain output, found in two passes
    (the second one for the feedback loops). *)
Definition drain (calls : list Edge) : list AudioNode :=
  drain_pass calls (drain_pass calls [ outputNode ]).

(** More checks on the calls of a rebuild when no gain node was made
    before: every node of an enabled stage is entered by a call; the signal
    of both ends of every call arrives at the output; the wet path of an
    enabled Phaser is there, and a filter feeds nothing outside it. *)
Definition wired_okb (state : EffectsState) : bool :=
  let calls := (rebuild_calls state 0).1 in
  forallb
    (fun s =>
       negb (enabled state s)
       || forallb
            (fun n => existsb (fun e => bool_decide (e.2 = n)) calls)
            (stage_nodes s))
    stage_order
  && forallb
       (fun e =>
          bool_decide (e.1 ∈ drain calls) && bool_decide (e.2 ∈ drain calls))
       calls
  && (negb (phaserOn state)
      || forallb (fun e => bool_decide (e ∈ calls)) phaser_chain)
  && forallb
       (fun e =>
          match e.1 with
          | phaser_filter _ => bool_decide (e ∈ phaser_chain)
          | _ => true
          end)
       calls.

(** The threaded state [w] of [rebuild] started on the connections [g0]
    agrees with the recorded calls [pl]. *)
Definition plan_of (g0 : list Edge) (w pl : Wiring) : Prop :=
  w_edges w = connect_all (w_edges pl) g0
  /\ w_created w = w_created pl /\ w_node w = w_node pl.

(** The invariant of the chain: the phaser has its [MAX_STAGES] filters, and
    every connection leaves a node that exists. *)
Definition settled (c : t) : Prop :=
  allFilters c = the_filters
  /\ forall e, e ∈ connections c -> node_okb (created c) e.1 = true.

(** A phaser whose two arrays have the length the constructor gives them. *)
Definition full_bank (ph : Phaser.t) : Prop :=
  length (Phaser.filters ph) = Phaser.MAX_STAGES
  /\ length (Phaser.lfoGains ph) = Phaser.MAX_STAGES.

(** [state] with another stage count for the phaser. *)
Definition with_phaserStages (state : EffectsState) (n : R) : EffectsState :=
  mkEffectsState (filterOn state) (filterType state) (filterFreq state)
    (filterQ state) (chorusOn state) (chorusMode state) (chorusRate state)
    (chorusDepth state) (chorusMix state) (chorusFb state) (reverbOn state)
    (reverbDecay state) (reverbMix state) (limiterOn state)
    (limiterThr state) (limiterRel state) (delayOn state) (delayTime state)
    (delayFb state) (delayMix state) (phaserOn state) (phaserRate state)
    (phaserDepth state) n (phaserFb state) (phaserMix state).

(** [state] with another mix for the reverb. *)
Definition with_reverbMix (state : EffectsState) (mix : R) : EffectsState :=
  mkEffectsState (filterOn state) (filterType state) (filterFreq state)
    (filterQ state) (chorusOn state) (chorusMode state) (chorusRate state)
    (chorusDepth state) (chorusMix state) (chorusFb state) (reverbOn state)
    (reverbDecay state) mix (limiterOn state)
    (limiterThr state) (limiterRel state) (delayOn state) (delayTime state)
    (delayFb state) (delayMix state) (phaserOn state) (phaserRate state)
    (phaserDepth state) (phaserStages state) (phaserFb state)
    (phaserMix state).

(** A host whose first random value is 0 and whose later ones are 0.5. *)
Definition zero_then_half (n : nat) : R :=
  match n with
  | O => 0%R
  | S _ => 0.5%R
  end.

#[local] Open Scope R_scope.

End EffectsChain.

(** ** A generator over its life *)

Module Generator.

Import Worklet.

Section Host.

Variable Math_random : nat -> R.

(** The processors a host can hold: built by the constructor, then sent
    messages and asked for blocks, in any order. *)
Inductive running : Processor -> Prop :=
| running_constructor o_formula o_params sampleRate rng0 :
    running (constructor Math_random o_formula o_params sampleRate rng0)
| running_onmessage s msg :
    running s -> running (onmessage Math_random s msg)
| running_process s n :
    running s -> running (process Math_random s n).1.2.

End Host.

(** The Karplus-Strong fields fit together: the buffer is allocated with
    [ksN >= 2] elements and [ksIdx] points into it. *)
Definition ks_shaped (s : Processor) : Prop :=
  exists buf,
    ksBuf s = Some buf /\ length buf = ksN s
    /\ (2 <= ksN s)%nat /\ (ksIdx s < ksN s)%nat.

(** Every key of the constructor's defaults is a key of the parameter
    object. *)
Definition declared_keys (q : Params) : Prop :=
  forall key, is_Some (default_params !! key) -> is_Some (q !! key).

(** What the constructor establishes and every method keeps. *)
Definition well_formed (s : Processor) : Prop :=
  ks_shaped s
  /\ length (shepardPhases s) = 10%nat
  /\ declared_keys (p s)
  /\ formula s <> ""%string.

(** The noise burst [initKS] fills the buffer with, when [r] values of the
    host's random sequence have been used. *)
Definition ks_burst (Math_random : nat -> R) (s : Processor) (r : nat) :
  list R :=
  List.map (fun i => Math_random (r + i)%nat * 2 - 1) (seq 0 (ksLength s)).

(** The values the clamps of the logistic, brown-noise and Rossler arms keep
    in range. *)
Definition clamped_fields (s : Processor) : Prop :=
  0 <= logi s <= 1
  /\ -1 <= brownVal s <= 1
  /\ -50 <= rx s <= 50 /\ -50 <= ry s <= 50 /\ -50 <= rz s <= 50.

(** The arms whose value is a sine, a sine scaled by an amplitude clamped
    to [0, 1], a [tanh], a clamped accumulator or an impulse, and whose
    phase increment is bounded by the parameters.  The arm of ['gliss'] is
    left out: its frequency [f0 * exp(k * t)] grows without bound with the
    engine time. *)
Definition unit_range_cases : list FormulaCase :=
  [ CaseFm; CaseLogistic; CasePm; CaseBeats; CaseDist; CaseQuasi;
    CaseLorenz; CaseBrownnoise; CaseVelvetnoise; CaseRossler; CaseDefault ].

(** The arms that never call [Math.random]. *)
Definition deterministic_cases : list FormulaCase :=
  [ CaseFm; CaseLogistic; CaseGliss; CaseAdditive; CasePm; CaseBeats;
    CaseDist; CaseQuasi; CaseLorenz; CaseRossler; CaseShepard; CaseDefault ].

(** The arms that call [Math.random] exactly once per sample. *)
Definition one_draw_cases : list FormulaCase :=
  [ CaseNoiselp; CasePinknoise; CaseBrownnoise ].

(** The number of impulses among the values of a velvet-noise block: the
    arm gives [1] or [-1] at an impulse and [0] otherwise. *)
Definition impulses (xs : list R) : nat :=
  length (List.filter (fun x => if Req_dec_T x 0 then false else true) xs).

(** The arms that read nothing but the parameters and the engine time, with
    the value they compute. *)
Definition closed_form (c : FormulaCase) : option (Params -> R -> R) :=
  match c with
  | CaseFm =>
      Some (fun q t =>
              sin (twoPi * param q "fc" * t
                   + param q "I" * sin (twoPi * param q "fm" * t)))
  | CaseAdditive => Some additive_sample
  | CasePm =>
      Some (fun q t =>
              sin (twoPi * param q "f" * t
                   + sin (sin (twoPi * param q "f2pm" * t)) * 5.0))
  | CaseBeats =>
      Some (fun q t =>
              0.5 * (sin (twoPi * param q "fbeat" * t)
                     + sin (twoPi * (param q "fbeat" + param q "df") * t)))
  | CaseDist =>
      Some (fun q t => tanh (param q "alpha" * sin (twoPi * param q "fd" * t)))
  | CaseDefault => Some (fun _ _ => 0)
  | _ => None
  end.

(** The engine time of the [k]-th sample of a block that starts at [t0]:
    [t += 1 / sr] has run [k] times. *)
Definition sample_time (t0 srate : R) (k : nat) : R := t0 + INR k * (1 / srate).

(** A generator built for ['karplus'] at 44.1 kHz with the default
    parameters. *)
Definition karplus_example : Processor :=
  constructor JS.zero_random (Some "karplus"%string) ∅ 44100 0.

End Generator.

(** ** The chain over its life *)

Module Chain.

Import EffectsChain.

(** The eight all-pass filters as the Phaser's constructor sets them. *)
Definition allpass_bank : list BiquadFilterNode :=
  replicate Phaser.MAX_STAGES (mkBiquad allpass 1000 0.5).

(** The stages whose block makes a sum node with [ctx.createGain()]. *)
Definition mixed_stages : list Stage :=
  [ ChorusStage; PhaserStage; DelayStage; ReverbStage ].

(** The number of gain nodes one rebuild makes. *)
Definition sums_made (state : EffectsState) : nat :=
  length (List.filter (enabled state) mixed_stages).

(** A sum node made by a rebuild. *)
Definition is_sum (n : AudioNode) : bool :=
  match n with
  | SumGain _ _ => true
  | _ => false
  end.

(** [n] rebuilds in a row for the same state. *)
Fixpoint rebuilds (n : nat) (state : EffectsState) (c : t) : t :=
  match n with
  | O => c
  | S n' => rebuild state (rebuilds n' state c)
  end.

(** [DEFAULT_FX] with the Delay stage enabled. *)
Definition delay_on : EffectsState :=
  mkEffectsState false lowpass 1000 0.7
    false chorus_mode 0.35 6 0.35 0.15
    false 2.8 0.25
    false (-12) 0.15
    true 0.35 0.4 0.3
    false 0.5 0.7 4 0.3 0.5.

End Chain.

(** ** The recorder worklet *)

Module RecorderProcessor.

(** [RecorderMessage]. *)
Inductive RecorderMessage := MsgStart | MsgStop.

(** The fields of [RecorderProcessor]. *)
Record t := mk {
  recording : bool;
  chunks : list (list R)
}.

(** The field initialisers: [recording = false], [chunks = []]. *)
Definition new : t := mk false [].

(** [target.set(source, offset)] on typed arrays: a [RangeError] ([None])
    when the source does not fit. *)
Definition set (target source : list R) (offset : nat) : option (list R) :=
  if decide (offset + length source <= length target)%nat
  then Some (take offset target ++ source
             ++ drop (offset + length source) target)
  else None.

(** [this.chunks.reduce((acc, c) => acc + c.length, 0)]. *)
Definition totalLength (cs : list (list R)) : nat :=
  fold_left (fun acc c => (acc + length c)%nat) cs 0%nat.

(** The loop [for (const chunk of this.chunks)] of the ['stop'] branch:
    [result.set(chunk, offset); offset += chunk.length]. *)
Fixpoint copy_chunks (cs : list (list R)) (result : list R) (offset : nat) :
  option (list R) :=
  match cs with
  | [] => Some result
  | chunk :: cs' =>
      match set result chunk offset with
      | Some result' => copy_chunks cs' result' (offset + length chunk)
      | None => None
      end
  end.

(** [this.port.onmessage]: the processor afterwards and the samples of the
    ['data'] message posted, if one is; [None] when the handler throws. *)
Definition onmessage (s : t) (msg : RecorderMessage) :
  option (t * option (list R)) :=
  match msg with
  | MsgStart => Some (mk true [], None)
  | MsgStop =>
      let result0 := replicate (totalLength (chunks s)) 0 in
      match copy_chunks (chunks s) result0 0 with
      | Some result => Some (mk false [], Some result)
      | None => None
      end
  end.

(** [process(inputs, outputs)]: the processor and the outputs afterwards and
    the returned flag; [None] when [output[0].set(input[0])] throws.  The
    guard [input && input[0] && output && output[0]] holds when the four
    arrays exist. *)
Definition process (s : t) (inputs outputs : list (list (list R))) :
  option (t * list (list (list R)) * bool) :=
  match inputs !! 0%nat, outputs !! 0%nat with
  | Some input, Some output =>
      match input !! 0%nat, output !! 0%nat with
      | Some in0, Some out0 =>
          match set out0 in0 0 with
          | Some out0' =>
              let outputs' := <[0%nat := <[0%nat := out0']> output]> outputs in
              let s' :=
                if recording s then mk (recording s) (chunks s ++ [in0])
                else s in
              Some (s', outputs', true)
          | None => None
          end
      | _, _ => Some (s, outputs, true)
      end
  | _, _ => Some (s, outputs, true)
  end.

(** A run of [process] calls, each on its own inputs and outputs. *)
Fixpoint run (s : t) (calls : list (list (list (list R)) * list (list (list R)))) :
  option t :=
  match calls with
  | [] => Some s
  | (inputs, outputs) :: rest =>
      match process s inputs outputs with
      | Some (s', _, _) => run s' rest
      | None => None
      end
  end.

(** The first channel of the first input of a call, when the guard of
    [process] holds. *)
Definition heard (call : list (list (list R)) * list (list (list R))) :
  option (list R) :=
  match call.1 !! 0%nat, call.2 !! 0%nat with
  | Some input, Some output =>
      match input !! 0%nat, output !! 0%nat with
      | Some in0, Some _ => Some in0
      | _, _ => None
      end
  | _, _ => None
  end.

(** The output channel is at least as long as the input channel (in the
    audio worklet both hold one render quantum). *)
Definition fits (call : list (list (list R)) * list (list (list R))) : Prop :=
  forall input output in0 out0,
    call.1 !! 0%nat = Some input -> call.2 !! 0%nat = Some output ->
    input !! 0%nat = Some in0 -> output !! 0%nat = Some out0 ->
    (length in0 <= length out0)%nat.

(** All the samples heard over a run of calls, in order. *)
Definition heard_all
  (calls : list (list (list (list R)) * list (list (list R)))) : list R :=
  concat (omap heard calls).

End RecorderProcessor.

(** ** URL-safe base64 *)

Module Base64Url.

#[local] Open Scope char_scope.

(** [s.replace(/a/g, b)] for one-character [a] and [b]. *)
Definition replace_all (a b : ascii) (s : list ascii) : list ascii :=
  List.map (fun c => if Ascii.eqb c a then b else c) s.

(** The string without the [=] it starts with. *)
Fixpoint strip_front (s : list ascii) : list ascii :=
  match s with
  | c :: s' => if Ascii.eqb c "=" then strip_front s' else s
  | [] => []
  end.

(** [s.replace(/=+$/, '')]. *)
Definition strip_padding (s : list ascii) : list ascii :=
  reverse (strip_front (reverse s)).

(** What [b64urlEncode] does to the result of [btoa]. *)
Definition to_url (b64 : list ascii) : list ascii :=
  strip_padding (replace_all "/" "_" (replace_all "+" "-" b64)).

(** What [b64urlDecode] passes to [atob]:
    [pad = b64.length % 4 ? '='.repeat(4 - (b64.length % 4)) : ''] after the
    two replacements. *)
Definition from_url (b64u : list ascii) : list ascii :=
  let b64 := replace_all "_" "/" (replace_all "-" "+" b64u) in
  let pad :=
    if (length b64 mod 4 =? 0)%nat then []
    else replicate (4 - length b64 mod 4) "=" in
  b64 ++ pad.

Section Host.

(** The host's [TextEncoder.encode] followed by the loop that builds [bin],
    [btoa], [atob], and the loop that reads [bin] followed by
    [TextDecoder.decode]; [atob] throws ([None]) on a malformed string. *)
Variable utf8_bin : string -> list ascii.
Variable btoa : list ascii -> list ascii.
Variable atob : list ascii -> option (list ascii).
Variable bin_utf8 : list ascii -> string.

(** [b64urlEncode]. *)
Definition b64urlEncode (str : string) : list ascii :=
  to_url (btoa (utf8_bin str)).

(** [b64urlDecode]. *)
Definition b64urlDecode (b64u : list ascii) : option string :=
  bin_utf8 <$> atob (from_url b64u).

End Host.

(** A character of the base64 alphabet. *)
Definition is_b64 (c : ascii) : bool :=
  let n := nat_of_ascii c in
  ((65 <=? n) && (n <=? 90) || (97 <=? n) && (n <=? 122)
   || (48 <=? n) && (n <=? 57) || (n =? 43) || (n =? 47))%nat.

(** A character the pattern [[A-Za-z0-9\-_]] of [loadStateFromURL]
    matches. *)
Definition is_token (c : ascii) : bool :=
  let n := nat_of_ascii c in
  ((65 <=? n) && (n <=? 90) || (97 <=? n) && (n <=? 122)
   || (48 <=? n) && (n <=? 57) || (n =? 45) || (n =? 95))%nat.

(** The shape of a result of [btoa]: characters of the base64 alphabet in
    groups of four, the last group ending with at most two [=]. *)
Definition well_padded (s : list ascii) : Prop :=
  exists body k,
    s = body ++ replicate k "="
    /\ forallb is_b64 body = true
    /\ (k <= 2)%nat
    /\ (length s mod 4 = 0)%nat.

End Base64Url.

(** ** The state in the URL hash *)

Module URLState.

Import Base64Url.

#[local] Open Scope char_scope.

(** The longest run of characters of [[A-Za-z0-9\-_]] a string starts
    with. *)
Fixpoint token_prefix (s : list ascii) : list ascii :=
  match s with
  | c :: s' => if is_token c then c :: token_prefix s' else []
  | [] => []
  end.

(** [hash.match(/#s=([A-Za-z0-9\-_]+)/)]: the group of the leftmost match,
    if there is one. *)
Fixpoint match_state (hash : list ascii) : option (list ascii) :=
  match hash with
  | [] => None
  | c :: rest =>
      match hash with
      | "#" :: "s" :: "=" :: s' =>
          match token_prefix s' with
          | [] => match_state rest
          | token => Some token
          end
      | _ => match_state rest
      end
  end.

Section Host.

(** [AppState], and the host functions: those of [Base64Url], and
    [JSON.stringify] and [JSON.parse], which throws ([None]) on a malformed
    text. *)
Variable AppState : Type.
Variable utf8_bin : string -> list ascii.
Variable btoa : list ascii -> list ascii.
Variable atob : list ascii -> option (list ascii).
Variable bin_utf8 : list ascii -> string.
Variable JSON_stringify : AppState -> string.
Variable JSON_parse : string -> option AppState.

(** [loadStateFromURL()], on the value of [location.hash]: [null] when the
    pattern does not match or when the [try] block throws. *)
Definition loadStateFromURL (hash : list ascii) : option AppState :=
  match match_state hash with
  | None => None
  | Some m =>
      match b64urlDecode atob bin_utf8 m with
      | Some json => JSON_parse json
      | None => None
      end
  end.

(** [writeStateToURL(state)]: the hash passed to [history.replaceState]. *)
Definition writeStateToURL (state : AppState) : list ascii :=
  [ "#"; "s"; "=" ] ++ b64urlEncode utf8_bin btoa (JSON_stringify state).

End Host.

End URLState.

(** ** A model of the platform functions

    [btoa] and [atob] on byte strings, the UTF-8 coders on ASCII text and
    JSON on booleans: enough of the host to run the functions above on
    examples. *)

Module Platform.

#[local] Open Scope char_scope.

Definition alphabet : list ascii :=
  String.list_ascii_of_string
    "ABCDEFGHIJKLMNOPQRSTUVWXYZabcdefghijklmnopqrstuvwxyz0123456789+/".

Definition digit (n : N) : ascii := nth (N.to_nat n) alphabet "A".

Definition value (c : ascii) : option N :=
  (fun x => N.of_nat x.1) <$> list_find (fun d => d = c) alphabet.

Definition byte (n : N) : ascii := ascii_of_N (n mod 256).

(** [btoa]: three bytes give four digits, the last group being padded. *)
Fixpoint btoa (bin : list ascii) : list ascii :=
  match bin with
  | [] => []
  | [ a ] =>
      let n := (N_of_ascii a * 65536)%N in
      [ digit (n / 262144); digit (n / 4096 mod 64); "="; "=" ]
  | [ a; b ] =>
      let n := (N_of_ascii a * 65536 + N_of_ascii b * 256)%N in
      [ digit (n / 262144); digit (n / 4096 mod 64); digit (n / 64 mod 64);
        "=" ]
  | a :: b :: c :: rest =>
      let n := (N_of_ascii a * 65536 + N_of_ascii b * 256 + N_of_ascii c)%N in
      digit (n / 262144) :: digit (n / 4096 mod 64) :: digit (n / 64 mod 64)
      :: digit (n mod 64) :: btoa rest
  end.

(** [atob] on padded base64; [None] for the [InvalidCharacterError]. *)
Fixpoint atob (s : list ascii) : option (list ascii) :=
  match s with
  | [] => Some []
  | c0 :: c1 :: c2 :: c3 :: rest =>
      match value c0, value c1 with
      | Some v0, Some v1 =>
          let n01 := (v0 * 262144 + v1 * 4096)%N in
          if Ascii.eqb c2 "=" then
            if Ascii.eqb c3 "=" then
              match rest with
              | [] => Some [ byte (n01 / 65536) ]
              | _ => None
              end
            else None
          else
            match value c2 with
            | Some v2 =>
                let n012 := (n01 + v2 * 64)%N in
                if Ascii.eqb c3 "=" then
                  match rest with
                  | [] => Some [ byte (n012 / 65536); byte (n012 / 256) ]
                  | _ => None
                  end
                else
                  match value c3, atob rest with
                  | Some v3, Some bin =>
                      let n := (n012 + v3)%N in
                      Some (byte (n / 65536) :: byte (n / 256) :: byte n
                            :: bin)
                  | _, _ => None
                  end
            | None => None
            end
      | _, _ => None
      end
  | _ => None
  end.

(** [TextEncoder] and [TextDecoder], for ASCII text. *)
Definition utf8_bin (str : string) : list ascii := String.list_ascii_of_string str.

Definition bin_utf8 (bin : list ascii) : string := String.string_of_list_ascii bin.

(** [JSON.stringify] and [JSON.parse], for booleans. *)
Definition JSON_stringify (b : bool) : string :=
  if b then "true"%string else "false"%string.

Definition JSON_parse (json : string) : option bool :=
  if String.eqb json "true" then Some true
  else if String.eqb json "false" then Some false
  else None.

End Platform.

(** ** Examples *)

Module Examples.

#[local] Open Scope R_scope.

(** A generator built for ['fm'] at 44.1 kHz with the default parameters. *)
Definition fm_example : Worklet.Processor :=
  Worklet.constructor JS.zero_random (Some "fm"%string) ∅ 44100 0.

(** A generator built for ['noiselp'] at 44.1 kHz with the default
    parameters. *)
Definition noiselp_example : Worklet.Processor :=
  Worklet.constructor JS.zero_random (Some "noiselp"%string) ∅ 44100 0.

(** A generator built for ['velvetnoise'] at 44.1 kHz with the default
    parameters. *)
Definition velvet_example : Worklet.Processor :=
  Worklet.constructor JS.zero_random (Some "velvetnoise"%string) ∅ 44100 0.


(** An engine with one generator. *)
Definition one_generator : AudioEngine.t :=
  AudioEngine.mkAudioEngine true
    {[ "fm"%string := AudioEngine.mkGeneratorNode fm_example 0 ∅ ]}.

(** A state with the six stages enabled. *)
Definition all_on : EffectsChain.EffectsState :=
  EffectsChain.mkEffectsState true lowpass 1000 0.7
    true chorus_mode 0.35 6 0.35 0.15
    true 2.8 0.25
    true (-12) 0.15
    true 0.35 0.4 0.3
    true 0.5 0.7 4 0.3 0.5.

(** A chain after one rebuild with the Delay stage enabled. *)
Definition delay_chain : EffectsChain.t :=
  EffectsChain.rebuild Chain.delay_on (EffectsChain.new 44100 0).

(** One [process] call of the recorder on two frames, mono. *)
Definition two_frames : list (list (list R)) * list (list (list R)) :=
  ([ [ [ 1; 2 ] ] ], [ [ [ 0; 0 ] ] ]).

(** The hash ["#s=abc&x"]. *)
Definition hash_example : list ascii :=
  String.list_ascii_of_string "#s=abc&x".

End Examples.

(** * Properties of the generator worklet *)

Module WorkletTheory.

Import Worklet.

(** ** Facts about reals *)

Lemma PI_gt_3 : 3 < PI.
Proof. pose proof PI2_3_2. lra. Qed.

Lemma sin_pos_small x : 0 < x -> x < 3 -> 0 < sin x.
Proof. intros. apply sin_gt_0; [lra|]. pose proof PI_gt_3. lra. Qed.

Lemma floor_IZR z : JS.floor (IZR z) = z.
Proof. unfold JS.floor. symmetry. apply Int_part_spec. lra. Qed.

Lemma floor_between x z : IZR z <= x < IZR z + 1 -> JS.floor x = z.
Proof. intros H. unfold JS.floor. symmetry. apply Int_part_spec. lra. Qed.

Lemma log2_2 : JS.log2 2 = 1.
Proof. unfold JS.log2. pose proof ln_lt_2. field. lra. Qed.

Lemma clamp_inside x a b : a <= x <= b -> JS.clamp x a b = x.
Proof.
  intros H. unfold JS.clamp. rewrite Rmin_right, Rmax_right; lra.
Qed.

Lemma map_scale_zero g n :
  List.map (fun x => x * g) (replicate n 0) = replicate n 0.
Proof. induction n; cbn; [reflexivity|]. rewrite IHn. f_equal. lra. Qed.

(** ** The switch *)

Lemma switch_case_default id :
  id ∉ recognized_ids -> switch_case id = CaseDefault.
Proof.
  intros H. unfold switch_case.
  destruct (List.find _ _) as [c|] eqn:E; [|reflexivity].
  apply find_some in E as [Hin Heq]. exfalso. apply H.
  apply String.eqb_eq in Heq. subst id.
  apply list_elem_of_In. apply in_map. exact Hin.
Qed.

Section Host.

Variable Math_random : nat -> R.

(** ** What one iteration leaves alone *)

Lemma initKS_frame force s :
  let s' := initKS Math_random force s in
  formula s' = formula s /\ sr s' = sr s /\ p s' = p s.
Proof. unfold initKS. destruct (_ && _); cbn; auto. Qed.

Lemma sample_frame i s l :
  let s' := (sample Math_random i s l).1.2 in
  formula s' = formula s /\ sr s' = sr s /\ p s' = p s.
Proof.
  unfold sample.
  destruct (switch_case (formula s)); cbn; auto.
  - destruct (initKS_frame false s) as (? & ? & ?). auto.
  - destruct (Rge_dec _ _); cbn; auto.
  - destruct (fold_left _ _ _); cbn; auto.
Qed.

Lemma loop_frame n : forall i s l,
  let s' := (loop Math_random n i s l).1.2 in
  formula s' = formula s /\ sr s' = sr s /\ p s' = p s.
Proof.
  induction n as [|n IH]; intros i s l; cbn; [auto|].
  pose proof (sample_frame i s l) as Hs.
  destruct (sample Math_random i s l) as [[x s1] l1]. cbn in Hs.
  specialize (IH (S i) s1 (advance (sr s1) l1)).
  destruct (loop Math_random n (S i) s1 _) as [[ys s2] l2]. cbn in *.
  destruct Hs as (Hf & Hr & Hp), IH as (Hf' & Hr' & Hp').
  repeat split; congruence.
Qed.

(** ** The three components of [process] *)

Lemma process_out s n :
  (process Math_random s n).1.1
  = (loop Math_random n 0 s (read_locals s)).1.1.
Proof.
  unfold process. destruct (loop _ _ _ _ _) as [[out s'] l']. reflexivity.
Qed.

Lemma process_state s n :
  (process Math_random s n).1.2
  = write_back (loop Math_random n 0 s (read_locals s)).1.2
      (loop Math_random n 0 s (read_locals s)).2.
Proof.
  unfold process. destruct (loop _ _ _ _ _) as [[out s'] l']. reflexivity.
Qed.

Lemma process_alive s n : (process Math_random s n).2 = true.
Proof.
  unfold process. destruct (loop _ _ _ _ _) as [[out s'] l']. reflexivity.
Qed.

Lemma process_frame s n :
  let s' := (process Math_random s n).1.2 in
  formula s' = formula s /\ sr s' = sr s /\ p s' = p s.
Proof.
  cbn. rewrite process_state. cbn.
  apply (loop_frame n 0 s (read_locals s)).
Qed.

(** ** The store [ch0[i] = x * (p.gain ?? 0.2)] *)

Lemma raw_samples_S n i s l :
  raw_samples Math_random (S n) i s l
  = let '(x, s1, l1) := sample Math_random i s l in
    x :: raw_samples Math_random n (S i) s1 (advance (sr s1) l1).
Proof. reflexivity. Qed.

(** Every stored sample is the value [x] of its iteration times the gain. *)
Lemma loop_scaled n : forall i s l,
  (loop Math_random n i s l).1.1
  = List.map (fun x => x * gain_or_default (p s))
      (raw_samples Math_random n i s l).
Proof.
  induction n as [|n IH]; intros i s l; cbn; [reflexivity|].
  pose proof (sample_frame i s l) as Hs.
  destruct (sample Math_random i s l) as [[x s1] l1]. cbn in Hs.
  specialize (IH (S i) s1 (advance (sr s1) l1)).
  destruct (loop Math_random n (S i) s1 _) as [[ys s2] l2]. cbn in *.
  destruct Hs as (_ & _ & Hp). rewrite IH, Hp. reflexivity.
Qed.

(** ** The arms used below *)

Lemma sample_default i s l :
  switch_case (formula s) = CaseDefault ->
  sample Math_random i s l = (0, s, l).
Proof. intros H. unfold sample. rewrite H. reflexivity. Qed.

Lemma sample_fm i s l :
  switch_case (formula s) = CaseFm ->
  sample Math_random i s l
  = (sin (twoPi * param (p s) "fc" * l_t l
          + param (p s) "I" * sin (twoPi * param (p s) "fm" * l_t l)), s, l).
Proof. intros H. unfold sample. rewrite H. reflexivity. Qed.

Lemma sample_additive i s l :
  switch_case (formula s) = CaseAdditive ->
  sample Math_random i s l = (additive_sample (p s) (l_t l), s, l).
Proof. intros H. unfold sample. rewrite H. reflexivity. Qed.

Lemma sample_logistic i s l :
  switch_case (formula s) = CaseLogistic ->
  (sample Math_random i s l).1.2 = s
  /\ l_logi (sample Math_random i s l).2
     = if (Z.rem (Z.of_nat i)
             (logistic_step (sr s) (param (p s) "lfoHz")) =? 0)%Z
       then logistic_update (param (p s) "r") (l_logi l)
       else l_logi l.
Proof. intros H. unfold sample. rewrite H. cbn. auto. Qed.

(** ** The default arm *)

Lemma raw_default n : forall i s l,
  switch_case (formula s) = CaseDefault ->
  raw_samples Math_random n i s l = replicate n 0.
Proof.
  induction n as [|n IH]; intros i s l H; [reflexivity|].
  rewrite raw_samples_S, (sample_default _ _ _ H). cbn. f_equal.
  apply IH, H.
Qed.

Lemma silent_when_default s n :
  switch_case (formula s) = CaseDefault ->
  (process Math_random s n).1.1 = replicate n 0.
Proof.
  intros H. rewrite process_out, loop_scaled, raw_default by exact H.
  apply map_scale_zero.
Qed.

(** C1 (as the code behaves): the switch has no arm for ['am'], so a
    generator built for this id with the default parameters at 44.1 kHz
    computes 128 zeros in its first block, before and after the gain,
    although the product of the two sinusoids at [f1 = 220] and [f2 = 221]
    is positive at the time of the second sample, [t = 1 / 44100]. *)
Theorem am_formula_is_silent :
  let s := constructor Math_random (Some "am"%string) ∅ 44100 0 in
  raw_samples Math_random 128 0 s (read_locals s) = replicate 128 0
  /\ (process Math_random s 128).1.1 = replicate 128 0
  /\ 0 < am_as_claimed (p s) (0 + 1 / 44100).
Proof.
  intros s. split; [|split].
  - apply raw_default. reflexivity.
  - apply silent_when_default. reflexivity.
  - unfold am_as_claimed.
    change (param (p s) "f1") with 220. change (param (p s) "f2") with 221.
    pose proof PI_gt_3. pose proof PI_4.
    apply Rmult_lt_0_compat; apply sin_pos_small; unfold twoPi; nra.
Qed.

(** C8: for a formula id that has no arm in the switch, every sample
    stored by [process] is exactly zero, whatever the state, the parameters
    and the block length, and [process] returns [true]. *)
Theorem unknown_formula_is_silent s n :
  formula s ∉ recognized_ids ->
  (process Math_random s n).1.1 = replicate n 0
  /\ (process Math_random s n).2 = true.
Proof.
  intros H. split; [|apply process_alive].
  apply silent_when_default, switch_case_default, H.
Qed.

(** C2 (amended): whatever the formula id and the parameters, every sample
    the generator stores is the value of the formula multiplied by the
    generator's own gain ([0.2] when the parameter is undefined); and
    [enableFormula] drives the mixer's gain node of the generator to that
    same gain when it enables it, to 0 when it disables it. *)
Theorem generator_output_is_gain_scaled s n gens id gen enabled :
  (process Math_random s n).1.1
  = List.map (fun x => x * gain_or_default (p s))
      (raw_samples Math_random n 0 s (read_locals s))
  /\ AudioEngine.generators
       (AudioEngine.enableFormula
          (AudioEngine.mkAudioEngine true (<[id := gen]> gens)) id enabled)
     !! id
     = Some (AudioEngine.mkGeneratorNode (AudioEngine.worklet gen)
               (if enabled
                then default 0.2 (AudioEngine.params gen !! "gain")
                else 0)
               (AudioEngine.params gen)).
Proof.
  split.
  - rewrite process_out. apply loop_scaled.
  - unfold AudioEngine.enableFormula. cbn.
    rewrite lookup_insert_eq. cbn. rewrite lookup_insert_eq. reflexivity.
Qed.

(** ** The logistic arm *)

Lemma advance_logi srate l : l_logi (advance srate l) = l_logi l.
Proof. unfold advance. destruct (Rgt_dec _ _); reflexivity. Qed.

Lemma loop_logistic n : forall i s l,
  switch_case (formula s) = CaseLogistic ->
  l_logi (loop Math_random n i s l).2
  = logistic_run (logistic_step (sr s) (param (p s) "lfoHz"))
      (param (p s) "r") n i (l_logi l).
Proof.
  induction n as [|n IH]; intros i s l H; [reflexivity|].
  cbn [loop logistic_run].
  destruct (sample_logistic i s l H) as [Hs Hl].
  destruct (sample Math_random i s l) as [[x s1] l1]. cbn in Hs, Hl.
  subst s1.
  specialize (IH (S i) s (advance (sr s) l1) H).
  destruct (loop Math_random n (S i) s _) as [[ys s2] l2]. cbn in *.
  rewrite IH, advance_logi, Hl. reflexivity.
Qed.

Lemma logistic_run_idle step r n : forall i x,
  (0 < i)%nat -> (Z.of_nat (i + n) <= step)%Z ->
  logistic_run step r n i x = x.
Proof.
  induction n as [|n IH]; intros i x Hi Hle; [reflexivity|].
  cbn [logistic_run].
  rewrite Z.rem_small by lia.
  destruct (Z.eqb_spec (Z.of_nat i) 0); [lia|].
  apply IH; lia.
Qed.

Lemma logistic_run_block step r n x :
  (0 < n)%nat -> (Z.of_nat n <= step)%Z ->
  logistic_run step r n 0 x = logistic_update r x.
Proof.
  intros Hn Hle. destruct n as [|n]; [lia|].
  cbn [logistic_run]. rewrite Z.rem_0_l by lia. cbn [Z.eqb Z.of_nat].
  apply logistic_run_idle; lia.
Qed.

(** In a block that is not longer than the update period, the recurrence
    is applied exactly once, at the first sample of the block. *)
Lemma logistic_once_per_block s n :
  switch_case (formula s) = CaseLogistic ->
  (0 < n)%nat ->
  (Z.of_nat n <= logistic_step (sr s) (param (p s) "lfoHz"))%Z ->
  logi (process Math_random s n).1.2
  = logistic_update (param (p s) "r") (logi s).
Proof.
  intros H Hn Hle. rewrite process_state. cbn [write_back set_locals logi].
  rewrite loop_logistic by exact H.
  apply logistic_run_block; assumption.
Qed.

Lemma logistic_step_default : logistic_step 44100 40 = 1102%Z.
Proof.
  unfold logistic_step. rewrite Rmax_right by lra.
  rewrite (floor_between _ 1102); [reflexivity|lra].
Qed.

(** C3 (as the code behaves): with the default parameters at 44.1 kHz the
    update period is 1102 samples, yet after two blocks of 128 frames (256
    samples) the recurrence has been applied twice, once at the start of
    each block, and the second application changes the value: the test [i %
    step === 0] is on the index within the block. *)
Theorem logistic_updates_at_every_block_start :
  let s0 := constructor Math_random (Some "logistic"%string) ∅ 44100 0 in
  let s1 := (process Math_random s0 128).1.2 in
  let s2 := (process Math_random s1 128).1.2 in
  logistic_step (sr s0) (param (p s0) "lfoHz") = 1102%Z
  /\ logi s1 = logistic_update 3.86 0.33
  /\ logi s2 = logistic_update 3.86 (logistic_update 3.86 0.33)
  /\ logi s2 <> logi s1.
Proof.
  intros s0 s1 s2.
  assert (H0 : logistic_step (sr s0) (param (p s0) "lfoHz") = 1102%Z)
    by apply logistic_step_default.
  destruct (process_frame s0 128) as (Hf & Hr & Hp). fold s1 in Hf, Hr, Hp.
  assert (H1 : logi s1 = logistic_update 3.86 0.33).
  { unfold s1. rewrite logistic_once_per_block; [reflexivity|reflexivity|lia|].
    rewrite H0. lia. }
  assert (H2 : logi s2 = logistic_update 3.86 (logi s1)).
  { unfold s2. rewrite logistic_once_per_block.
    - rewrite Hp. reflexivity.
    - rewrite Hf. reflexivity.
    - lia.
    - rewrite Hr, Hp, H0. lia. }
  rewrite H2, H1. repeat split; try assumption.
  unfold logistic_update.
  rewrite (clamp_inside (3.86 * 0.33 * (1 - 0.33))) by lra.
  rewrite clamp_inside by lra. lra.
Qed.

(** ** The additive arm *)

Lemma fold_additive fund move t n :
  fold_left (additive_term fund move t) (seq 1 n) 0
  = sum_harmonics
      (fun k => 1 / INR k * sin (twoPi * move * t + INR k)
                * sin (twoPi * INR k * fund * t)) n.
Proof.
  induction n as [|n IH]; [reflexivity|].
  rewrite seq_S, fold_left_app, IH. cbn [fold_left sum_harmonics Nat.add].
  unfold additive_term. f_equal. f_equal. f_equal. ring.
Qed.

Lemma additive_N_pos x : (1 <= additive_N x)%Z.
Proof. unfold additive_N. lia. Qed.

Lemma additive_sample_coded q t :
  additive_sample q t = additive_as_coded q t.
Proof.
  unfold additive_sample, additive_as_coded, additive_harmonics.
  rewrite fold_additive.
  pose proof (additive_N_pos (param q "N")).
  rewrite INR_IZR_INZ, Z2Nat.id by lia. reflexivity.
Qed.

(** C7 (amended): for the formula id ['additive'], the value of a sample
    before the gain is the sum over the harmonics [k = 1..N] of [(1/k) *
    sin(2 PI * move * t + k) * sin(2 PI * k * fund * t)], multiplied by
    [1 / log2(N + 1)], where [N = max(1, floor(p.N))] and [t] is the engine
    time. *)
Theorem additive_sample_formula i s l :
  formula s = "additive"%string ->
  (sample Math_random i s l).1.1 = additive_as_coded (p s) (l_t l).
Proof.
  intros H. rewrite sample_additive by (rewrite H; reflexivity).
  apply additive_sample_coded.
Qed.

(** ** Messages *)

(** C9: after a ['reset'] message the Lorenz coordinates are [0.1, 0, 0]
    and the Rossler coordinates are [0.1, 0, 0], whatever the state
    before. *)
Theorem reset_restores_attractor_origin s :
  let s' := onmessage Math_random s MsgReset in
  lx s' = 0.1 /\ ly s' = 0 /\ lz s' = 0
  /\ rx s' = 0.1 /\ ry s' = 0 /\ rz s' = 0.
Proof. cbn. repeat split. Qed.

(** C10: a ['set'] message merges the given parameters into the parameter
    object (a given key takes the given value, every other key keeps its
    value) and leaves every other field of the processor as it was: the
    engine time, the phase accumulator, the logistic value, the Lorenz and
    Rossler coordinates, the noise accumulators, the velvet counters, the
    Shepard phases and the Karplus-Strong buffer and indices. *)
Theorem set_message_only_merges_params s params :
  let s' := onmessage Math_random s (MsgSet params) in
  (forall key,
     p s' !! key
     = match params !! key with Some v => Some v | None => p s !! key end)
  /\ t s' = t s /\ phase s' = phase s /\ logi s' = logi s
  /\ (lx s', ly s', lz s') = (lx s, ly s, lz s)
  /\ (rx s', ry s', rz s') = (rx s, ry s, rz s)
  /\ nlp s' = nlp s
  /\ (pinkB0 s', pinkB1 s', pinkB2 s', pinkB3 s', pinkB4 s', pinkB5 s',
      pinkB6 s')
     = (pinkB0 s, pinkB1 s, pinkB2 s, pinkB3 s, pinkB4 s, pinkB5 s, pinkB6 s)
  /\ brownVal s' = brownVal s
  /\ (velvetCounter s', velvetNext s') = (velvetCounter s, velvetNext s)
  /\ (shepardPhases s', shepardT s') = (shepardPhases s, shepardT s)
  /\ (ksBuf s', ksIdx s', ksN s') = (ksBuf s, ksIdx s, ksN s)
  /\ (formula s', sr s', rng s') = (formula s, sr s, rng s).
Proof.
  cbn. split; [|repeat split].
  intros key. rewrite lookup_union.
  destruct (params !! key), (p s !! key); reflexivity.
Qed.

(** ** The parameter object always holds the declared keys *)

Lemma declared_keys_present_constructor o_formula o_params sr0 rng0 key :
  is_Some (default_params !! key) ->
  is_Some (p (constructor Math_random o_formula o_params sr0 rng0) !! key).
Proof.
  intros [v Hv].
  change (p (constructor Math_random o_formula o_params sr0 rng0))
    with (o_params ∪ default_params).
  rewrite lookup_union, Hv. destruct (o_params !! key); cbn; eauto.
Qed.

Lemma declared_keys_present_onmessage s msg key :
  is_Some (p s !! key) -> is_Some (p (onmessage Math_random s msg) !! key).
Proof.
  intros [v Hv]. destruct msg as [params|]; cbn; [|eauto].
  rewrite lookup_union, Hv. destruct (params !! key); cbn; eauto.
Qed.

Lemma declared_keys_present_process s n key :
  is_Some (p s !! key) ->
  is_Some (p (process Math_random s n).1.2 !! key).
Proof.
  destruct (process_frame s n) as (_ & _ & ->). auto.
Qed.

End Host.

(** ** Concrete runs *)

Lemma advance_fresh srate :
  advance srate (mkLocals 0 0 0.33 0.1 0 0 0)
  = mkLocals 0 (0 + 1 / srate) 0.33 0.1 0 0 0.
Proof.
  unfold advance. cbn. destruct (Rgt_dec _ _) as [H|H]; [lra|reflexivity].
Qed.

(** The first sample of the generator built for ['fm'] with the default
    parameters is [0.2 * sin 0 = 0]. *)
Example fm_first_sample :
  let s := constructor JS.zero_random (Some "fm"%string) ∅ 44100 0 in
  (process JS.zero_random s 1).1.1 = [ 0 ].
Proof.
  intros s. rewrite process_out, loop_scaled.
  rewrite raw_samples_S, sample_fm by reflexivity. lazy beta iota.
  change (l_t (read_locals s)) with 0. cbn [raw_samples List.map].
  rewrite !Rmult_0_r, sin_0, Rmult_0_r, Rplus_0_l, sin_0, Rmult_0_l.
  reflexivity.
Qed.

(** C2 (counterexample): the generator built for ['fm'] with the default
    parameters at 44.1 kHz does not store the values of the formula: its
    second sample is the positive value of the formula times [0.2]. *)
Lemma generator_output_depends_on_gain :
  let s := constructor JS.zero_random (Some "fm"%string) ∅ 44100 0 in
  (process JS.zero_random s 2).1.1
  <> raw_samples JS.zero_random 2 0 s (read_locals s).
Proof.
  intros s. rewrite process_out, loop_scaled.
  change (gain_or_default (p s)) with 0.2.
  rewrite raw_samples_S, sample_fm by reflexivity. lazy beta iota.
  change (sr s) with 44100.
  change (read_locals s) with (mkLocals 0 0 0.33 0.1 0 0 0).
  rewrite advance_fresh.
  rewrite raw_samples_S, sample_fm by reflexivity. lazy beta iota.
  cbn [List.map l_t].
  change (param (p s) "fc") with 220. change (param (p s) "fm") with 2.
  change (param (p s) "I") with 2.
  set (t1 := 0 + 1 / 44100).
  intros E. injection E as _ E.
  assert (Ht1 : 0 < t1 < 1 / 44000) by (unfold t1; lra).
  pose proof PI_gt_3. pose proof PI_4.
  assert (Hpt : 0 < PI * t1 < 1 / 11000) by nra.
  assert (Hin : 0 < sin (twoPi * 2 * t1)).
  { apply sin_pos_small; unfold twoPi; nra. }
  pose proof (SIN_bound (twoPi * 2 * t1)) as [_ Hle].
  assert (Hx : 0 < sin (twoPi * 220 * t1 + 2 * sin (twoPi * 2 * t1))).
  { apply sin_gt_0; unfold twoPi in *; nra. }
  lra.
Qed.

(** C7 (counterexample): with one harmonic, [move = 5] and [fund = 110] at
    48 kHz, the second sample of the generator differs from the formula
    whose amplitude phase is [move * t + k]. *)
Lemma additive_move_is_scaled_by_two_pi :
  let s := additive_example in
  let l := advance (sr s) (read_locals s) in
  (sample JS.zero_random 1 s l).1.1 <> additive_as_claimed (p s) (l_t l).
Proof.
  intros s l.
  rewrite sample_additive, additive_sample_coded by reflexivity.
  cbn [fst].
  assert (Hl : l = mkLocals 0 (0 + 1 / 48000) 0.33 0.1 0 0 0).
  { subst l. apply advance_fresh. }
  rewrite Hl. cbn [l_t].
  unfold additive_as_coded, additive_as_claimed, additive_harmonics.
  change (param (p s) "N") with 1.
  change (param (p s) "move") with 5.
  change (param (p s) "fund") with 110.
  unfold additive_N. rewrite (floor_IZR 1).
  change (Z.to_nat (1 `max` 1)) with 1%nat.
  cbn [sum_harmonics INR].
  replace (1 + 1) with 2 by lra. rewrite log2_2.
  set (t1 := 0 + 1 / 48000).
  assert (Ht1 : 0 < t1 < 1 / 40000) by (unfold t1; lra).
  pose proof PI_gt_3 as Hpi3. pose proof PI_4 as Hpi4. pose proof PI2_3_2.
  assert (HC : 0 < sin (twoPi * 1 * 110 * t1)).
  { apply sin_pos_small; unfold twoPi; nra. }
  assert (HAB : sin (5 * t1 + 1) < sin (twoPi * 5 * t1 + 1)).
  { apply sin_increasing_1; unfold twoPi; nra. }
  intros E. nra.
Qed.

Lemma additive_sample_formula_witness :
  formula additive_example = "additive"%string
  /\ (sample JS.zero_random 1 additive_example
        (read_locals additive_example)).1.1
     = additive_as_coded (p additive_example)
         (l_t (read_locals additive_example)).
Proof.
  split; [reflexivity|].
  apply (additive_sample_formula JS.zero_random 1 additive_example).
  reflexivity.
Defined.

Lemma unknown_formula_is_silent_witness :
  (formula bitcrush_example ∉ recognized_ids)
  /\ (process JS.zero_random bitcrush_example 128).1.1 = replicate 128 0
  /\ (process JS.zero_random bitcrush_example 128).2 = true.
Proof.
  assert (H : formula bitcrush_example ∉ recognized_ids).
  { change (formula bitcrush_example) with "bitcrush"%string.
    rewrite list_elem_of_In. cbn. intuition discriminate. }
  split; [exact H|].
  apply (unknown_formula_is_silent JS.zero_random bitcrush_example 128 H).
Defined.

End WorkletTheory.

(** * Properties of the effects chain *)

Module ChainTheory.

Import EffectsChain.

#[local] Close Scope R_scope.

(** ** The calls of a rebuild *)

(** The checks hold for each of the 64 choices of flags. *)
Lemma calls_ok state : calls_okb state = true.
Proof.
  destruct state as [f ? ? ? c ? ? ? ? ? r ? ? l ? ? d ? ? ? p ? ? ? ? ?].
  destruct f, c, r, l, d, p; vm_compute; reflexivity.
Qed.

Lemma wired_ok state : wired_okb state = true.
Proof.
  destruct state as [f ? ? ? c ? ? ? ? ? r ? ? l ? ? d ? ? ? p ? ? ? ? ?].
  destruct f, c, r, l, d, p; vm_compute; reflexivity.
Qed.

(** The calls made when [k] gain nodes exist are those made when none
    exists, with the sum nodes renamed. *)
Lemma calls_shift state k :
  rebuild_calls state k
  = (List.map (shift_edge k) (rebuild_calls state 0).1,
     ((rebuild_calls state 0).2 + k)%nat).
Proof.
  destruct state as [f ? ? ? c ? ? ? ? ? r ? ? l ? ? d ? ? ? p ? ? ? ? ?].
  destruct f, c, r, l, d, p; reflexivity.
Qed.

(** Membership in the connections after [connect] and [disconnect]. *)
Lemma elem_of_connect e e' g : e ∈ connect e' g <-> e = e' \/ e ∈ g.
Proof.
  unfold connect. destruct (decide (e' ∈ g)) as [Hin|Hin].
  - split; [auto|]. intros [->|H]; assumption.
  - rewrite elem_of_app, list_elem_of_singleton. tauto.
Qed.

Lemma elem_of_connect_all calls : forall e g,
  e ∈ connect_all calls g <-> e ∈ calls \/ e ∈ g.
Proof.
  induction calls as [|e' calls IH]; intros e g; cbn.
  - rewrite elem_of_nil. tauto.
  - unfold connect_all in IH. rewrite IH, elem_of_connect, elem_of_cons.
    tauto.
Qed.

Lemma elem_of_disconnect e a g : e ∈ disconnect a g <-> e ∈ g /\ e.1 <> a.
Proof.
  unfold disconnect. rewrite !list_elem_of_In, filter_In.
  rewrite negb_true_iff, bool_decide_eq_false. reflexivity.
Qed.

Lemma elem_of_disconnect_list nodes : forall e g,
  e ∈ fold_left (fun g a => disconnect a g) nodes g
  <-> e ∈ g /\ e.1 ∉ nodes.
Proof.
  induction nodes as [|a nodes IH]; intros e g; cbn.
  - rewrite elem_of_nil. tauto.
  - rewrite IH, elem_of_disconnect, not_elem_of_cons. tauto.
Qed.

Lemma plan_of_through g0 calls out w pl :
  plan_of g0 w pl ->
  plan_of g0 (wire_through calls out w) (plan_through calls out pl).
Proof.
  intros (He & Hc & Hn). unfold plan_of, wire_through, plan_through. cbn.
  unfold connect_all in *. rewrite fold_left_app, He, Hn, Hc. auto.
Qed.

Lemma plan_of_mixed g0 s calls w pl :
  plan_of g0 w pl ->
  plan_of g0 (wire_mixed s calls w) (plan_mixed s calls pl).
Proof.
  intros (He & Hc & Hn). unfold plan_of, wire_mixed, plan_mixed. cbn.
  unfold connect_all in *. rewrite fold_left_app, He, Hn, Hc. auto.
Qed.

Lemma plan_of_if g0 (b : bool) f f' w pl :
  (forall w pl, plan_of g0 w pl -> plan_of g0 (f w) (f' pl)) ->
  plan_of g0 w pl ->
  plan_of g0 (if b then f w else w) (if b then f' pl else pl).
Proof. destruct b; auto. Qed.

(** [rebuild] makes the recorded calls on what [disconnectAll] leaves. *)
Lemma rebuild_connections state c :
  allFilters c = the_filters ->
  connections (rebuild state c)
  = connect_all (rebuild_calls state (created c)).1 (disconnectAll c)
  /\ created (rebuild state c) = (rebuild_calls state (created c)).2.
Proof.
  intros Hfs. unfold rebuild, rebuild_calls. rewrite Hfs.
  cbn [connections created fst snd].
  match goal with
  | |- context [connect _ (w_edges ?w)] =>
      match goal with
      | |- context [w_edges ?pl ++ _] =>
          assert (H : plan_of (disconnectAll c) w pl)
      end
  end.
  { repeat (apply plan_of_if;
            [intros; first [apply plan_of_through | apply plan_of_mixed];
             assumption|]).
    repeat split. }
  destruct H as (He & Hc & Hn). rewrite He, Hn, Hc.
  unfold connect_all. rewrite fold_left_app. auto.
Qed.

Lemma position_shift k n : position (shift k n) = position n.
Proof. destruct n; reflexivity. Qed.

Lemma node_okb_shift m k n :
  node_okb m n = true -> node_okb (m + k) (shift k n) = true.
Proof.
  destruct n; cbn; auto.
  rewrite !bool_decide_eq_true. lia.
Qed.

Lemma shift_sum_fresh k n s id : shift k n = SumGain s id -> (k <= id)%nat.
Proof. destruct n; cbn; try discriminate. intros [= _ <-]. lia. Qed.

(** What [disconnectAll] leaves are connections out of the sum nodes of
    earlier rebuilds: every other node is disconnected. *)
Lemma survivor c e :
  settled c -> e ∈ disconnectAll c ->
  exists s id, e.1 = SumGain s id /\ (id < created c)%nat.
Proof.
  intros [Hfs Hok] He. unfold disconnectAll in He.
  apply elem_of_disconnect_list in He as [Hin Hout].
  specialize (Hok e Hin). unfold disconnected in Hout. rewrite Hfs in Hout.
  destruct (e.1) as [| | | | | | | | |i| | | | | | | | | | | |s id] eqn:E;
    try (exfalso; apply Hout; apply list_elem_of_In; cbn; tauto).
  - exfalso. apply Hout. cbn in Hok. apply bool_decide_eq_true in Hok.
    unfold Phaser.MAX_STAGES in Hok.
    apply list_elem_of_In. cbn.
    do 8 (destruct i as [|i]; [tauto|]). lia.
  - exists s, id. cbn in Hok. apply bool_decide_eq_true in Hok. auto.
Qed.

Lemma adjacentb_spec x y l : adjacentb x y l = true -> adjacent x y l.
Proof.
  induction l as [|a [|b l] IH]; cbn; try discriminate.
  rewrite orb_true_iff, andb_true_iff, !bool_decide_eq_true.
  intros [[-> ->]|H].
  - exists [], l. reflexivity.
  - destruct (IH H) as (l1 & l2 & E). exists (a :: l1), l2.
    cbn. rewrite <- E. reflexivity.
Qed.

Lemma adjacent_pairs {A} (x y : A) l : adjacent x y l -> (x, y) ∈ pairs l.
Proof.
  intros (l1 & l2 & ->). induction l1 as [|a l1 IH]; cbn.
  - apply list_elem_of_here.
  - destruct (l1 ++ x :: y :: l2) eqn:E.
    + destruct l1; discriminate.
    + apply list_elem_of_further, IH.
Qed.

Lemma adjacent_NoDup {A} (x y : A) l : NoDup l -> adjacent x y l -> x <> y.
Proof.
  intros Hnd (l1 & l2 & ->) ->.
  apply NoDup_app in Hnd as (_ & _ & Hnd).
  apply NoDup_cons in Hnd as [Hnotin _]. apply Hnotin, list_elem_of_here.
Qed.

(** When the calls come in the order of the signal and are all in the
    graph, the input feeds both ends of each of them. *)
Lemma flow_reach g k calls : forall seen,
  flowb seen calls = true ->
  (forall n, n ∈ seen -> reach g (shift k n)) ->
  (forall e, e ∈ calls -> shift_edge k e ∈ g) ->
  forall e, e ∈ calls -> reach g (shift k e.1) /\ reach g (shift k e.2).
Proof.
  induction calls as [|[a b] calls IH]; intros seen Hflow Hseen Hin e He.
  - apply elem_of_nil in He as [].
  - cbn in Hflow. apply andb_true_iff in Hflow as [Ha Hrest].
    apply bool_decide_eq_true in Ha.
    assert (Hra : reach g (shift k a)) by auto.
    assert (Hrb : reach g (shift k b)).
    { eapply reach_step; [exact Hra|].
      apply (Hin (a, b)), list_elem_of_here. }
    apply elem_of_cons in He as [->|He]; [auto|].
    apply (IH (b :: seen)); auto.
    + intros n Hn. apply elem_of_cons in Hn as [->|Hn]; auto.
    + intros e' He'. apply Hin, list_elem_of_further, He'.
Qed.

(** The nodes of a stage are at the stage and are no sum nodes. *)
Lemma stage_nodes_position s n :
  n ∈ stage_nodes s -> position n = AtStage s /\ forall k, shift k n = n.
Proof.
  rewrite list_elem_of_In.
  destruct s; cbn; intuition (subst; auto).
Qed.

(** A node at a stage that exists is one of the nodes of the stage. *)
Lemma own_node_listed m n s :
  position n = AtStage s -> node_okb m n = true -> n ∈ stage_nodes s.
Proof.
  intros E H. rewrite list_elem_of_In.
  destruct n; cbn in E; try discriminate E; injection E as <-;
    try (cbn; tauto).
  cbn in H. apply bool_decide_eq_true in H. unfold Phaser.MAX_STAGES in H.
  cbn. do 8 (destruct i as [|i]; [tauto|]). lia.
Qed.

Lemma filter_listed i :
  phaser_filter i ∈ stage_nodes PhaserStage <-> i < 8.
Proof.
  rewrite list_elem_of_In. split.
  - cbn. intros H.
    repeat (destruct H as [H|H]; [first [discriminate H|injection H as <-; lia]|]).
    contradiction.
  - intros H. cbn. do 8 (destruct i as [|i]; [tauto|]). lia.
Qed.

Lemma phaser_chain_fixed k e : e ∈ phaser_chain -> shift_edge k e = e.
Proof.
  rewrite list_elem_of_In. cbn. intuition (subst; reflexivity).
Qed.

Lemma feeds_shift g k calls a b :
  (forall e, e ∈ calls -> shift_edge k e ∈ g) ->
  feeds calls a b -> feeds g (shift k a) (shift k b).
Proof.
  intros Hin H. induction H as [a|a b c Hab _ IH]; [constructor|].
  eapply feeds_step; [apply (Hin (a, b)), Hab|exact IH].
Qed.

(** The signal of every node [drain] finds arrives at the output. *)
Lemma drain_pass_sound g calls : forall seen,
  (forall e, e ∈ calls -> e ∈ g) ->
  (forall m, m ∈ seen -> feeds g m outputNode) ->
  forall n, n ∈ drain_pass calls seen -> feeds g n outputNode.
Proof.
  induction calls as [|[a b] calls IH]; intros seen Hsub Hseen n Hn;
    [auto|].
  assert (Hrest : forall m, m ∈ drain_pass calls seen ->
                               feeds g m outputNode).
  { apply IH; [|exact Hseen].
    intros e He. apply Hsub, list_elem_of_further, He. }
  change (drain_pass ((a, b) :: calls) seen)
    with (if bool_decide (b ∈ drain_pass calls seen)
          then a :: drain_pass calls seen
          else drain_pass calls seen) in Hn.
  destruct (bool_decide (b ∈ drain_pass calls seen)) eqn:E; [|auto].
  apply bool_decide_eq_true in E.
  apply elem_of_cons in Hn as [->|Hn]; [|auto].
  eapply feeds_step; [apply Hsub, list_elem_of_here|auto].
Qed.

Lemma drain_sound calls n : n ∈ drain calls -> feeds calls n outputNode.
Proof.
  apply drain_pass_sound; [auto|].
  apply drain_pass_sound; [auto|].
  intros m Hm. apply list_elem_of_singleton in Hm as ->. constructor.
Qed.

Section Rebuild.

Variable state : EffectsState.
Variable c : t.
Hypothesis Hc : settled c.

Let k := created c.
Let W0 := (rebuild_calls state 0).1.
Let m0 := (rebuild_calls state 0).2.
Let G := connections (rebuild state c).

(** The connections after the rebuild: the renamed calls, and what was
    left of the old connections. *)
Lemma rebuilt_edges e :
  e ∈ G <-> (exists e0, e0 ∈ W0 /\ e = shift_edge k e0) \/ e ∈ disconnectAll c.
Proof.
  unfold G. destruct (rebuild_connections state c (proj1 Hc)) as [-> _].
  rewrite calls_shift. cbn [fst].
  rewrite elem_of_connect_all, list_elem_of_fmap.
  split; (intros [(e0 & H1 & H2)|H]; [left; exists e0|right]); auto.
Qed.

Lemma rebuilt_created : created (rebuild state c) = (m0 + k)%nat.
Proof.
  destruct (rebuild_connections state c (proj1 Hc)) as [_ ->].
  rewrite calls_shift. reflexivity.
Qed.

Lemma checks :
  flowb [ inputNode ] W0 = true
  /\ forallb (link_okb (series_path state)) W0 = true
  /\ forallb (has_linkb W0) (pairs (series_path state)) = true
  /\ forallb (fun e => node_okb m0 e.1 && node_okb m0 e.2) W0 = true
  /\ forallb (fun s => bool_decide (on_pathb W0 s = enabled state s))
       stage_order = true
  /\ NoDup (series_path state).
Proof.
  pose proof (calls_ok state) as H. unfold calls_okb in H.
  unfold W0, m0. destruct (rebuild_calls state 0) as [calls m]. cbn [fst snd].
  repeat (apply andb_true_iff in H as [H ?]).
  repeat split; try assumption.
  eapply bool_decide_eq_true; eassumption.
Qed.

(** The input feeds only nodes that a call of this rebuild enters: the
    sum nodes of earlier rebuilds have lost their inputs. *)
Lemma reach_live n :
  reach G n -> n = inputNode \/ exists e0, e0 ∈ W0 /\ n = shift k e0.2.
Proof.
  intros H. induction H as [|a b Ha IH Hab]; [auto|].
  right. apply rebuilt_edges in Hab as [(e0 & H0 & E)|Hs].
  - exists e0. split; [assumption|]. injection E as _ ->. reflexivity.
  - exfalso. destruct (survivor c _ Hc Hs) as (s & id & E & Hlt).
    cbn in E. destruct IH as [->|(e0 & _ & ->)]; [discriminate|].
    apply shift_sum_fresh in E. unfold k in E. lia.
Qed.

Lemma live_reach e0 :
  e0 ∈ W0 -> reach G (shift k e0.1) /\ reach G (shift k e0.2).
Proof.
  destruct checks as (Hflow & _).
  apply (flow_reach G k W0 [ inputNode ] Hflow).
  - intros n Hn. apply list_elem_of_singleton in Hn as ->. constructor.
  - intros e He. apply rebuilt_edges. left. exists e. auto.
Qed.

Lemma reached_edge a b :
  reach G a -> (a, b) ∈ G -> exists e0, e0 ∈ W0 /\ (a, b) = shift_edge k e0.
Proof.
  intros Ha Hab. apply rebuilt_edges in Hab as [H|Hs]; [exact H|].
  exfalso. destruct (survivor c _ Hc Hs) as (s & id & E & Hlt). cbn in E.
  apply reach_live in Ha as [->|(e0 & _ & ->)]; [discriminate|].
  apply shift_sum_fresh in E. unfold k in E. lia.
Qed.

(** The links of the signal path are the consecutive pairs of the series
    path. *)
Lemma rebuilt_links x y :
  stage_link G x y <-> adjacent x y (series_path state).
Proof.
  destruct checks as (_ & Hlink & Hhas & _ & _ & Hnd). split.
  - intros (a & b & Ha & Hab & Hx & Hy & Hne).
    destruct (reached_edge a b Ha Hab) as (e0 & H0 & E).
    injection E as -> ->. rewrite position_shift in Hx, Hy.
    rewrite forallb_forall in Hlink.
    specialize (Hlink e0 (proj1 (list_elem_of_In _ _) H0)).
    unfold link_okb in Hlink. apply orb_true_iff in Hlink as [He|Hadj].
    + apply bool_decide_eq_true in He. congruence.
    + rewrite Hx, Hy in Hadj. apply adjacentb_spec, Hadj.
  - intros Hadj. pose proof (adjacent_NoDup _ _ _ Hnd Hadj) as Hne.
    apply adjacent_pairs in Hadj. rewrite forallb_forall in Hhas.
    specialize (Hhas _ (proj1 (list_elem_of_In _ _) Hadj)).
    unfold has_linkb in Hhas. apply existsb_exists in Hhas as (e0 & H0 & He).
    apply andb_true_iff in He as [Hx Hy].
    apply bool_decide_eq_true in Hx, Hy. cbn in Hx, Hy.
    apply list_elem_of_In in H0.
    exists (shift k e0.1), (shift k e0.2).
    rewrite !position_shift. repeat split; auto.
    + apply live_reach, H0.
    + apply rebuilt_edges. left. exists e0. auto.
Qed.

Lemma wired_checks :
  forallb
    (fun s =>
       negb (enabled state s)
       || forallb
            (fun n => existsb (fun e => bool_decide (e.2 = n)) W0)
            (stage_nodes s))
    stage_order = true
  /\ forallb
       (fun e => bool_decide (e.1 ∈ drain W0) && bool_decide (e.2 ∈ drain W0))
       W0 = true
  /\ (negb (phaserOn state)
      || forallb (fun e => bool_decide (e ∈ W0)) phaser_chain) = true
  /\ forallb
       (fun e =>
          match e.1 with
          | phaser_filter _ => bool_decide (e ∈ phaser_chain)
          | _ => true
          end)
       W0 = true.
Proof.
  pose proof (wired_ok state) as H. unfold wired_okb in H. cbv zeta in H.
  fold W0 in H.
  apply andb_true_iff in H as [H H4]. apply andb_true_iff in H as [H H3].
  apply andb_true_iff in H as [H1 H2]. auto.
Qed.

(** The nodes of the stages that the input feeds are all the nodes of the
    enabled stages, and no other. *)
Lemma rebuilt_stage_nodes s n :
  reach G n /\ position n = AtStage s
  <-> enabled state s = true /\ n ∈ stage_nodes s.
Proof.
  destruct checks as (_ & _ & _ & Hok & Hon & _).
  destruct wired_checks as (Hin & _).
  rewrite forallb_forall in Hon, Hok, Hin.
  assert (Hs : s ∈ stage_order).
  { apply list_elem_of_In. destruct s; cbn; tauto. }
  assert (Hpath : on_pathb W0 s = enabled state s).
  { eapply bool_decide_eq_true, Hon, list_elem_of_In, Hs. }
  split.
  - intros [Hn Hp]. apply reach_live in Hn as [->|(e0 & H0 & ->)];
      [discriminate|].
    rewrite position_shift in Hp.
    specialize (Hok e0 (proj1 (list_elem_of_In _ _) H0)).
    apply andb_true_iff in Hok as [_ Hok].
    pose proof (own_node_listed _ _ _ Hp Hok) as Hl.
    destruct (stage_nodes_position _ _ Hl) as [_ Hfix]. rewrite Hfix.
    split; [|exact Hl].
    rewrite <- Hpath. unfold on_pathb. apply existsb_exists.
    exists e0. split; [apply list_elem_of_In, H0|].
    apply bool_decide_eq_true, Hp.
  - intros [He Hl]. destruct (stage_nodes_position _ _ Hl) as [Hp Hfix].
    split; [|exact Hp].
    specialize (Hin s (proj1 (list_elem_of_In _ _) Hs)).
    rewrite He in Hin. cbn [negb orb] in Hin.
    rewrite forallb_forall in Hin.
    specialize (Hin n (proj1 (list_elem_of_In _ _) Hl)).
    apply existsb_exists in Hin as (e0 & H0 & E).
    apply bool_decide_eq_true in E. apply list_elem_of_In in H0.
    rewrite <- (Hfix k), <- E. apply live_reach, H0.
Qed.

(** The signal of every node the input feeds arrives at the output. *)
Lemma rebuilt_drains n : reach G n -> feeds G n outputNode.
Proof.
  destruct wired_checks as (_ & Hdrain & _).
  rewrite forallb_forall in Hdrain.
  assert (Hlift : forall m, m ∈ drain W0 -> feeds G (shift k m) outputNode).
  { intros m Hm. apply (feeds_shift G k W0 m outputNode).
    - intros e He. apply rebuilt_edges. left. exists e. auto.
    - apply drain_sound, Hm. }
  intros Hn. apply reach_live in Hn as [->|(e0 & H0 & ->)].
  - destruct checks as (Hflow & _).
    destruct W0 as [|[a b] calls] eqn:EW; [|].
    + unfold W0 in EW.
      destruct state as [f ? ? ? c0 ? ? ? ? ? r ? ? l ? ? d ? ? ? p0 ? ? ? ? ?].
      destruct f, c0, r, l, d, p0; discriminate EW.
    + cbn in Hflow. apply andb_true_iff in Hflow as [Ha _].
      apply bool_decide_eq_true, list_elem_of_singleton in Ha. subst a.
      specialize (Hdrain (inputNode, b) (or_introl eq_refl)).
      apply andb_true_iff in Hdrain as [Hd _].
      apply bool_decide_eq_true in Hd. apply (Hlift inputNode Hd).
  - specialize (Hdrain e0 (proj1 (list_elem_of_In _ _) H0)).
    apply andb_true_iff in Hdrain as [_ Hd].
    apply bool_decide_eq_true in Hd. apply Hlift, Hd.
Qed.

(** The wet path of an enabled Phaser is among the connections. *)
Lemma rebuilt_phaser_chain e :
  phaserOn state = true -> e ∈ phaser_chain -> e ∈ G.
Proof.
  intros Hon He. destruct wired_checks as (_ & _ & Hch & _).
  rewrite Hon in Hch. cbn [negb orb] in Hch. rewrite forallb_forall in Hch.
  specialize (Hch e (proj1 (list_elem_of_In _ _) He)).
  apply bool_decide_eq_true in Hch.
  apply rebuilt_edges. left. exists e. split; [exact Hch|].
  symmetry. apply phaser_chain_fixed, He.
Qed.

(** A filter of the Phaser feeds nothing outside the wet path. *)
Lemma rebuilt_filter_edges i b :
  (phaser_filter i, b) ∈ G -> (phaser_filter i, b) ∈ phaser_chain.
Proof.
  intros He. destruct wired_checks as (_ & _ & _ & Hf).
  rewrite forallb_forall in Hf.
  apply rebuilt_edges in He as [(e0 & H0 & E)|Hs].
  - specialize (Hf e0 (proj1 (list_elem_of_In _ _) H0)).
    destruct e0 as [a0 b0]. injection E as Ea Eb. cbn [fst] in Hf.
    destruct a0; cbn in Ea; try discriminate Ea. injection Ea as <-.
    apply bool_decide_eq_true in Hf.
    pose proof (phaser_chain_fixed k _ Hf) as Hfix.
    injection Hfix as Hb. cbn in Hb. rewrite Eb, Hb. exact Hf.
  - destruct (survivor c _ Hc Hs) as (s & id & E & _). discriminate E.
Qed.

(** The invariant is kept by a rebuild. *)
Lemma rebuilt_settled : settled (rebuild state c).
Proof.
  destruct checks as (_ & _ & _ & Hok & _).
  split; [exact (proj1 Hc)|].
  intros e He. rewrite rebuilt_created.
  apply rebuilt_edges in He as [(e0 & H0 & ->)|Hs].
  - rewrite forallb_forall in Hok.
    specialize (Hok e0 (proj1 (list_elem_of_In _ _) H0)).
    apply andb_true_iff in Hok as [Hok _]. cbn. apply node_okb_shift, Hok.
  - destruct (survivor c _ Hc Hs) as (s & id & E & Hlt). rewrite E. cbn.
    apply bool_decide_eq_true. unfold k. lia.
Qed.

End Rebuild.

#[local] Open Scope R_scope.

(** ** The stages *)

(** The loop of [setDepth] over the indices [a .. a + n - 1]: the lengths
    are kept and the LFO gains at these indices are set. *)
Lemma setDepth_fold fr n : forall a ph,
  let ph' := fold_left (Phaser.setDepth_at fr) (seq a n) ph in
  length (Phaser.filters ph') = length (Phaser.filters ph)
  /\ length (Phaser.lfoGains ph') = length (Phaser.lfoGains ph)
  /\ forall j,
       Phaser.lfoGains ph' !! j
       = if bool_decide (a <= j < a + n)%nat
         then (fun _ => fr) <$> Phaser.lfoGains ph !! j
         else Phaser.lfoGains ph !! j.
Proof.
  induction n as [|n IH]; intros a ph; cbn.
  - repeat split. intros j. rewrite bool_decide_eq_false_2 by lia. reflexivity.
  - destruct (IH (S a) (Phaser.setDepth_at fr ph a)) as (Hf & Hg & Hj).
    cbn zeta in Hf, Hg, Hj.
    change (Phaser.filters (Phaser.setDepth_at fr ph a))
      with (alter (fun f => mkBiquad (bq_type f) 1000 (bq_Q f)) a
              (Phaser.filters ph)) in Hf.
    change (Phaser.lfoGains (Phaser.setDepth_at fr ph a))
      with (alter (fun _ : R => fr) a (Phaser.lfoGains ph)) in Hg, Hj.
    rewrite length_alter in Hf. rewrite length_alter in Hg.
    repeat split; [exact Hf|exact Hg|].
    intros j. rewrite Hj.
    destruct (decide (j = a)) as [->|Hne].
    + rewrite list_lookup_alter_eq.
      rewrite bool_decide_eq_false_2, bool_decide_eq_true_2 by lia.
      reflexivity.
    + rewrite list_lookup_alter_ne by congruence.
      destruct (decide (S a <= j < S a + n)%nat).
      * rewrite !bool_decide_eq_true_2 by lia. reflexivity.
      * rewrite !bool_decide_eq_false_2 by lia. reflexivity.
Qed.

(** An update keeps the bank full and sets all the LFO gains to
    [3000 * depth]. *)
Lemma phaser_update_bank rate depth stages fb mix ph :
  full_bank ph ->
  full_bank (Phaser.update rate depth stages fb mix ph)
  /\ Phaser.lfoGains (Phaser.update rate depth stages fb mix ph)
     = replicate Phaser.MAX_STAGES (3000 * depth).
Proof.
  intros [Hf Hg]. unfold full_bank.
  change (Phaser.filters (Phaser.update rate depth stages fb mix ph))
    with (Phaser.filters (Phaser.setDepth depth (Phaser.setRate rate ph))).
  change (Phaser.lfoGains (Phaser.update rate depth stages fb mix ph))
    with (Phaser.lfoGains (Phaser.setDepth depth (Phaser.setRate rate ph))).
  unfold Phaser.setDepth.
  pose proof (setDepth_fold (3000 * depth)
                (length (Phaser.filters (Phaser.setRate rate ph))) 0%nat
                (Phaser.setRate rate ph)) as H.
  cbn zeta in H. destruct H as (Hf' & Hg' & Hj).
  change (Phaser.filters (Phaser.setRate rate ph))
    with (Phaser.filters ph) in *.
  change (Phaser.lfoGains (Phaser.setRate rate ph))
    with (Phaser.lfoGains ph) in *.
  rewrite Hf', Hg'. split; [auto|].
  apply list_eq. intros j. rewrite Hj, Hf.
  destruct (decide (j < Phaser.MAX_STAGES)%nat) as [Hlt|Hge].
  - rewrite bool_decide_eq_true_2 by lia.
    rewrite lookup_replicate_2 by lia.
    destruct (lookup_lt_is_Some_2 (Phaser.lfoGains ph) j) as [v ->];
      [lia|reflexivity].
  - rewrite bool_decide_eq_false_2 by lia.
    rewrite lookup_ge_None_2 by lia. symmetry.
    apply lookup_replicate_None. lia.
Qed.

Lemma full_bank_filters c : full_bank (phaser c) -> allFilters c = the_filters.
Proof. intros [Hf _]. unfold allFilters, the_filters. rewrite Hf. reflexivity. Qed.

Section Host.

Variable Math_random : nat -> R.

(** The fields of the chain after [updateParams]. *)
Lemma updateParams_frame state c :
  let c' := updateParams Math_random state c in
  connections c' = connections c /\ created c' = created c
  /\ phaser c'
     = Phaser.update (phaserRate state) (phaserDepth state)
         (phaserStages state) (phaserFb state) (phaserMix state) (phaser c)
  /\ reverb c'
     = (Reverb.update Math_random (sampleRate c) (reverbDecay state)
          (reverbMix state) (reverb c) (rng c)).1
  /\ rng c'
     = (Reverb.update Math_random (sampleRate c) (reverbDecay state)
          (reverbMix state) (reverb c) (rng c)).2
  /\ sampleRate c' = sampleRate c.
Proof.
  unfold updateParams. destruct (Reverb.update _ _ _ _ _ _). cbn. auto 7.
Qed.

(** Every state of the chain satisfies the invariant and has a full
    phaser bank. *)
Lemma chain_state_invariant c :
  chain_state Math_random c -> settled c /\ full_bank (phaser c).
Proof.
  induction 1 as [sr rng0|state c _ [Hs Hb]|state c _ [Hs Hb]].
  - split; [split|split]; try reflexivity.
    intros e He. apply elem_of_nil in He as [].
  - split; [apply rebuilt_settled, Hs|exact Hb].
  - destruct (updateParams_frame state c) as (Hc & Hk & Hp & _).
    cbn zeta in Hc, Hk, Hp.
    destruct (phaser_update_bank (phaserRate state) (phaserDepth state)
                (phaserStages state) (phaserFb state) (phaserMix state)
                (phaser c) Hb) as [Hb' _].
    rewrite <- Hp in Hb'. split; [|exact Hb'].
    split; [apply full_bank_filters, Hb'|].
    rewrite Hc, Hk. apply Hs.
Qed.

(** C4: from any state of the chain, and for every choice of the six
    enable flags, a rebuild leaves a graph in which the links that carry the
    input signal from one position to another are exactly the consecutive
    pairs of the list: input, then for each enabled stage in the order
    Filter, Chorus, Phaser, Delay, Reverb, Limiter the stage itself and,
    if it has a dry and a wet path, the gain node that sums them, then
    output.  The nodes of the stages that the input feeds are all the nodes
    of every enabled stage and no node of a disabled one; the signal of
    every node the input feeds arrives at the output; and no position
    occurs twice in the list. *)
Theorem rebuild_is_series_chain state c :
  chain_state Math_random c ->
  let g := connections (rebuild state c) in
  (forall x y, stage_link g x y <-> adjacent x y (series_path state))
  /\ (forall s n,
        reach g n /\ position n = AtStage s
        <-> enabled state s = true /\ n ∈ stage_nodes s)
  /\ (forall n, reach g n -> feeds g n outputNode)
  /\ NoDup (series_path state).
Proof.
  intros Hc. apply chain_state_invariant in Hc as [Hs _]. cbn zeta.
  split; [|split; [|split]].
  - intros x y. apply rebuilt_links, Hs.
  - intros s n. apply rebuilt_stage_nodes, Hs.
  - intros n. apply rebuilt_drains, Hs.
  - apply (checks state).
Qed.

(** What [Reverb.update] returns: the new impulse response with the new
    gains, and the advanced position of the random sequence. *)
Lemma reverb_update_result sr0 decay mix r rng0 :
  Reverb.update Math_random sr0 decay mix r rng0
  = (Reverb.mk
       (Some (Reverb.makeImpulseResponse Math_random sr0
                (Reverb.irSeconds decay) decay rng0))
       (1 - mix) mix,
     (rng0 + 2 * Reverb.irLength sr0 (Reverb.irSeconds decay))%nat).
Proof. reflexivity. Qed.

(** C5 (amended): every parameter update regenerates the impulse response
    of the Reverb stage, whether or not the decay changed: the convolver's
    buffer afterwards is a newly synthesised response of [irLength] samples
    per channel for the decay of the update, drawn from the next values of
    the host's random sequence, which has advanced. *)
Theorem reverb_impulse_regenerated_on_every_update state c :
  let c' := updateParams Math_random state c in
  let seconds := Reverb.irSeconds (reverbDecay state) in
  Reverb.buffer (reverb c')
  = Some (Reverb.makeImpulseResponse Math_random (sampleRate c) seconds
            (reverbDecay state) (rng c))
  /\ rng c' = (rng c + 2 * Reverb.irLength (sampleRate c) seconds)%nat
  /\ (rng c < rng c')%nat.
Proof.
  destruct (updateParams_frame state c) as (_ & _ & _ & Hr & Hg & _).
  cbn zeta in *. rewrite Hr, Hg, reverb_update_result.
  cbn [fst snd Reverb.buffer]. repeat split.
  unfold Reverb.irLength. lia.
Qed.

(** C6 (amended): the stage-count parameter of the Phaser has no effect at
    all.  Neither a parameter update nor a rebuild depends on it, and the
    eight LFO depth gains are [3000 * depth] whatever the stage count.
    Whatever the stage count, the wired chain holds the 8 all-pass filters:
    after a rebuild the filters the input feeds are the filters 0 to 7 when
    the Phaser is enabled (none otherwise), the connections then hold the
    wet path from the Phaser's input through the filters 0, 1, ..., 7 in
    this order to its output, and a filter is connected to nothing but its
    successor on this path. *)
Theorem phaser_stage_count_is_ignored state c n :
  chain_state Math_random c ->
  let state' := with_phaserStages state n in
  updateParams Math_random state' c = updateParams Math_random state c
  /\ rebuild state' c = rebuild state c
  /\ allFilters (updateParams Math_random state c)
     = List.map phaser_filter (seq 0 8)
  /\ Phaser.lfoGains (phaser (updateParams Math_random state c))
     = replicate 8 (3000 * phaserDepth state)
  /\ (forall i,
        reach (connections (rebuild state' c)) (phaser_filter i)
        <-> phaserOn state = true /\ (i < 8)%nat)
  /\ (phaserOn state = true ->
      forall e,
        e ∈ pairs (phaser_input :: List.map phaser_filter (seq 0 8)
                   ++ [ phaser_output ]) ->
        e ∈ connections (rebuild state' c))
  /\ (forall i b,
        (phaser_filter i, b) ∈ connections (rebuild state' c) ->
        (phaser_filter i, b)
        ∈ pairs (phaser_input :: List.map phaser_filter (seq 0 8)
                 ++ [ phaser_output ])).
Proof.
  intros Hc. cbn zeta. split; [reflexivity|]. split; [reflexivity|].
  pose proof (chain_state_invariant _ (chain_update _ state c Hc)) as [_ Hb].
  split; [apply (full_bank_filters _ Hb)|].
  destruct (updateParams_frame state c) as (_ & _ & Hp & _).
  cbn zeta in Hp. rewrite Hp.
  apply chain_state_invariant in Hc as [Hs Hb0].
  split; [apply phaser_update_bank, Hb0|].
  assert (E : rebuild (with_phaserStages state n) c = rebuild state c)
    by reflexivity.
  rewrite E. clear E. split; [|split].
  - intros i. rewrite <- filter_listed.
    rewrite <- (rebuilt_stage_nodes state c Hs PhaserStage (phaser_filter i)).
    split; [intros H; split; [exact H|reflexivity]|intros [H _]; exact H].
  - intros Hon e He. apply (rebuilt_phaser_chain state c Hs e Hon He).
  - intros i b He. apply (rebuilt_filter_edges state c Hs i b He).
Qed.

End Host.

(** Delay and Reverb enabled on a new chain: the path asked for, and the
    connections the rebuild makes. *)
Example rebuild_delay_reverb :
  let state :=
    mkEffectsState false lowpass 1000 0.7 false chorus_mode 0.35 6 0.35 0.15
      true 2.8 0.25 false (-12) 0.15 true 0.35 0.4 0.3
      false 0.5 0.7 4 0.3 0.5 in
  series_path state
  = [ AtInput; AtStage DelayStage; AtSum DelayStage; AtStage ReverbStage;
      AtSum ReverbStage; AtOutput ]
  /\ connections (rebuild state (new 44100 0))
     = [ (inputNode, delay_dry); (inputNode, delay_delayNode);
         (delay_delayNode, delay_feedback);
         (delay_feedback, delay_delayNode);
         (delay_delayNode, delay_wet);
         (delay_dry, SumGain DelayStage 0);
         (delay_wet, SumGain DelayStage 0);
         (SumGain DelayStage 0, reverb_dry);
         (SumGain DelayStage 0, reverb_convolverNode);
         (reverb_convolverNode, reverb_wet);
         (reverb_dry, SumGain ReverbStage 1);
         (reverb_wet, SumGain ReverbStage 1);
         (SumGain ReverbStage 1, outputNode) ].
Proof. split; reflexivity. Qed.

Lemma delay_chain_state : chain_state JS.zero_random Examples.delay_chain.
Proof. apply chain_rebuild, chain_new. Qed.

Lemma rebuild_is_series_chain_witness :
  chain_state JS.zero_random Examples.delay_chain
  /\ let g := connections (rebuild Examples.all_on Examples.delay_chain) in
     (forall x y,
        stage_link g x y <-> adjacent x y (series_path Examples.all_on))
     /\ (forall s n,
           reach g n /\ position n = AtStage s
           <-> enabled Examples.all_on s = true /\ n ∈ stage_nodes s)
     /\ (forall n, reach g n -> feeds g n outputNode)
     /\ NoDup (series_path Examples.all_on).
Proof.
  split; [exact delay_chain_state|].
  apply (rebuild_is_series_chain JS.zero_random Examples.all_on
           Examples.delay_chain).
  exact delay_chain_state.
Defined.

Lemma phaser_stage_count_is_ignored_witness :
  chain_state JS.zero_random Examples.delay_chain
  /\ phaserOn Examples.all_on = true
  /\ Phaser.lfoGains
       (phaser (updateParams JS.zero_random
                  (with_phaserStages Examples.all_on 2)
                  Examples.delay_chain))
     = replicate 8 (3000 * 0.7)
  /\ (phaser_filter 7, phaser_output)
     ∈ connections
         (rebuild (with_phaserStages Examples.all_on 2) Examples.delay_chain).
Proof.
  pose proof (phaser_stage_count_is_ignored JS.zero_random
                Examples.all_on Examples.delay_chain 2
                delay_chain_state) as (_ & _ & _ & Hg & _ & Hch & _).
  split; [exact delay_chain_state|]. split; [reflexivity|].
  split; [exact Hg|].
  apply (Hch eq_refl). rewrite list_elem_of_In. cbn. tauto.
Defined.

(** C6 (counterexample): the stage count never scales the LFO depth: no
    two stage counts give different LFO gains, on any phaser and for any
    other arguments of the update. *)
Lemma stage_count_never_scales_depth : ~ Phaser.stage_count_scales_depth.
Proof.
  intros (rate & depth & stages & stages' & feedback & mix & ph & H).
  apply H. reflexivity.
Qed.

(** C5 (counterexample): with a host whose first random value is 0 and
    whose later ones are 0.5, a second update that changes only the mix of
    the Reverb (same decay 2.8) replaces the impulse response by a different
    one. *)
Lemma reverb_impulse_changes_on_mix_only_update :
  let rnd := zero_then_half in
  let c1 := updateParams rnd DEFAULT_FX (new 44100 0) in
  let c2 := updateParams rnd (with_reverbMix DEFAULT_FX 0.5) c1 in
  reverbDecay (with_reverbMix DEFAULT_FX 0.5) = reverbDecay DEFAULT_FX
  /\ Reverb.buffer (reverb c2) <> Reverb.buffer (reverb c1).
Proof.
  intros rnd c1 c2. split; [reflexivity|].
  destruct (updateParams_frame rnd (with_reverbMix DEFAULT_FX 0.5) c1)
    as (_ & _ & _ & H2 & _).
  destruct (updateParams_frame rnd DEFAULT_FX (new 44100 0))
    as (_ & _ & _ & H1 & Hrng & _).
  cbn zeta in H1, H2, Hrng. fold c1 in H1, Hrng. fold c2 in H2.
  rewrite reverb_update_result in H1, H2, Hrng. cbn [fst snd] in H1, H2, Hrng.
  rewrite H1, H2. cbn [Reverb.buffer]. clear H1 H2.
  change (rng c1 = (0 + 2 * Reverb.irLength 44100 (Reverb.irSeconds 2.8))%nat)
    in Hrng.
  rewrite Hrng. clear Hrng.
  change (sampleRate c1) with 44100.
  change (sampleRate (new 44100 0)) with 44100.
  change (reverbDecay (with_reverbMix DEFAULT_FX 0.5)) with 2.8.
  change (reverbDecay DEFAULT_FX) with 2.8.
  change (rng (new 44100 0)) with 0%nat.
  unfold Reverb.makeImpulseResponse.
  remember (Reverb.irLength 44100 (Reverb.irSeconds 2.8)) as len eqn:Hlen.
  assert (Hpos : (0 < len)%nat).
  { subst len. unfold Reverb.irLength. lia. }
  clear Hlen.
  destruct len as [|m]; [lia|].
  cbn [seq List.map]. intros E. injection E as E _.
  replace (0 + 2 * S m + 0 * S m + 0)%nat with (S (S (2 * m))) in E by lia.
  unfold rnd, zero_then_half in E. cbn [Nat.add Nat.mul] in E.
  pose proof (exp_pos (- (0 / 44100) / Rmax 0.001 2.8)). lra.
Qed.

End ChainTheory.

(** * Properties of a generator over its life *)

Module GeneratorTheory.

Import Worklet Generator WorkletTheory.

(** ** Facts about reals *)

Lemma tanh_bound x : -1 <= tanh x <= 1.
Proof.
  unfold tanh, sinh, cosh.
  pose proof (exp_pos x) as Ha. pose proof (exp_pos (- x)) as Hb.
  set (a := exp x) in *. set (b := exp (- x)) in *.
  replace ((a - b) / 2 / ((a + b) / 2)) with ((a - b) / (a + b))
    by (field; lra).
  split.
  - apply Rmult_le_reg_r with (a + b); [lra|].
    unfold Rdiv. rewrite Rmult_assoc, Rinv_l by lra. lra.
  - apply Rmult_le_reg_r with (a + b); [lra|].
    unfold Rdiv. rewrite Rmult_assoc, Rinv_l by lra. lra.
Qed.

Lemma clamp_bounds x a b : a <= b -> a <= JS.clamp x a b <= b.
Proof.
  intros H. unfold JS.clamp, Rmax, Rmin.
  repeat destruct (Rle_dec _ _); lra.
Qed.

Lemma exp_le_1 x : x <= 0 -> exp x <= 1.
Proof.
  intros [H| ->]; [|rewrite exp_0; lra].
  rewrite <- exp_0. left. apply exp_increasing, H.
Qed.

Lemma scaled_sine_bound a x : 0 <= a <= 1 -> -1 <= a * sin x <= 1.
Proof. intros H. pose proof (SIN_bound x). nra. Qed.

Ltac not_listed H :=
  repeat (apply elem_of_cons in H as [H|H]; [discriminate H|]);
  apply elem_of_nil in H; contradiction.

Section Host.

Variable Math_random : nat -> R.


(** ** The engine time *)

Lemma sample_l_t i s l : l_t (sample Math_random i s l).2 = l_t l.
Proof.
  unfold sample.
  destruct (switch_case (formula s)); cbn; try reflexivity.
  - destruct (Rge_dec _ _); reflexivity.
  - destruct (fold_left _ _ _); reflexivity.
Qed.

Lemma advance_l_t srate l : l_t (advance srate l) = l_t l + 1 / srate.
Proof. unfold advance. destruct (Rgt_dec _ _); reflexivity. Qed.

Lemma sample_time_S t0 srate k :
  sample_time (t0 + 1 / srate) srate k = sample_time t0 srate (S k).
Proof. unfold sample_time. rewrite S_INR. lra. Qed.

Lemma loop_clock n : forall i s l,
  l_t (loop Math_random n i s l).2 = sample_time (l_t l) (sr s) n
  /\ length (loop Math_random n i s l).1.1 = n.
Proof.
  induction n as [|n IH]; intros i s l.
  - cbn. unfold sample_time. cbn. split; [lra|reflexivity].
  - cbn [loop].
    pose proof (sample_frame Math_random i s l) as (_ & Hr & _).
    pose proof (sample_l_t i s l) as Ht.
    destruct (sample Math_random i s l) as [[x s1] l1]. cbn in Hr, Ht.
    specialize (IH (S i) s1 (advance (sr s1) l1)).
    destruct (loop Math_random n (S i) s1 _) as [[ys s2] l2]. cbn in *.
    destruct IH as [IH1 IH2]. split; [|congruence].
    rewrite IH1, advance_l_t, Ht, Hr. apply sample_time_S.
Qed.

(** X1: whatever the formula, a [process] call on a block of [n] frames
    stores exactly [n] samples and moves the engine time forward by [n]
    sample periods, [n * (1 / sr)]. *)
Theorem process_advances_engine_time s n :
  length (process Math_random s n).1.1 = n
  /\ t (process Math_random s n).1.2 = t s + INR n * (1 / sr s).
Proof.
  rewrite process_out, process_state.
  destruct (loop_clock n 0 s (read_locals s)) as [Ht Hn].
  split; [exact Hn|].
  change (t (write_back ?a ?b)) with (l_t b). exact Ht.
Qed.

(** ** The formulas of the engine time alone *)

Lemma sample_closed_form i s l f :
  closed_form (switch_case (formula s)) = Some f ->
  sample Math_random i s l = (f (p s) (l_t l), s, l).
Proof.
  unfold sample.
  destruct (switch_case (formula s)); cbn; intros H;
    try discriminate H; injection H as <-; reflexivity.
Qed.

Lemma raw_closed_form n : forall i s l f,
  closed_form (switch_case (formula s)) = Some f ->
  raw_samples Math_random n i s l
  = List.map (fun k => f (p s) (sample_time (l_t l) (sr s) k)) (seq 0 n).
Proof.
  induction n as [|n IH]; intros i s l f H; [reflexivity|].
  rewrite raw_samples_S, (sample_closed_form _ _ _ _ H).
  rewrite (IH _ _ _ _ H). cbn [seq List.map]. f_equal.
  - unfold sample_time. cbn. f_equal. lra.
  - rewrite <- seq_shift, List.map_map. apply List.map_ext. intros k.
    rewrite advance_l_t, sample_time_S. reflexivity.
Qed.

(** X2: for the formulas that read only the parameters and the engine time
    (['fm'], ['additive'], ['pm'], ['beats'], ['dist']), the [k]-th sample
    of a block is the gain times the closed form of the formula at the time
    [t + k * (1 / sr)], [t] being the engine time when the block starts:
    nothing else of the processor's history enters. *)
Theorem stateless_formula_block s n f :
  closed_form (switch_case (formula s)) = Some f ->
  (process Math_random s n).1.1
  = List.map
      (fun k => f (p s) (t s + INR k * (1 / sr s)) * gain_or_default (p s))
      (seq 0 n).
Proof.
  intros H. rewrite process_out, loop_scaled.
  rewrite (raw_closed_form n 0 s (read_locals s) f H).
  rewrite List.map_map. reflexivity.
Qed.

(** ** Values in the unit range *)

Lemma sample_unit_range i s l :
  switch_case (formula s) ∈ unit_range_cases ->
  -1 <= (sample Math_random i s l).1.1 <= 1.
Proof.
  unfold sample, unit_range_cases.
  destruct (switch_case (formula s)); intros H; cbn;
    try apply SIN_bound; try (exfalso; not_listed H).
  - match goal with |- context [sin ?a + sin ?b] =>
      pose proof (SIN_bound a); pose proof (SIN_bound b) end. lra.
  - apply tanh_bound.
  - apply scaled_sine_bound, clamp_bounds. lra.
  - apply clamp_bounds. lra.
  - destruct (Rge_dec _ _); cbn; [destruct (Rgt_dec _ _)|]; lra.
  - apply scaled_sine_bound, clamp_bounds. lra.
  - lra.
Qed.

Lemma raw_unit_range n : forall i s l,
  switch_case (formula s) ∈ unit_range_cases ->
  Forall (fun x => -1 <= x <= 1) (raw_samples Math_random n i s l).
Proof.
  induction n as [|n IH]; intros i s l H; [constructor|].
  rewrite raw_samples_S.
  pose proof (sample_unit_range i s l H) as Hx.
  pose proof (sample_frame Math_random i s l) as (Hf & _ & _).
  destruct (sample Math_random i s l) as [[x s1] l1]. cbn in Hx, Hf.
  constructor; [exact Hx|]. apply IH. rewrite Hf. exact H.
Qed.

(** X3: for the formulas ['fm'], ['logistic'], ['pm'], ['beats'],
    ['dist'], ['quasi'], ['lorenz'], ['brownnoise'], ['velvetnoise'] and
    ['rossler'] (and for an id without an arm), from any state and with any
    parameters, every value of the formula lies in [-1, 1], so that no
    stored sample exceeds the gain in absolute value. *)
Theorem unit_range_formulas_bounded_by_gain s n :
  switch_case (formula s) ∈ unit_range_cases ->
  Forall (fun x => -1 <= x <= 1) (raw_samples Math_random n 0 s (read_locals s))
  /\ Forall (fun y => Rabs y <= Rabs (gain_or_default (p s)))
       (process Math_random s n).1.1.
Proof.
  intros H. pose proof (raw_unit_range n 0 s (read_locals s) H) as Hraw.
  split; [exact Hraw|].
  rewrite process_out, loop_scaled. apply Forall_map.
  eapply Forall_impl; [exact Hraw|]. intros x Hx. cbn.
  rewrite Rabs_mult.
  rewrite <- (Rmult_1_l (Rabs (gain_or_default (p s)))) at 2.
  apply Rmult_le_compat_r; [apply Rabs_pos|]. apply Rabs_le. exact Hx.
Qed.

(** ** Calls of [Math.random] *)

Lemma sample_draws i s l :
  let c := switch_case (formula s) in
  let s' := (sample Math_random i s l).1.2 in
  (c ∈ deterministic_cases -> rng s' = rng s)
  /\ (c ∈ one_draw_cases -> rng s' = S (rng s))
  /\ (c = CaseVelvetnoise -> (rng s <= rng s' <= rng s + 2)%nat).
Proof.
  unfold sample, deterministic_cases, one_draw_cases. cbn zeta.
  destruct (switch_case (formula s)); cbn;
    (split; [intros H|split; [intros H|intros H]]);
    try reflexivity; try discriminate H; try (exfalso; not_listed H).
  - destruct (Rge_dec _ _); cbn; lia.
  - destruct (fold_left _ _ _); reflexivity.
Qed.

Lemma loop_draws n : forall i s l,
  let c := switch_case (formula s) in
  let s' := (loop Math_random n i s l).1.2 in
  (c ∈ deterministic_cases -> rng s' = rng s)
  /\ (c ∈ one_draw_cases -> rng s' = (rng s + n)%nat)
  /\ (c = CaseVelvetnoise -> (rng s <= rng s' <= rng s + 2 * n)%nat).
Proof.
  induction n as [|n IH]; intros i s l; cbn zeta.
  - cbn. repeat split; lia.
  - cbn [loop].
    pose proof (sample_draws i s l) as (H1 & H2 & H3).
    pose proof (sample_frame Math_random i s l) as (Hf & _ & _).
    destruct (sample Math_random i s l) as [[x s1] l1]. cbn in H1, H2, H3, Hf.
    specialize (IH (S i) s1 (advance (sr s1) l1)). cbn zeta in IH.
    destruct (loop Math_random n (S i) s1 _) as [[ys s2] l2]. cbn in *.
    rewrite Hf in IH. destruct IH as (I1 & I2 & I3).
    split; [|split]; intros H.
    + rewrite (I1 H), (H1 H). reflexivity.
    + rewrite (I2 H), (H2 H). lia.
    + specialize (I3 H). specialize (H3 H). lia.
Qed.

(** The velvet-noise arm: at an impulse, that is when [velvetCounter >=
    velvetNext], the value is [1] or [-1] and two random values are taken;
    otherwise the value is [0] and none is taken. *)
Lemma sample_velvet i s l :
  switch_case (formula s) = CaseVelvetnoise ->
  let x := (sample Math_random i s l).1.1 in
  let s' := (sample Math_random i s l).1.2 in
  (velvetCounter s >= velvetNext s ->
   (x = 1 \/ x = -1) /\ rng s' = (rng s + 2)%nat)
  /\ (~ velvetCounter s >= velvetNext s -> x = 0 /\ rng s' = rng s).
Proof.
  intros H. unfold sample. rewrite H. cbv zeta.
  destruct (Rge_dec (velvetCounter s) (velvetNext s)) as [Hge|Hlt];
    cbn [random fst snd rng set_velvet set_rng].
  - split; [intros _|contradiction]. split; [|lia].
    destruct (Rgt_dec _ _); auto.
  - split; [contradiction|auto].
Qed.

Lemma impulses_cons x xs :
  impulses (x :: xs)
  = ((if Req_dec_T x 0 then 0 else 1) + impulses xs)%nat.
Proof. unfold impulses. cbn. destruct (Req_dec_T x 0); reflexivity. Qed.

Lemma loop_velvet n : forall i s l,
  switch_case (formula s) = CaseVelvetnoise ->
  rng (loop Math_random n i s l).1.2
  = (rng s + 2 * impulses (raw_samples Math_random n i s l))%nat
  /\ Forall (fun x => x = 1 \/ x = -1 \/ x = 0)
       (raw_samples Math_random n i s l)
  /\ (impulses (raw_samples Math_random n i s l) <= n)%nat.
Proof.
  induction n as [|n IH]; intros i s l H.
  - cbn. split; [lia|]. split; [constructor|reflexivity].
  - rewrite raw_samples_S. cbn [loop].
    pose proof (sample_velvet i s l H) as [Hat Hoff].
    pose proof (sample_frame Math_random i s l) as (Hf & _ & _).
    destruct (sample Math_random i s l) as [[x s1] l1].
    cbn [fst snd] in Hat, Hoff, Hf.
    specialize (IH (S i) s1 (advance (sr s1) l1)).
    rewrite Hf in IH. specialize (IH H).
    destruct (loop Math_random n (S i) s1 _) as [[ys s2] l2].
    cbn [fst snd] in *. destruct IH as (I1 & I2 & I3).
    rewrite impulses_cons, I1.
    destruct (Rge_dec (velvetCounter s) (velvetNext s)) as [Hge|Hlt].
    + destruct (Hat Hge) as [Hx Hr]. rewrite Hr.
      destruct (Req_dec_T x 0) as [E|_]; [destruct Hx; lra|].
      split; [lia|]. split; [|lia].
      constructor; [tauto|exact I2].
    + destruct (Hoff Hlt) as [Hx Hr]. rewrite Hr.
      destruct (Req_dec_T x 0) as [_|E]; [|contradiction].
      split; [lia|]. split; [|lia].
      constructor; [tauto|exact I2].
Qed.

(** X4: how many values a block of [n] frames takes from [Math.random].
    The eleven deterministic arms (and an id without an arm) take none; the
    low-passed, pink and brown noise arms take exactly one per sample; the
    velvet-noise arm takes two at an impulse and none otherwise: every value
    of its block is [1], [-1] or [0], and the block takes twice as many
    random values as it has values other than [0], hence at most [2 * n]. *)
Theorem random_draws_per_block s n :
  let c := switch_case (formula s) in
  let s' := (process Math_random s n).1.2 in
  let xs := raw_samples Math_random n 0 s (read_locals s) in
  (c ∈ deterministic_cases -> rng s' = rng s)
  /\ (c ∈ one_draw_cases -> rng s' = (rng s + n)%nat)
  /\ (c = CaseVelvetnoise ->
      rng s' = (rng s + 2 * impulses xs)%nat
      /\ Forall (fun x => x = 1 \/ x = -1 \/ x = 0) xs
      /\ (impulses xs <= n)%nat).
Proof.
  cbn zeta. rewrite process_state.
  change (rng (write_back ?a ?b)) with (rng a).
  destruct (loop_draws n 0 s (read_locals s)) as (H1 & H2 & _).
  split; [exact H1|]. split; [exact H2|].
  apply (loop_velvet n 0 s (read_locals s)).
Qed.

(** ** The phase accumulator *)



(** ** Messages *)

(** X6: two ['set'] messages in a row act as one ['set'] message carrying
    the keys of both, the later message winning on the keys they share; in
    particular a repeated message changes nothing the second time. *)
Theorem set_messages_compose s q1 q2 :
  onmessage Math_random (onmessage Math_random s (MsgSet q1)) (MsgSet q2)
  = onmessage Math_random s (MsgSet (q2 ∪ q1))
  /\ onmessage Math_random (onmessage Math_random s (MsgSet q1)) (MsgSet q1)
     = onmessage Math_random s (MsgSet q1).
Proof.
  unfold onmessage, set_p. cbn.
  split; f_equal.
  - apply (assoc_L (∪)).
  - rewrite (assoc_L (∪)). f_equal. apply (idemp_L (∪)).
Qed.

(** ** The shape of the arrays *)

Lemma ksLength_ge_2 s : (2 <= ksLength s)%nat.
Proof. unfold ksLength. lia. Qed.

Lemma initKS_keep s :
  ks_shaped s -> ksN s = ksLength s -> initKS Math_random false s = s.
Proof.
  intros (buf & Hb & _) Hn. unfold initKS.
  rewrite (bool_decide_eq_true_2 (is_Some (ksBuf s))) by (rewrite Hb; eauto).
  rewrite (bool_decide_eq_true_2 _ Hn). reflexivity.
Qed.

Lemma initKS_fresh force s :
  force = true \/ ksN s <> ksLength s ->
  initKS Math_random force s
  = set_rng
      (set_ks s
         (List.map (fun i => Math_random (rng s + i)%nat * 2 - 1)
            (seq 0 (ksLength s)))
         0%nat (ksLength s))
      (rng s + ksLength s).
Proof.
  intros [->|Hn]; unfold initKS; [reflexivity|].
  rewrite (bool_decide_eq_false_2 _ Hn), andb_false_r. reflexivity.
Qed.

Lemma fresh_shaped s buf r :
  length buf = ksLength s ->
  ks_shaped (set_rng (set_ks s buf 0%nat (ksLength s)) r).
Proof.
  intros Hl. exists buf. cbn. pose proof (ksLength_ge_2 s).
  repeat split; [exact Hl|lia|lia].
Qed.

Lemma initKS_shaped force s :
  force = true \/ ks_shaped s -> ks_shaped (initKS Math_random force s).
Proof.
  intros H.
  destruct (decide (force = true \/ ksN s <> ksLength s)) as [Hf|Hk].
  - rewrite (initKS_fresh _ _ Hf). apply fresh_shaped.
    rewrite length_map, length_seq. reflexivity.
  - assert (force = false) as -> by (destruct force; tauto).
    assert (ksN s = ksLength s) as Hn.
    { destruct (decide (ksN s = ksLength s)); tauto. }
    destruct H as [H|H]; [discriminate|].
    rewrite initKS_keep; assumption.
Qed.

Lemma ksLength_frame s s' :
  sr s' = sr s -> p s' = p s -> ksLength s' = ksLength s.
Proof. unfold ksLength. intros -> ->. reflexivity. Qed.

Lemma karplus_step_shaped s v :
  ks_shaped s ->
  ks_shaped
    (set_ksIdx (set_ksBuf s (<[ksIdx s := v]> (default [] (ksBuf s))))
       ((ksIdx s + 1) mod ksN s)).
Proof.
  intros (buf & Hb & Hl & HN & Hi).
  exists (<[ksIdx s := v]> buf). cbn. rewrite Hb. cbn.
  rewrite length_insert. repeat split; [exact Hl|exact HN|].
  apply Nat.mod_upper_bound. lia.
Qed.

Lemma shepard_octave_length baseF srate T acc k :
  length (shepard_octave baseF srate T acc k).2 = length acc.2.
Proof.
  unfold shepard_octave. destruct acc as [sum phases].
  destruct (Rgt_dec _ _); cbn; [reflexivity|]. apply length_insert.
Qed.

Lemma shepard_fold_length baseF srate T ks : forall acc,
  length (fold_left (shepard_octave baseF srate T) ks acc).2 = length acc.2.
Proof.
  induction ks as [|k ks IH]; intros acc; cbn; [reflexivity|].
  rewrite IH. apply shepard_octave_length.
Qed.

Lemma initKS_phases force s :
  shepardPhases (initKS Math_random force s) = shepardPhases s.
Proof. unfold initKS. destruct (_ && _); reflexivity. Qed.

Lemma sample_shaped i s l :
  ks_shaped s ->
  ks_shaped (sample Math_random i s l).1.2
  /\ length (shepardPhases (sample Math_random i s l).1.2)
     = length (shepardPhases s).
Proof.
  intros H. unfold sample.
  destruct (switch_case (formula s));
    try (cbn; split; [exact H|reflexivity]).
  - cbv zeta. cbn [fst snd]. split.
    + apply karplus_step_shaped, initKS_shaped. right. exact H.
    + cbn [shepardPhases set_ksIdx set_ksBuf]. rewrite initKS_phases.
      reflexivity.
  - destruct (Rge_dec _ _); cbn; split; (exact H || reflexivity).
  - pose proof (shepard_fold_length
                  (Rmax 20 (param (p s) "shepBase")) (sr s)
                  (if Rgt_dec (shepardT s + param (p s) "shepSpeed" / sr s) 1
                   then shepardT s + param (p s) "shepSpeed" / sr s - 1
                   else shepardT s + param (p s) "shepSpeed" / sr s)
                  (seq 0 (Z.to_nat (1 `max` (10 `min`
                     JS.floor (param (p s) "shepOctaves")))))
                  (0, shepardPhases s)) as Hlen.
    destruct (fold_left _ _ _) as [sum phases]. cbn in *.
    split; [exact H|exact Hlen].
Qed.

Lemma loop_shaped n : forall i s l,
  ks_shaped s ->
  ks_shaped (loop Math_random n i s l).1.2
  /\ length (shepardPhases (loop Math_random n i s l).1.2)
     = length (shepardPhases s).
Proof.
  induction n as [|n IH]; intros i s l H; [cbn; auto|].
  cbn [loop].
  destruct (sample_shaped i s l H) as [H1 H2].
  destruct (sample Math_random i s l) as [[x s1] l1]. cbn in H1, H2.
  specialize (IH (S i) s1 (advance (sr s1) l1) H1).
  destruct (loop Math_random n (S i) s1 _) as [[ys s2] l2]. cbn in *.
  destruct IH as [IH1 IH2]. split; [exact IH1|congruence].
Qed.

Lemma write_back_shaped s l : ks_shaped s -> ks_shaped (write_back s l).
Proof. intros (buf & H). exists buf. exact H. Qed.

Lemma process_shaped s n :
  ks_shaped s ->
  ks_shaped (process Math_random s n).1.2
  /\ length (shepardPhases (process Math_random s n).1.2)
     = length (shepardPhases s).
Proof.
  intros H. rewrite process_state.
  destruct (loop_shaped n 0 s (read_locals s) H) as [H1 H2].
  split; [apply write_back_shaped, H1|exact H2].
Qed.

Lemma constructor_eq o_formula o_params sampleRate rng0 :
  let id :=
    match o_formula with
    | Some f => if String.eqb f "" then "fm"%string else f
    | None => "fm"%string
    end in
  let s0 :=
    mkProcessor id sampleRate 0 0 0.33 0.1 0 0 None 0 0 0
      0 0 0 0 0 0 0 0 0 0 0.1 0 0 (replicate 10 0) 0
      (o_params ∪ default_params) rng0 in
  constructor Math_random o_formula o_params sampleRate rng0
  = mkProcessor id sampleRate 0 0 0.33 0.1 0 0
      (Some (ks_burst Math_random s0 rng0)) 0 (ksLength s0) 0
      0 0 0 0 0 0 0 0 0 0 0.1 0 0 (replicate 10 0) 0
      (o_params ∪ default_params) (rng0 + ksLength s0).
Proof.
  intros id s0. unfold constructor. fold id. fold s0.
  rewrite initKS_fresh by (left; reflexivity). reflexivity.
Qed.

Lemma resetState_eq s :
  resetState Math_random s
  = mkProcessor (formula s) (sr s) 0 0 0.33 0.1 0 0
      (Some (ks_burst Math_random s (rng s))) 0 (ksLength s) 0
      0 0 0 0 0 0 0 0 0 0 0.1 0 0
      (List.map (fun _ => 0) (shepardPhases s)) 0 (p s)
      (rng s + ksLength s).
Proof.
  unfold resetState. rewrite initKS_fresh by (left; reflexivity).
  reflexivity.
Qed.

Lemma running_well_formed s : running Math_random s -> well_formed s.
Proof.
  induction 1 as [o_formula o_params sr0 rng0|s msg _ IH|s n _ IH].
  - assert (Hd : declared_keys
                   (p (constructor Math_random o_formula o_params sr0 rng0))).
    { intros key Hkey. apply declared_keys_present_constructor, Hkey. }
    revert Hd. rewrite constructor_eq. intros Hd.
    repeat split; [|exact Hd|].
    + eexists. cbn. split; [reflexivity|]. unfold ks_burst.
      rewrite length_map, length_seq.
      match goal with |- context [ksLength ?s0] =>
        pose proof (ksLength_ge_2 s0) end.
      repeat split; lia.
    + cbn. destruct o_formula as [f|]; [|discriminate].
      destruct (String.eqb f "") eqn:E; [discriminate|].
      apply String.eqb_neq, E.
  - destruct IH as (Hk & Hs & Hd & Hf).
    destruct msg as [q|].
    + repeat split; try assumption.
      intros key Hkey. apply declared_keys_present_onmessage, Hd, Hkey.
    + cbn [onmessage]. rewrite resetState_eq. repeat split; try assumption.
      * eexists. cbn. split; [reflexivity|]. unfold ks_burst.
        rewrite length_map, length_seq. pose proof (ksLength_ge_2 s).
        repeat split; lia.
      * cbn. rewrite length_map. exact Hs.
  - destruct IH as (Hk & Hs & Hd & Hf).
    destruct (process_shaped s n Hk) as [Hk' Hs'].
    destruct (process_frame Math_random s n) as (Hf' & _ & Hp').
    cbn in Hf', Hp'.
    repeat split; [exact Hk'|congruence| |congruence].
    unfold declared_keys. rewrite Hp'. exact Hd.
Qed.

(** X7: in every state a generator reaches from its constructor by
    messages and [process] calls, the array reads of [process] are in range
    (the two reads of the Karplus-Strong buffer, at [ksIdx] and at
    [(ksIdx + 1) % N] after [initKS(false)], and the reads of the ten
    Shepard phases), every declared parameter is defined, and the formula id
    is not empty. *)
Theorem generator_reads_are_in_range s :
  running Math_random s ->
  let s1 := initKS Math_random false s in
  (exists buf,
     ksBuf s1 = Some buf
     /\ is_Some (buf !! ksIdx s1)
     /\ is_Some (buf !! ((ksIdx s1 + 1) mod ksN s1)%nat))
  /\ (forall k, (k < 10)%nat -> is_Some (shepardPhases s !! k))
  /\ (forall key, is_Some (default_params !! key) -> is_Some (p s !! key))
  /\ formula s <> ""%string.
Proof.
  intros H s1. destruct (running_well_formed s H) as (Hk & Hs & Hd & Hf).
  assert (Hk1 : ks_shaped s1) by (apply initKS_shaped; right; exact Hk).
  destruct Hk1 as (buf & Hb & Hl & HN & Hi).
  split; [|split; [|split]]; [|
    intros k Hlt; apply lookup_lt_is_Some; lia | exact Hd | exact Hf].
  exists buf. split; [exact Hb|].
  split; apply lookup_lt_is_Some; rewrite Hl; [exact Hi|].
  apply Nat.mod_upper_bound. lia.
Qed.

Lemma union_declared (q : Params) :
  declared_keys q -> q ∪ default_params = q.
Proof.
  intros Hd. apply map_eq. intros key. rewrite lookup_union.
  destruct (default_params !! key) as [d|] eqn:Ed.
  - destruct (Hd key) as [v Hv]; [rewrite Ed; eauto|]. rewrite Hv.
    reflexivity.
  - destruct (q !! key); reflexivity.
Qed.

(** X8: in every state a generator reaches, a ['reset'] message puts the
    processor in the state the constructor would build from the current
    formula id, the current parameter values and the current sample rate:
    a reset generator behaves as a newly made one, the parameters being
    kept. *)
Theorem reset_is_reconstruction s :
  running Math_random s ->
  onmessage Math_random s MsgReset
  = constructor Math_random (Some (formula s)) (p s) (sr s) (rng s).
Proof.
  intros H. destruct (running_well_formed s H) as (Hk & Hs & Hd & Hf).
  cbn [onmessage]. rewrite resetState_eq, constructor_eq. cbn zeta.
  apply String.eqb_neq in Hf. rewrite Hf.
  rewrite (union_declared _ Hd).
  replace (List.map (fun _ => 0) (shepardPhases s)) with (replicate 10 0).
  - reflexivity.
  - clear -Hs. destruct (shepardPhases s) as [|a0 [|a1 [|a2 [|a3 [|a4 [|a5
      [|a6 [|a7 [|a8 [|a9 [|a10 r]]]]]]]]]]]; try discriminate Hs.
    reflexivity.
Qed.

(** ** The clamped fields *)

Lemma initKS_clamped force s :
  let s' := initKS Math_random force s in
  brownVal s' = brownVal s /\ rx s' = rx s /\ ry s' = ry s /\ rz s' = rz s.
Proof. unfold initKS. destruct (_ && _); cbn; auto. Qed.

Lemma logistic_update_range r x : 0 <= logistic_update r x <= 1.
Proof. apply clamp_bounds. lra. Qed.

Lemma sample_clamped i s l :
  clamped_fields (write_back s l) ->
  clamped_fields
    (write_back (sample Math_random i s l).1.2 (sample Math_random i s l).2).
Proof.
  intros Hc. unfold sample.
  destruct (switch_case (formula s)); try (cbn; exact Hc).
  - destruct Hc as (Hc0 & Hc). cbn. split; [|exact Hc].
    destruct (_ =? _)%Z; [apply logistic_update_range|exact Hc0].
  - cbv zeta. cbn [fst snd].
    destruct (initKS_clamped false s) as (Hb & Hx & Hy & Hz).
    unfold clamped_fields in *. cbn in *.
    rewrite Hb, Hx, Hy, Hz. exact Hc.
  - destruct Hc as (Hc0 & Hc1 & Hc2 & Hc3 & Hc4).
    unfold clamped_fields. cbv zeta.
    cbn [fst snd write_back set_locals set_brownVal set_rossler random
         set_rng logi brownVal rx ry rz] in *.
    repeat (split; [first [assumption | apply clamp_bounds; lra]|]);
      first [assumption | apply clamp_bounds; lra].
  - cbv zeta. destruct (Rge_dec _ _); cbn; exact Hc.
  - destruct Hc as (Hc0 & Hc1 & Hc2 & Hc3 & Hc4).
    unfold clamped_fields. cbv zeta.
    cbn [fst snd write_back set_locals set_brownVal set_rossler random
         set_rng logi brownVal rx ry rz] in *.
    repeat (split; [first [assumption | apply clamp_bounds; lra]|]);
      first [assumption | apply clamp_bounds; lra].
  - cbv zeta. destruct (fold_left _ _ _). cbn. exact Hc.
Qed.

Lemma advance_clamped s srate l :
  clamped_fields (write_back s l) ->
  clamped_fields (write_back s (advance srate l)).
Proof.
  unfold clamped_fields. cbn. rewrite advance_logi. auto.
Qed.

Lemma loop_clamped n : forall i s l,
  clamped_fields (write_back s l) ->
  clamped_fields
    (write_back (loop Math_random n i s l).1.2 (loop Math_random n i s l).2).
Proof.
  induction n as [|n IH]; intros i s l H; [exact H|].
  cbn [loop].
  pose proof (sample_clamped i s l H) as Hs.
  destruct (sample Math_random i s l) as [[x s1] l1]. cbn [fst snd] in Hs.
  specialize (IH (S i) s1 (advance (sr s1) l1) (advance_clamped _ _ _ Hs)).
  destruct (loop Math_random n (S i) s1 _) as [[ys s2] l2]. exact IH.
Qed.

(** X9: in every state a generator reaches, whatever the parameters, the
    host's random values and the sample rate, the logistic value lies in
    [0, 1], the brown-noise accumulator in [-1, 1] and the three Rossler
    coordinates in [-50, 50]. *)
Theorem clamped_fields_stay_in_range s :
  running Math_random s -> clamped_fields s.
Proof.
  induction 1 as [o_formula o_params sr0 rng0|s msg _ IH|s n _ IH].
  - rewrite constructor_eq. unfold clamped_fields. cbn. lra.
  - destruct msg as [q|]; [exact IH|].
    cbn [onmessage]. rewrite resetState_eq. unfold clamped_fields. cbn. lra.
  - rewrite process_state. apply loop_clamped. exact IH.
Qed.

(** ** The Karplus-Strong string *)

Lemma sample_karplus i s l :
  switch_case (formula s) = CaseKarplus ->
  let s1 := initKS Math_random false s in
  exists v,
    sample Math_random i s l
    = (f32_get (default [] (ksBuf s1)) (ksIdx s1),
       set_ksIdx (set_ksBuf s1 (<[ksIdx s1 := v]> (default [] (ksBuf s1))))
         ((ksIdx s1 + 1) mod ksN s1),
       l).
Proof.
  intros H s1. unfold sample. rewrite H. cbv zeta. fold s1.
  eexists. reflexivity.
Qed.

Lemma sample_karplus_keep i s l buf :
  switch_case (formula s) = CaseKarplus ->
  ksBuf s = Some buf -> ks_shaped s -> ksN s = ksLength s ->
  exists v,
    sample Math_random i s l
    = (f32_get buf (ksIdx s),
       set_ksIdx (set_ksBuf s (<[ksIdx s := v]> buf))
         ((ksIdx s + 1) mod ksN s),
       l).
Proof.
  intros H Hb Hk Hn. destruct (sample_karplus i s l H) as [v Hv].
  cbv zeta in Hv. rewrite (initKS_keep s Hk Hn), Hb in Hv.
  exists v. exact Hv.
Qed.

Lemma karplus_run m : forall i s l buf,
  switch_case (formula s) = CaseKarplus ->
  ksBuf s = Some buf -> ks_shaped s -> ksN s = ksLength s ->
  (ksIdx s + m <= ksN s)%nat ->
  raw_samples Math_random m i s l = take m (drop (ksIdx s) buf).
Proof.
  induction m as [|m IH]; intros i s l buf H Hb Hk Hn Hm; [reflexivity|].
  rewrite raw_samples_S.
  destruct (sample_karplus_keep i s l buf H Hb Hk Hn) as [v ->].
  destruct Hk as (buf' & Hb' & Hl & HN & Hi).
  assert (buf' = buf) as -> by congruence.
  destruct (lookup_lt_is_Some_2 buf (ksIdx s)) as [y Hy]; [lia|].
  rewrite (drop_S _ _ _ Hy). cbn [take]. f_equal.
  { unfold f32_get. rewrite Hy. reflexivity. }
  destruct m as [|m]; [reflexivity|].
  set (s' := set_ksIdx _ _).
  assert (Hidx : ksIdx s' = S (ksIdx s)).
  { subst s'. cbn. rewrite Nat.mod_small by lia. lia. }
  rewrite (IH _ s' _ (<[ksIdx s := v]> buf)).
  - rewrite Hidx, drop_insert_lt by lia. reflexivity.
  - exact H.
  - reflexivity.
  - exists (<[ksIdx s := v]> buf). subst s'. cbn.
    rewrite length_insert. repeat split; [exact Hl|exact HN|].
    apply Nat.mod_upper_bound. lia.
  - exact Hn.
  - rewrite Hidx. change (ksN s') with (ksN s). lia.
Qed.

(** X10: the first period of a plucked string is the noise burst itself.
    For the formula ['karplus'], while the buffer length matches the current
    frequency, the values of the next samples are the elements of the buffer
    from [ksIdx] on, in order, up to the end of the buffer; from [ksIdx = 0]
    the first [ksN] values are the whole buffer. *)
Theorem karplus_first_period_is_buffer i s l buf m :
  switch_case (formula s) = CaseKarplus ->
  ksBuf s = Some buf -> ks_shaped s -> ksN s = ksLength s ->
  (ksIdx s + m <= ksN s)%nat ->
  raw_samples Math_random m i s l = take m (drop (ksIdx s) buf)
  /\ (ksIdx s = 0%nat -> raw_samples Math_random (ksN s) i s l = buf).
Proof.
  intros H Hb Hk Hn Hm. split; [apply karplus_run; assumption|].
  intros H0. rewrite (karplus_run (ksN s) i s l buf H Hb Hk Hn) by lia.
  rewrite H0, drop_0. apply take_ge.
  destruct Hk as (buf' & Hb' & Hl & _). assert (buf' = buf) by congruence.
  subst buf'. lia.
Qed.

Lemma sample_karplus_draws i s l :
  switch_case (formula s) = CaseKarplus -> ks_shaped s ->
  let s' := (sample Math_random i s l).1.2 in
  ks_shaped s' /\ ksN s' = ksLength s
  /\ rng s'
     = if decide (ksN s = ksLength s) then rng s
       else (rng s + ksLength s)%nat.
Proof.
  intros H Hk. destruct (sample_karplus i s l H) as [v Hv].
  cbv zeta in *. rewrite Hv. cbn [fst snd].
  split.
  { apply karplus_step_shaped, initKS_shaped. right. exact Hk. }
  cbn [ksN rng set_ksIdx set_ksBuf].
  destruct (decide (ksN s = ksLength s)) as [Hn|Hn].
  - rewrite (initKS_keep s Hk Hn). auto.
  - rewrite initKS_fresh by (right; exact Hn). cbn. auto.
Qed.

Lemma loop_karplus_keep n : forall i s l,
  switch_case (formula s) = CaseKarplus -> ks_shaped s ->
  ksN s = ksLength s ->
  let s' := (loop Math_random n i s l).1.2 in
  ksN s' = ksN s /\ rng s' = rng s.
Proof.
  induction n as [|n IH]; intros i s l H Hk Hn; [cbn; auto|].
  cbn zeta. cbn [loop].
  pose proof (sample_karplus_draws i s l H Hk) as (Hk1 & Hn1 & Hr1).
  pose proof (sample_frame Math_random i s l) as (Hf & Hsr & Hp).
  destruct (sample Math_random i s l) as [[x s1] l1].
  cbn [fst snd] in Hk1, Hn1, Hr1, Hf, Hsr, Hp.
  rewrite decide_True in Hr1 by exact Hn.
  assert (Hlen : ksLength s1 = ksLength s) by (apply ksLength_frame; auto).
  specialize (IH (S i) s1 (advance (sr s1) l1)).
  cbn zeta in IH.
  destruct (loop Math_random n (S i) s1 _) as [[ys s2] l2]. cbn [fst snd] in *.
  destruct IH as [I1 I2]; [congruence|exact Hk1|congruence|].
  split; congruence.
Qed.

(** X11: for the formula ['karplus'], a block re-plucks the string exactly
    when the buffer length asked for by the current [ksFreq] and sample rate
    differs from the allocated one: the buffer then has the new length and
    that many values are taken from [Math.random]; otherwise the length is
    kept and no random value is taken. *)
Theorem karplus_replucks_on_length_change s n :
  switch_case (formula s) = CaseKarplus -> ks_shaped s -> (0 < n)%nat ->
  let s' := (process Math_random s n).1.2 in
  ksN s' = ksLength s
  /\ rng s'
     = if decide (ksN s = ksLength s) then rng s
       else (rng s + ksLength s)%nat.
Proof.
  intros H Hk Hn. cbn zeta. rewrite process_state.
  change (ksN (write_back ?a ?b)) with (ksN a).
  change (rng (write_back ?a ?b)) with (rng a).
  destruct n as [|n]; [lia|]. cbn [loop].
  pose proof (sample_karplus_draws 0 s (read_locals s) H Hk)
    as (Hk1 & Hn1 & Hr1).
  pose proof (sample_frame Math_random 0 s (read_locals s)) as (Hf & Hsr & Hp).
  destruct (sample Math_random 0 s (read_locals s)) as [[x s1] l1].
  cbn [fst snd] in Hk1, Hn1, Hr1, Hf, Hsr, Hp.
  assert (Hlen : ksLength s1 = ksLength s) by (apply ksLength_frame; auto).
  pose proof (loop_karplus_keep n 1 s1 (advance (sr s1) l1)) as IH.
  cbn zeta in IH.
  destruct (loop Math_random n 1 s1 _) as [[ys s2] l2]. cbn [fst snd] in *.
  destruct IH as [I1 I2]; [congruence|exact Hk1|congruence|].
  split; congruence.
Qed.

(** ** The formulas fed by the host's random values *)

Section Unit_random.

Hypothesis random_range : forall k, 0 <= Math_random k <= 1.

Lemma burst_unit s r :
  Forall (fun x => -1 <= x <= 1) (ks_burst Math_random s r).
Proof.
  unfold ks_burst. apply Forall_map, Forall_forall. intros i _. cbn.
  specialize (random_range (r + i)%nat). lra.
Qed.

Lemma initKS_unit force s :
  (forall buf, ksBuf s = Some buf -> Forall (fun x => -1 <= x <= 1) buf) ->
  forall buf,
    ksBuf (initKS Math_random force s) = Some buf ->
    Forall (fun x => -1 <= x <= 1) buf.
Proof.
  intros H buf. unfold initKS. destruct (_ && _); [apply H|].
  cbn. intros E. injection E as <-. apply (burst_unit s (rng s)).
Qed.

Lemma f32_get_unit buf i :
  Forall (fun x => -1 <= x <= 1) buf -> -1 <= f32_get buf i <= 1.
Proof.
  intros H. unfold f32_get. destruct (buf !! i) as [x|] eqn:E; cbn; [|lra].
  exact (proj1 (Forall_lookup _ _) H i x E).
Qed.

Lemma karplus_next_unit damp bright y0 y1 :
  0.8 <= damp <= 0.99999 -> 0 <= bright <= 1 ->
  -1 <= y0 <= 1 -> -1 <= y1 <= 1 ->
  -1 <= damp * (bright * y0 + (1 - bright) * (0.5 * (y0 + y1))) <= 1.
Proof.
  intros Hd Hb H0 H1.
  set (avg := 0.5 * (y0 + y1)). assert (Ha : -1 <= avg <= 1) by (unfold avg; lra).
  set (m := bright * y0 + (1 - bright) * avg).
  assert (Hm : -1 <= m <= 1).
  { unfold m. split.
    - assert (0 <= bright * (y0 + 1)) by (apply Rmult_le_pos; lra).
      assert (0 <= (1 - bright) * (avg + 1)) by (apply Rmult_le_pos; lra).
      lra.
    - assert (0 <= bright * (1 - y0)) by (apply Rmult_le_pos; lra).
      assert (0 <= (1 - bright) * (1 - avg)) by (apply Rmult_le_pos; lra).
      lra. }
  split.
  - assert (0 <= damp * (m + 1)) by (apply Rmult_le_pos; lra). lra.
  - assert (0 <= damp * (1 - m)) by (apply Rmult_le_pos; lra). lra.
Qed.

Lemma sample_karplus_unit i s l :
  switch_case (formula s) = CaseKarplus ->
  (forall buf, ksBuf s = Some buf -> Forall (fun x => -1 <= x <= 1) buf) ->
  -1 <= (sample Math_random i s l).1.1 <= 1
  /\ forall buf,
       ksBuf (sample Math_random i s l).1.2 = Some buf ->
       Forall (fun x => -1 <= x <= 1) buf.
Proof.
  intros H Hs. unfold sample. rewrite H. cbv zeta. cbn [fst snd].
  pose proof (initKS_unit false s Hs) as H1.
  set (s1 := initKS Math_random false s) in *.
  assert (Hb : Forall (fun x => -1 <= x <= 1) (default [] (ksBuf s1))).
  { destruct (ksBuf s1) as [b|]; cbn; [apply H1; reflexivity|constructor]. }
  split; [apply f32_get_unit, Hb|].
  intros buf E. cbn in E. injection E as <-.
  apply Forall_insert; [exact Hb|].
  apply karplus_next_unit;
    first [apply clamp_bounds; lra | apply f32_get_unit, Hb].
Qed.

Lemma raw_karplus_unit n : forall i s l,
  switch_case (formula s) = CaseKarplus ->
  (forall buf, ksBuf s = Some buf -> Forall (fun x => -1 <= x <= 1) buf) ->
  Forall (fun x => -1 <= x <= 1) (raw_samples Math_random n i s l).
Proof.
  induction n as [|n IH]; intros i s l H Hs; [constructor|].
  rewrite raw_samples_S.
  destruct (sample_karplus_unit i s l H Hs) as [Hx Hs'].
  pose proof (sample_frame Math_random i s l) as (Hf & _ & _).
  destruct (sample Math_random i s l) as [[x s1] l1].
  cbn [fst snd] in Hx, Hs', Hf.
  constructor; [exact Hx|]. apply IH; [rewrite Hf; exact H|exact Hs'].
Qed.

Lemma noiselp_coefficient cut srate :
  0 < srate -> 20 <= cut <= 18000 ->
  0 <= 1 - exp (-2 * PI * cut / srate) <= 1.
Proof.
  intros Hsr Hc. pose proof (exp_pos (-2 * PI * cut / srate)) as Hpos.
  assert (exp (-2 * PI * cut / srate) <= 1); [|lra].
  apply exp_le_1. pose proof PI_RGT_0 as Hpi.
  assert (0 < PI * cut) by nra.
  assert (0 < / srate) by (apply Rinv_0_lt_compat, Hsr).
  unfold Rdiv. nra.
Qed.

Lemma sample_noiselp_unit i s l :
  switch_case (formula s) = CaseNoiselp -> 0 < sr s ->
  -1 <= l_nlp l <= 1 ->
  -1 <= (sample Math_random i s l).1.1 <= 1
  /\ -1 <= l_nlp (sample Math_random i s l).2 <= 1.
Proof.
  intros H Hsr Hl. unfold sample. rewrite H. cbv zeta.
  cbn [random fst snd l_nlp with_nlp].
  pose proof (noiselp_coefficient
                (JS.clamp (param (p s) "nCut") 20 18000) (sr s) Hsr
                (clamp_bounds _ 20 18000 ltac:(lra))) as Ha.
  specialize (random_range (rng s)).
  set (a := 1 - exp _) in *. set (w := Math_random (rng s) * 2 - 1).
  assert (-1 <= w <= 1) by (unfold w; lra).
  assert (-1 <= l_nlp l + a * (w - l_nlp l) <= 1) by nra.
  split; assumption.
Qed.

Lemma advance_nlp srate l : l_nlp (advance srate l) = l_nlp l.
Proof. unfold advance. destruct (Rgt_dec _ _); reflexivity. Qed.

Lemma raw_noiselp_unit n : forall i s l,
  switch_case (formula s) = CaseNoiselp -> 0 < sr s ->
  -1 <= l_nlp l <= 1 ->
  Forall (fun x => -1 <= x <= 1) (raw_samples Math_random n i s l).
Proof.
  induction n as [|n IH]; intros i s l H Hsr Hl; [constructor|].
  rewrite raw_samples_S.
  destruct (sample_noiselp_unit i s l H Hsr Hl) as [Hx Hl'].
  pose proof (sample_frame Math_random i s l) as (Hf & Hr & _).
  destruct (sample Math_random i s l) as [[x s1] l1].
  cbn [fst snd] in Hx, Hl', Hf, Hr.
  constructor; [exact Hx|].
  apply IH; [rewrite Hf; exact H|rewrite Hr; exact Hsr|].
  rewrite advance_nlp. exact Hl'.
Qed.

(** X23: with random values in [0, 1], a plucked string never exceeds the
    unit range.  For the formula ['karplus'], when the buffer holds values
    of [-1, 1] (as it does after any pluck), every value of the formula lies
    in [-1, 1], whatever the damping and brightness parameters: they are
    clamped, and each new buffer element is a damped average of two old
    ones. *)
Theorem karplus_stays_in_unit_range s n :
  switch_case (formula s) = CaseKarplus ->
  (forall buf, ksBuf s = Some buf -> Forall (fun x => -1 <= x <= 1) buf) ->
  Forall (fun x => -1 <= x <= 1)
    (raw_samples Math_random n 0 s (read_locals s))
  /\ forall buf,
       ksBuf (process Math_random s n).1.2 = Some buf ->
       Forall (fun x => -1 <= x <= 1) buf.
Proof.
  intros H Hs. split; [apply raw_karplus_unit; assumption|].
  rewrite process_state.
  change (ksBuf (write_back ?a ?b)) with (ksBuf a).
  generalize (read_locals s) as l. generalize 0%nat as i.
  revert s H Hs. induction n as [|n IH]; intros s H Hs i l; [exact Hs|].
  cbn [loop].
  destruct (sample_karplus_unit i s l H Hs) as [_ Hs'].
  pose proof (sample_frame Math_random i s l) as (Hf & _ & _).
  destruct (sample Math_random i s l) as [[x s1] l1].
  cbn [fst snd] in Hs', Hf.
  specialize (IH s1 ltac:(rewrite Hf; exact H) Hs' (S i)
                (advance (sr s1) l1)).
  destruct (loop Math_random n (S i) s1 _) as [[ys s2] l2]. exact IH.
Qed.

(** X24: with random values in [0, 1] and a positive sample rate, the
    low-passed noise never exceeds the unit range.  For the formula
    ['noiselp'], when the filter state starts in [-1, 1] (it starts at 0),
    every value of the formula lies in [-1, 1], whatever the cut-off: the
    one-pole coefficient [1 - exp(-2 PI cut / sr)] is in [0, 1] and each
    value is a weighted mean of the last one and the new white sample. *)
Theorem noiselp_stays_in_unit_range s n :
  switch_case (formula s) = CaseNoiselp -> 0 < sr s -> -1 <= nlp s <= 1 ->
  Forall (fun x => -1 <= x <= 1)
    (raw_samples Math_random n 0 s (read_locals s))
  /\ Forall (fun y => Rabs y <= Rabs (gain_or_default (p s)))
       (process Math_random s n).1.1.
Proof.
  intros H Hsr Hl.
  pose proof (raw_noiselp_unit n 0 s (read_locals s) H Hsr Hl) as Hraw.
  split; [exact Hraw|].
  rewrite process_out, loop_scaled. apply Forall_map.
  eapply Forall_impl; [exact Hraw|]. intros x Hx. cbn.
  rewrite Rabs_mult.
  rewrite <- (Rmult_1_l (Rabs (gain_or_default (p s)))) at 2.
  apply Rmult_le_compat_r; [apply Rabs_pos|]. apply Rabs_le. exact Hx.
Qed.

End Unit_random.

End Host.

(** ** Concrete runs *)

Lemma karplus_example_running : running JS.zero_random karplus_example.
Proof. apply running_constructor. Qed.

Lemma stateless_formula_block_witness :
  closed_form (switch_case (formula additive_example)) = Some additive_sample
  /\ (process JS.zero_random additive_example 128).1.1
     = List.map
         (fun k =>
            additive_sample (p additive_example)
              (t additive_example + INR k * (1 / sr additive_example))
            * gain_or_default (p additive_example))
         (seq 0 128).
Proof.
  split; [reflexivity|].
  apply (stateless_formula_block JS.zero_random additive_example 128
           additive_sample).
  reflexivity.
Defined.

Lemma unit_range_formulas_bounded_by_gain_witness :
  (switch_case (formula Examples.fm_example) ∈ unit_range_cases)
  /\ Forall (fun x => -1 <= x <= 1)
       (raw_samples JS.zero_random 128 0 Examples.fm_example
          (read_locals Examples.fm_example))
  /\ Forall
       (fun y => Rabs y <= Rabs (gain_or_default (p Examples.fm_example)))
       (process JS.zero_random Examples.fm_example 128).1.1.
Proof.
  assert (H : switch_case (formula Examples.fm_example) ∈ unit_range_cases).
  { change (switch_case (formula Examples.fm_example)) with CaseFm.
    apply list_elem_of_here. }
  split; [exact H|].
  apply (unit_range_formulas_bounded_by_gain JS.zero_random
           Examples.fm_example 128 H).
Defined.

Lemma random_draws_per_block_witness :
  ((switch_case (formula Examples.fm_example) ∈ deterministic_cases)
   /\ rng (process JS.zero_random Examples.fm_example 128).1.2
      = rng Examples.fm_example)
  /\ ((switch_case (formula Examples.noiselp_example) ∈ one_draw_cases)
      /\ rng (process JS.zero_random Examples.noiselp_example 128).1.2
         = (rng Examples.noiselp_example + 128)%nat)
  /\ (switch_case (formula Examples.velvet_example) = CaseVelvetnoise
      /\ rng (process JS.zero_random Examples.velvet_example 128).1.2
         = (rng Examples.velvet_example
            + 2 * impulses
                    (raw_samples JS.zero_random 128 0 Examples.velvet_example
                       (read_locals Examples.velvet_example)))%nat).
Proof.
  assert (H1 : switch_case (formula Examples.fm_example)
               ∈ deterministic_cases).
  { change (switch_case (formula Examples.fm_example)) with CaseFm.
    apply list_elem_of_here. }
  assert (H2 : switch_case (formula Examples.noiselp_example)
               ∈ one_draw_cases).
  { change (switch_case (formula Examples.noiselp_example))
      with CaseNoiselp.
    apply list_elem_of_here. }
  assert (H3 : switch_case (formula Examples.velvet_example)
               = CaseVelvetnoise) by reflexivity.
  split; [split; [exact H1|]|split; [split; [exact H2|]|split; [exact H3|]]].
  - apply (random_draws_per_block JS.zero_random Examples.fm_example 128).
    exact H1.
  - apply (random_draws_per_block JS.zero_random Examples.noiselp_example
             128).
    exact H2.
  - apply (random_draws_per_block JS.zero_random Examples.velvet_example
             128).
    exact H3.
Defined.


Lemma generator_reads_are_in_range_witness :
  running JS.zero_random karplus_example
  /\ formula karplus_example <> ""%string.
Proof.
  split; [apply running_constructor|].
  apply (generator_reads_are_in_range JS.zero_random karplus_example).
  apply running_constructor.
Defined.

Lemma reset_is_reconstruction_witness :
  running JS.zero_random karplus_example
  /\ onmessage JS.zero_random karplus_example MsgReset
     = constructor JS.zero_random (Some (formula karplus_example))
         (p karplus_example) (sr karplus_example) (rng karplus_example).
Proof.
  split; [apply running_constructor|].
  apply (reset_is_reconstruction JS.zero_random karplus_example).
  apply running_constructor.
Defined.

Lemma clamped_fields_stay_in_range_witness :
  running JS.zero_random (process JS.zero_random karplus_example 128).1.2
  /\ clamped_fields (process JS.zero_random karplus_example 128).1.2.
Proof.
  assert (H : running JS.zero_random
                (process JS.zero_random karplus_example 128).1.2).
  { apply running_process, running_constructor. }
  split; [exact H|].
  apply (clamped_fields_stay_in_range JS.zero_random _ H).
Defined.

Lemma karplus_example_shaped : ks_shaped karplus_example.
Proof. apply (running_well_formed _ _ karplus_example_running). Qed.

Lemma karplus_first_period_is_buffer_witness :
  let buf := ks_burst JS.zero_random karplus_example 0 in
  switch_case (formula karplus_example) = CaseKarplus
  /\ ksBuf karplus_example = Some buf
  /\ ks_shaped karplus_example
  /\ ksN karplus_example = ksLength karplus_example
  /\ (ksIdx karplus_example + 2 <= ksN karplus_example)%nat
  /\ raw_samples JS.zero_random 2 0 karplus_example
       (read_locals karplus_example)
     = take 2 (drop (ksIdx karplus_example) buf).
Proof.
  intros buf.
  assert (H1 : switch_case (formula karplus_example) = CaseKarplus)
    by reflexivity.
  assert (H2 : ksBuf karplus_example = Some buf) by reflexivity.
  assert (H3 : ks_shaped karplus_example) by apply karplus_example_shaped.
  assert (H4 : ksN karplus_example = ksLength karplus_example)
    by reflexivity.
  assert (H5 : (ksIdx karplus_example + 2 <= ksN karplus_example)%nat).
  { rewrite H4. pose proof (ksLength_ge_2 karplus_example) as H.
    change (ksIdx karplus_example) with 0%nat. lia. }
  repeat (split; [assumption|]).
  apply (karplus_first_period_is_buffer JS.zero_random 0 karplus_example
           (read_locals karplus_example) buf 2 H1 H2 H3 H4 H5).
Defined.

Lemma karplus_replucks_on_length_change_witness :
  switch_case (formula karplus_example) = CaseKarplus
  /\ ks_shaped karplus_example
  /\ (0 < 128)%nat
  /\ ksN (process JS.zero_random karplus_example 128).1.2
     = ksLength karplus_example.
Proof.
  assert (H1 : switch_case (formula karplus_example) = CaseKarplus)
    by reflexivity.
  assert (H2 : ks_shaped karplus_example) by apply karplus_example_shaped.
  assert (H3 : (0 < 128)%nat) by lia.
  repeat (split; [assumption|]).
  apply (karplus_replucks_on_length_change JS.zero_random karplus_example 128
           H1 H2 H3).
Defined.

Lemma zero_random_range k : 0 <= JS.zero_random k <= 1.
Proof. unfold JS.zero_random. lra. Qed.

Lemma karplus_stays_in_unit_range_witness :
  (forall k, 0 <= JS.zero_random k <= 1)
  /\ switch_case (formula karplus_example) = CaseKarplus
  /\ (forall buf,
        ksBuf karplus_example = Some buf ->
        Forall (fun x => -1 <= x <= 1) buf)
  /\ Forall (fun x => -1 <= x <= 1)
       (raw_samples JS.zero_random 128 0 karplus_example
          (read_locals karplus_example)).
Proof.
  assert (H1 : switch_case (formula karplus_example) = CaseKarplus)
    by reflexivity.
  assert (H2 : forall buf,
             ksBuf karplus_example = Some buf ->
             Forall (fun x => -1 <= x <= 1) buf).
  { intros buf E.
    assert (E' : ksBuf karplus_example
                 = Some (ks_burst JS.zero_random karplus_example 0))
      by reflexivity.
    assert (buf = ks_burst JS.zero_random karplus_example 0) as ->
      by congruence.
    apply burst_unit, zero_random_range. }
  split; [exact zero_random_range|]. split; [exact H1|]. split; [exact H2|].
  exact (proj1 (karplus_stays_in_unit_range JS.zero_random zero_random_range
                  karplus_example 128 H1 H2)).
Defined.

Lemma noiselp_stays_in_unit_range_witness :
  (forall k, 0 <= JS.zero_random k <= 1)
  /\ switch_case (formula Examples.noiselp_example) = CaseNoiselp
  /\ 0 < sr Examples.noiselp_example
  /\ -1 <= nlp Examples.noiselp_example <= 1
  /\ Forall (fun x => -1 <= x <= 1)
       (raw_samples JS.zero_random 128 0 Examples.noiselp_example
          (read_locals Examples.noiselp_example)).
Proof.
  assert (H1 : switch_case (formula Examples.noiselp_example) = CaseNoiselp)
    by reflexivity.
  assert (H2 : 0 < sr Examples.noiselp_example).
  { change (sr Examples.noiselp_example) with 44100. lra. }
  assert (H3 : -1 <= nlp Examples.noiselp_example <= 1).
  { change (nlp Examples.noiselp_example) with 0. lra. }
  split; [exact zero_random_range|]. split; [exact H1|]. split; [exact H2|].
  split; [exact H3|].
  exact (proj1 (noiselp_stays_in_unit_range JS.zero_random zero_random_range
                  Examples.noiselp_example 128 H1 H2 H3)).
Defined.

End GeneratorTheory.

(** * Properties of the chain over its life *)

Module ChainLifeTheory.

Import EffectsChain Chain ChainTheory.

(** ** The phaser's filters *)

Lemma setDepth_at_bank fr ph i :
  Phaser.filters ph = allpass_bank ->
  Phaser.filters (Phaser.setDepth_at fr ph i) = allpass_bank.
Proof.
  intros H.
  change (Phaser.filters (Phaser.setDepth_at fr ph i))
    with (alter (fun f => mkBiquad (bq_type f) 1000 (bq_Q f)) i
            (Phaser.filters ph)).
  rewrite H. apply list_eq. intros j.
  destruct (decide (j = i)) as [->|Hne].
  - rewrite list_lookup_alter_eq. unfold allpass_bank.
    destruct (decide (i < Phaser.MAX_STAGES)%nat).
    + rewrite lookup_replicate_2 by lia. reflexivity.
    + rewrite lookup_ge_None_2 by (rewrite length_replicate; lia). reflexivity.
  - rewrite list_lookup_alter_ne by congruence. reflexivity.
Qed.

Lemma setDepth_fold_bank fr is_ : forall ph,
  Phaser.filters ph = allpass_bank ->
  Phaser.filters (fold_left (Phaser.setDepth_at fr) is_ ph) = allpass_bank.
Proof.
  induction is_ as [|i is_ IH]; intros ph H; cbn; [exact H|].
  apply IH, setDepth_at_bank, H.
Qed.

Lemma setDepth_fold_rate fr is_ : forall ph,
  Phaser.lfo_frequency (fold_left (Phaser.setDepth_at fr) is_ ph)
  = Phaser.lfo_frequency ph.
Proof.
  induction is_ as [|i is_ IH]; intros ph; cbn; [reflexivity|].
  rewrite IH. reflexivity.
Qed.

Lemma phaser_update_settings rate depth stages fb mix ph :
  Phaser.filters ph = allpass_bank -> full_bank ph ->
  Phaser.update rate depth stages fb mix ph
  = Phaser.mk allpass_bank rate
      (replicate Phaser.MAX_STAGES (3000 * depth)) (1 - mix) mix fb.
Proof.
  intros Hf Hb.
  destruct (phaser_update_bank rate depth stages fb mix ph Hb) as [_ Hg].
  revert Hg. unfold Phaser.update, Phaser.setMix, Phaser.setFeedback.
  cbn [Phaser.lfoGains Phaser.filters Phaser.lfo_frequency].
  intros ->. f_equal.
  - apply setDepth_fold_bank. exact Hf.
  - apply setDepth_fold_rate.
Qed.

(** ** Gain nodes made by rebuilds *)

Lemma wire_through_keeps calls out w e :
  e ∈ w_edges w -> e ∈ w_edges (wire_through calls out w).
Proof. intros H. cbn. apply elem_of_connect_all. right. exact H. Qed.

Lemma wire_mixed_keeps s calls w e :
  e ∈ w_edges w -> e ∈ w_edges (wire_mixed s calls w).
Proof. intros H. cbn. apply elem_of_connect_all. right. exact H. Qed.

Lemma rebuild_keeps state c e :
  e ∈ disconnectAll c -> e ∈ connections (rebuild state c).
Proof.
  intros H. unfold rebuild. cbn [connections].
  apply elem_of_connect. right.
  repeat match goal with
  | |- _ ∈ w_edges (if ?b then _ else _) => destruct b
  | |- _ ∈ w_edges (wire_through _ _ _) => apply wire_through_keeps
  | |- _ ∈ w_edges (wire_mixed _ _ _) => apply wire_mixed_keeps
  end; exact H.
Qed.

Lemma sum_not_disconnected c n : is_sum n = true -> n ∉ disconnected c.
Proof.
  intros Hs Hin. unfold disconnected in Hin.
  rewrite !elem_of_app in Hin. destruct Hin as [Hin|[Hin|Hin]].
  - repeat (apply elem_of_cons in Hin as [->|Hin]; [discriminate Hs|]).
    apply elem_of_nil in Hin as [].
  - unfold allFilters in Hin. apply list_elem_of_fmap in Hin as (i & -> & _).
    discriminate Hs.
  - apply list_elem_of_singleton in Hin as ->. discriminate Hs.
Qed.

Lemma rebuild_created state c :
  created (rebuild state c) = (created c + sums_made state)%nat.
Proof.
  unfold rebuild, sums_made. cbn [created mixed_stages List.filter enabled].
  destruct (filterOn state), (chorusOn state), (phaserOn state),
    (delayOn state), (reverbOn state), (limiterOn state); cbn; lia.
Qed.

Lemma rebuild_keeps_sums state c e :
  e ∈ connections c -> is_sum e.1 = true ->
  e ∈ connections (rebuild state c).
Proof.
  intros He Hs. apply rebuild_keeps. apply elem_of_disconnect_list.
  split; [exact He|]. apply sum_not_disconnected, Hs.
Qed.

Section Host.

Variable Math_random : nat -> R.

Lemma chain_state_fixed c :
  chain_state Math_random c ->
  Phaser.filters (phaser c) = allpass_bank
  /\ Limiter.ratio (limiter c) = 20
  /\ Limiter.attack (limiter c) = 0.003
  /\ Limiter.knee (limiter c) = 0.
Proof.
  induction 1 as [sr rng0|state c _ IH|state c _ IH].
  - repeat split.
  - exact IH.
  - destruct IH as (Hf & Hr & Ha & Hk).
    unfold updateParams. destruct (Reverb.update _ _ _ _ _ _) as [r' g'].
    cbn [phaser limiter]. split; [|cbn; auto].
    apply setDepth_fold_bank. exact Hf.
Qed.

(** X12: a parameter update is memoryless.  In every state of the chain,
    after [updateParams(state)] the settings of the stages are those written
    in [state], whatever they were before: the filter's type, frequency and
    Q; the chorus base delay (12 ms, or 2 ms as a flanger), rate and depth in
    seconds; the delay time and feedback; for each dry/wet stage a dry gain
    of [1 - mix] beside the wet gain [mix]; the limiter's threshold and
    release, its ratio 20, attack 0.003 and knee 0 being fixed; and for the
    phaser eight all-pass filters at 1000 Hz with Q 0.5 and eight LFO gains
    of [3000 * depth]. *)
Theorem update_settings_are_memoryless state c :
  chain_state Math_random c ->
  let c' := updateParams Math_random state c in
  filter c'
  = Filter.mk (mkBiquad (filterType state) (filterFreq state) (filterQ state))
  /\ chorus c'
     = Chorus.mk
         (match chorusMode state with
          | flanger_mode => 2.0
          | chorus_mode => 12.0
          end / 1000)
         (chorusRate state) (chorusDepth state / 1000)
         (1 - chorusMix state) (chorusMix state) (chorusFb state)
  /\ delay c'
     = Delay.mk (delayTime state) (1 - delayMix state) (delayMix state)
         (delayFb state)
  /\ limiter c' = Limiter.mk (limiterThr state) (limiterRel state) 20 0.003 0
  /\ phaser c'
     = Phaser.mk allpass_bank (phaserRate state)
         (replicate 8 (3000 * phaserDepth state))
         (1 - phaserMix state) (phaserMix state) (phaserFb state)
  /\ Reverb.dryGain (reverb c') = 1 - reverbMix state
  /\ Reverb.wetGain (reverb c') = reverbMix state.
Proof.
  intros Hc. destruct (chain_state_fixed c Hc) as (Hf & Hr & Ha & Hk).
  apply chain_state_invariant in Hc as [_ Hb].
  destruct (updateParams_frame Math_random state c)
    as (_ & _ & Hp & Hrv & _).
  cbn zeta in *. rewrite Hp, Hrv, reverb_update_result.
  rewrite (phaser_update_settings _ _ _ _ _ _ Hf Hb).
  unfold updateParams. rewrite reverb_update_result.
  cbn [filter chorus delay limiter fst Reverb.dryGain Reverb.wetGain].
  repeat split.
  unfold Limiter.update, Limiter.setRelease, Limiter.setThreshold.
  cbn [Limiter.ratio Limiter.attack Limiter.knee Limiter.threshold
       Limiter.release].
  rewrite Hr, Ha, Hk. reflexivity.
Qed.

(** ** The impulse response *)

Lemma irSeconds_range decay : 0.3 <= Reverb.irSeconds decay <= 6.
Proof.
  unfold Reverb.irSeconds, Rmin, Rmax.
  repeat destruct (Rle_dec _ _); lra.
Qed.

Lemma irLength_bounds sr0 seconds :
  0 < sr0 -> 0 <= seconds ->
  (1 <= Reverb.irLength sr0 seconds)%nat
  /\ INR (Reverb.irLength sr0 seconds) <= Rmax 1 (sr0 * seconds).
Proof.
  intros Hsr Hs. unfold Reverb.irLength, JS.floor.
  split; [lia|].
  destruct (base_Int_part (sr0 * seconds)) as [Hlo _].
  set (z := Int_part (sr0 * seconds)) in *.
  destruct (Z.max_spec 1 z) as [[Hlt ->]|[Hle ->]].
  - rewrite INR_IZR_INZ, Z2Nat.id by lia.
    eapply Rle_trans; [exact Hlo|apply Rmax_r].
  - change (INR (Z.to_nat 1)) with 1. apply Rmax_l.
Qed.

(** X13: the impulse response [setDecay] synthesises.  At a positive sample
    rate, with random values in [0, 1], its duration is between 0.3 s and
    6 s whatever the decay, so that it holds at least one and at most
    [max(1, 6 * sr)] frames; it has two channels of that many samples, and
    every sample lies in [-1, 1]. *)
Theorem impulse_response_is_bounded sr0 decay rng0 :
  0 < sr0 -> (forall k, 0 <= Math_random k <= 1) ->
  let b :=
    Reverb.makeImpulseResponse Math_random sr0 (Reverb.irSeconds decay) decay
      rng0 in
  (1 <= ab_length b)%nat
  /\ INR (ab_length b) <= Rmax 1 (sr0 * 6)
  /\ length (ab_channels b) = 2%nat
  /\ Forall
       (fun ch =>
          length ch = ab_length b /\ Forall (fun x => -1 <= x <= 1) ch)
       (ab_channels b).
Proof.
  intros Hsr Hrnd b.
  pose proof (irSeconds_range decay) as Hsec.
  destruct (irLength_bounds sr0 (Reverb.irSeconds decay) Hsr) as [H1 H2];
    [lra|].
  assert (Hsample : forall ch i,
            -1 <= (Math_random (rng0 + ch * ab_length b + i)%nat * 2 - 1)
                  * exp (- (INR i / sr0) / Rmax 0.001 decay) <= 1).
  { intros ch i. specialize (Hrnd (rng0 + ch * ab_length b + i)%nat).
    set (e := exp _).
    assert (0 < e <= 1) as He.
    { split; [apply exp_pos|]. apply GeneratorTheory.exp_le_1.
      assert (0 < Rmax 0.001 decay).
      { eapply Rlt_le_trans; [|apply Rmax_l]. lra. }
      assert (0 <= INR i / sr0).
      { apply Rmult_le_pos; [apply pos_INR|]. left.
        apply Rinv_0_lt_compat, Hsr. }
      unfold Rdiv at 1. rewrite <- Ropp_mult_distr_l.
      apply Ropp_le_cancel. rewrite Ropp_involutive, Ropp_0.
      apply Rmult_le_pos; [assumption|]. left.
      apply Rinv_0_lt_compat. assumption. }
    nra. }
  split; [exact H1|]. split.
  { eapply Rle_trans; [exact H2|]. apply Rle_max_compat_l.
    apply Rmult_le_compat_l; lra. }
  split; [reflexivity|].
  repeat constructor; cbn [ab_length b Reverb.makeImpulseResponse].
  - rewrite length_map, length_seq. reflexivity.
  - apply Forall_map, Forall_forall. intros i _. apply (Hsample 0%nat).
  - rewrite length_map, length_seq. reflexivity.
  - apply Forall_map, Forall_forall. intros i _. apply (Hsample 1%nat).
Qed.

(** ** Routing and settings are independent *)

Lemma updateParams_allFilters state c :
  allFilters (updateParams Math_random state c) = allFilters c.
Proof.
  destruct (updateParams_frame Math_random state c) as (_ & _ & Hp & _).
  cbn zeta in Hp. unfold allFilters. rewrite Hp.
  change (Phaser.filters (Phaser.update ?r ?d ?n ?f ?m ?ph))
    with (Phaser.filters (Phaser.setDepth d (Phaser.setRate r ph))).
  unfold Phaser.setDepth.
  destruct (setDepth_fold (3000 * phaserDepth state)
              (length (Phaser.filters
                         (Phaser.setRate (phaserRate state) (phaser c))))
              0%nat (Phaser.setRate (phaserRate state) (phaser c)))
    as (Hlen & _).
  cbn zeta in Hlen. rewrite Hlen. reflexivity.
Qed.

Lemma rebuild_wiring_ext state c c' :
  connections c' = connections c -> created c' = created c ->
  allFilters c' = allFilters c ->
  connections (rebuild state c') = connections (rebuild state c)
  /\ created (rebuild state c') = created (rebuild state c).
Proof.
  intros H1 H2 H3. unfold rebuild, disconnectAll, disconnected.
  cbn [connections created]. rewrite H1, H2, H3. split; reflexivity.
Qed.

(** X14: routing and settings are independent.  From any chain,
    [rebuild(s1)] followed by [updateParams(s2)] gives the same chain as
    [updateParams(s2)] followed by [rebuild(s1)]: a rebuild changes nothing
    but the connections and the count of gain nodes, a parameter update
    nothing but the stage settings and the position of the random
    sequence. *)
Theorem rebuild_commutes_with_updateParams s1 s2 c :
  updateParams Math_random s2 (rebuild s1 c)
  = rebuild s1 (updateParams Math_random s2 c)
  /\ connections (updateParams Math_random s2 c) = connections c
  /\ created (updateParams Math_random s2 c) = created c
  /\ (filter (rebuild s1 c), chorus (rebuild s1 c), reverb (rebuild s1 c),
      limiter (rebuild s1 c), delay (rebuild s1 c), phaser (rebuild s1 c),
      rng (rebuild s1 c))
     = (filter c, chorus c, reverb c, limiter c, delay c, phaser c, rng c).
Proof.
  destruct (updateParams_frame Math_random s2 c) as (Hc & Hk & _).
  cbn zeta in Hc, Hk.
  split; [|split; [exact Hc|split; [exact Hk|reflexivity]]].
  destruct (rebuild_wiring_ext s1 c (updateParams Math_random s2 c) Hc Hk
              (updateParams_allFilters s2 c)) as [Hg Hn].
  change (rebuild s1 (updateParams Math_random s2 c))
    with (mk (filter (updateParams Math_random s2 c))
            (chorus (updateParams Math_random s2 c))
            (reverb (updateParams Math_random s2 c))
            (limiter (updateParams Math_random s2 c))
            (delay (updateParams Math_random s2 c))
            (phaser (updateParams Math_random s2 c))
            (connections (rebuild s1 (updateParams Math_random s2 c)))
            (created (rebuild s1 (updateParams Math_random s2 c)))
            (sampleRate (updateParams Math_random s2 c))
            (rng (updateParams Math_random s2 c))).
  rewrite Hg, Hn. unfold updateParams.
  change (filter (rebuild s1 c)) with (filter c).
  change (chorus (rebuild s1 c)) with (chorus c).
  change (reverb (rebuild s1 c)) with (reverb c).
  change (limiter (rebuild s1 c)) with (limiter c).
  change (delay (rebuild s1 c)) with (delay c).
  change (phaser (rebuild s1 c)) with (phaser c).
  change (sampleRate (rebuild s1 c)) with (sampleRate c).
  change (rng (rebuild s1 c)) with (rng c).
  destruct (Reverb.update _ _ _ _ _ _) as [r' g']. reflexivity.
Qed.

End Host.

(** X15: rebuilds only ever add gain nodes.  Each rebuild makes one new
    gain node for each enabled stage among Chorus, Phaser, Delay and Reverb,
    so [n] rebuilds for the same state make [n] times as many; and a rebuild
    never removes a connection that leaves a gain node made by an earlier
    rebuild, since [disconnectAll] does not know these nodes. *)
Theorem rebuilds_accumulate_gain_nodes n state c :
  created (rebuilds n state c) = (created c + n * sums_made state)%nat
  /\ forall e,
       e ∈ connections c -> is_sum e.1 = true ->
       e ∈ connections (rebuilds n state c).
Proof.
  induction n as [|n [IHk IHe]]; cbn [rebuilds].
  - split; [lia|auto].
  - split.
    + rewrite rebuild_created, IHk. lia.
    + intros e He Hs. apply rebuild_keeps_sums; auto.
Qed.

(** ** Concrete runs *)

Lemma update_settings_are_memoryless_witness :
  chain_state JS.zero_random (new 44100 0)
  /\ limiter (updateParams JS.zero_random DEFAULT_FX (new 44100 0))
     = Limiter.mk (limiterThr DEFAULT_FX) (limiterRel DEFAULT_FX) 20 0.003 0.
Proof.
  split; [constructor|].
  apply (update_settings_are_memoryless JS.zero_random DEFAULT_FX
           (new 44100 0)).
  constructor.
Defined.

Lemma impulse_response_is_bounded_witness :
  0 < 44100
  /\ (forall k, 0 <= JS.zero_random k <= 1)
  /\ (1 <= ab_length
            (Reverb.makeImpulseResponse JS.zero_random 44100
               (Reverb.irSeconds 2.8) 2.8 0))%nat.
Proof.
  assert (H1 : 0 < 44100) by lra.
  assert (H2 : forall k, 0 <= JS.zero_random k <= 1).
  { intros k. unfold JS.zero_random. lra. }
  split; [exact H1|]. split; [exact H2|].
  apply (impulse_response_is_bounded JS.zero_random 44100 2.8 0 H1 H2).
Defined.

Lemma rebuilds_accumulate_gain_nodes_witness :
  ((SumGain DelayStage 0, outputNode) ∈ connections Examples.delay_chain)
  /\ is_sum (SumGain DelayStage 0, outputNode).1 = true
  /\ (SumGain DelayStage 0, outputNode)
     ∈ connections (rebuilds 1 DEFAULT_FX Examples.delay_chain).
Proof.
  assert (H1 : (SumGain DelayStage 0, outputNode)
               ∈ connections Examples.delay_chain).
  { rewrite list_elem_of_In. vm_compute. tauto. }
  assert (H2 : is_sum (SumGain DelayStage 0, outputNode).1 = true)
    by reflexivity.
  split; [exact H1|]. split; [exact H2|].
  apply (rebuilds_accumulate_gain_nodes 1 DEFAULT_FX Examples.delay_chain).
  - exact H1.
  - exact H2.
Defined.

End ChainLifeTheory.

(** * Properties of the mixer gain *)

Module AudioEngineTheory.

Import AudioEngine.

(** X16: [enableFormula] acts on the mixer gain of one generator only.  It
    leaves the other generators, and the worklet and the parameter copy of
    the generator itself, as they were; it does nothing when the engine is
    stopped or the id is unknown; and of two calls in a row for the same id
    the later one decides, so that a repeated call changes nothing and
    enabling after disabling gives the gain back. *)
Theorem enableFormula_only_sets_one_gain e id b1 b2 :
  let e' := enableFormula e id b1 in
  ctx e' = ctx e
  /\ (forall id', id' <> id -> generators e' !! id' = generators e !! id')
  /\ worklet <$> generators e' !! id = worklet <$> generators e !! id
  /\ params <$> generators e' !! id = params <$> generators e !! id
  /\ (ctx e = false \/ generators e !! id = None -> e' = e)
  /\ enableFormula e' id b2 = enableFormula e id b2.
Proof.
  unfold enableFormula.
  destruct (generators e !! id) as [gen|] eqn:Eg; [|rewrite Eg; auto 8].
  destruct (ctx e) eqn:Ec; [|rewrite Eg, Ec; auto 8].
  cbn [ctx generators]. rewrite lookup_insert_eq.
  cbn [worklet params fmap option_fmap option_map].
  repeat split.
  - intros id' Hne. apply lookup_insert_ne. congruence.
  - intros [H|H]; discriminate H.
  - rewrite insert_insert_eq. reflexivity.
Qed.

Lemma enableFormula_only_sets_one_gain_witness :
  ("gliss"%string <> "fm"%string)
  /\ generators (enableFormula Examples.one_generator "fm" true)
     !! "gliss"%string
     = generators Examples.one_generator !! "gliss"%string.
Proof.
  assert (H : "gliss"%string <> "fm"%string) by discriminate.
  split; [exact H|].
  apply (enableFormula_only_sets_one_gain Examples.one_generator "fm" true
           true).
  exact H.
Defined.

End AudioEngineTheory.

(** * Properties of the recorder worklet *)

Module RecorderTheory.

Import RecorderProcessor.

Lemma set_fit target source offset :
  (offset + length source <= length target)%nat ->
  set target source offset
  = Some (take offset target ++ source
          ++ drop (offset + length source) target).
Proof. intros H. unfold set. rewrite decide_True by exact H. reflexivity. Qed.

Lemma totalLength_from (cs : list (list R)) : forall a,
  fold_left (fun acc c => (acc + length c)%nat) cs a
  = (a + length (concat cs))%nat.
Proof.
  induction cs as [|c cs IH]; intros a; cbn; [lia|].
  rewrite IH, length_app. lia.
Qed.

Lemma copy_chunks_concat cs : forall done,
  copy_chunks cs (done ++ replicate (length (concat cs)) 0) (length done)
  = Some (done ++ concat cs).
Proof.
  induction cs as [|chunk cs IH]; intros done; cbn [copy_chunks concat].
  - cbn. reflexivity.
  - rewrite length_app, replicate_add.
    rewrite set_fit
      by (rewrite !length_app, !length_replicate; lia).
    rewrite take_app_length.
    rewrite drop_app_ge by lia.
    replace (length done + length chunk - length done)%nat
      with (length (replicate (length chunk) 0))
      by (rewrite length_replicate; lia).
    rewrite drop_app_length.
    rewrite <- length_app. rewrite (app_assoc done chunk).
    rewrite IH. rewrite <- app_assoc. reflexivity.
Qed.

Lemma onmessage_stop s :
  onmessage s MsgStop = Some (new, Some (concat (chunks s))).
Proof.
  unfold onmessage, totalLength. rewrite totalLength_from, Nat.add_0_l.
  pose proof (copy_chunks_concat (chunks s) []) as H. cbn in H.
  rewrite H. reflexivity.
Qed.

Lemma process_heard s inputs outputs :
  fits (inputs, outputs) ->
  exists outputs',
    process s inputs outputs
    = Some (match heard (inputs, outputs) with
            | Some in0 =>
                if recording s then mk (recording s) (chunks s ++ [in0])
                else s
            | None => s
            end, outputs', true).
Proof.
  intros Hfit. unfold process, heard, fits in *. cbn [fst snd] in *.
  destruct (inputs !! 0%nat) as [input|]; [|eauto].
  destruct (outputs !! 0%nat) as [output|]; [|eauto].
  destruct (input !! 0%nat) as [in0|] eqn:E1; [|eauto].
  destruct (output !! 0%nat) as [out0|] eqn:E2; [|eauto].
  rewrite set_fit by (cbn; eapply Hfit; eauto). eauto.
Qed.

Lemma run_recording calls : forall s,
  recording s = true -> Forall fits calls ->
  run s calls = Some (mk true (chunks s ++ omap heard calls)).
Proof.
  induction calls as [|[inputs outputs] calls IH]; intros s Hr Hf.
  - cbn. rewrite app_nil_r. destruct s. cbn in Hr. subst. reflexivity.
  - apply Forall_cons in Hf as [Hf1 Hf].
    destruct (process_heard s inputs outputs Hf1) as [outputs' Hp].
    cbn [run omap list_omap]. rewrite Hp, Hr.
    destruct (heard (inputs, outputs)) as [in0|].
    + rewrite IH by (cbn; auto). cbn. rewrite <- app_assoc. reflexivity.
    + apply IH; assumption.
Qed.

Lemma run_idle calls : forall s,
  recording s = false -> Forall fits calls -> run s calls = Some s.
Proof.
  induction calls as [|[inputs outputs] calls IH]; intros s Hr Hf;
    [reflexivity|].
  apply Forall_cons in Hf as [Hf1 Hf].
  destruct (process_heard s inputs outputs Hf1) as [outputs' Hp].
  cbn [run]. rewrite Hp, Hr.
  destruct (heard (inputs, outputs)); apply IH; assumption.
Qed.

(** A call throws exactly when its channels exist and the output channel is
    shorter than the input channel; otherwise it returns [true]. *)
Lemma process_cases s inputs outputs :
  (process s inputs outputs = None /\ ~ fits (inputs, outputs))
  \/ (fits (inputs, outputs)
      /\ exists outputs',
           process s inputs outputs
           = Some (match heard (inputs, outputs) with
                   | Some in0 =>
                       if recording s
                       then mk (recording s) (chunks s ++ [in0])
                       else s
                   | None => s
                   end, outputs', true)).
Proof.
  assert (Hyes : fits (inputs, outputs) ->
                 fits (inputs, outputs)
                 /\ exists outputs',
                      process s inputs outputs
                      = Some (match heard (inputs, outputs) with
                              | Some in0 =>
                                  if recording s
                                  then mk (recording s) (chunks s ++ [in0])
                                  else s
                              | None => s
                              end, outputs', true)).
  { intros Hf. split; [exact Hf|apply process_heard, Hf]. }
  destruct (inputs !! 0%nat) as [input|] eqn:E1;
    [|right; apply Hyes; intros ? ? ? ? H1 H2 H3 H4; cbn in H1; congruence].
  destruct (outputs !! 0%nat) as [output|] eqn:E2;
    [|right; apply Hyes; intros ? ? ? ? H1 H2 H3 H4; cbn in H2; congruence].
  destruct (input !! 0%nat) as [in0|] eqn:E3;
    [|right; apply Hyes; intros ? ? ? ? H1 H2 H3 H4; cbn in H1; congruence].
  destruct (output !! 0%nat) as [out0|] eqn:E4;
    [|right; apply Hyes; intros ? ? ? ? H1 H2 H3 H4; cbn in H2; congruence].
  destruct (decide (length in0 <= length out0)%nat) as [Hle|Hgt].
  - right. apply Hyes. intros ? ? ? ? H1 H2 H3 H4. cbn in H1, H2.
    congruence.
  - left. split.
    + unfold process. rewrite E1, E2, E3, E4. unfold set.
      rewrite decide_False by (cbn; lia). reflexivity.
    + intros Hf. apply Hgt. apply (Hf input output in0 out0); auto.
Qed.

(** A run of calls returns exactly when every call fits. *)
Lemma run_returns calls : forall s,
  is_Some (run s calls) <-> Forall fits calls.
Proof.
  induction calls as [|[inputs outputs] calls IH]; intros s.
  - split; [constructor|]. cbn. eauto.
  - cbn [run]. rewrite Forall_cons.
    destruct (process_cases s inputs outputs)
      as [[-> Hno]|[Hyes [outputs' ->]]].
    + split; [intros [x Hx]; discriminate Hx|tauto].
    + rewrite IH. tauto.
Qed.

(** X17: what a recording holds.  A ['start'] message, from any state, makes
    the recorder record with no chunk, so what was held before is dropped.
    A [process] call throws exactly when its channels exist and its output
    channel is shorter than its input channel (the [RangeError] of [set]; in
    the audio worklet both channels hold one render quantum), so the run of
    calls after the ['start'] returns exactly when every call fits.  When it
    returns, the ['stop'] message does not throw and the samples posted in
    the ['data'] message are the first channels of the first inputs of
    these calls, one after the other in the order of the calls (a call
    without an input or an output channel contributes nothing); afterwards
    the recorder is idle and holds no chunk. *)
Theorem recording_is_the_concatenation_of_the_blocks s calls :
  onmessage s MsgStart = Some (mk true [], None)
  /\ (is_Some (run (mk true []) calls) <-> Forall fits calls)
  /\ (forall s2,
        run (mk true []) calls = Some s2 ->
        onmessage s2 MsgStop = Some (new, Some (heard_all calls))).
Proof.
  split; [reflexivity|]. split; [apply run_returns|].
  intros s2 Hrun.
  assert (Hf : Forall fits calls) by (apply (run_returns calls (mk true [])); eauto).
  rewrite (run_recording calls (mk true [])) in Hrun by auto.
  injection Hrun as <-. rewrite onmessage_stop. reflexivity.
Qed.

(** X18: the recorder is transparent.  When the input and output channels
    exist and the output channel is as long as the input channel, [process]
    copies the input channel to the output channel, keeps a copy of it
    exactly when the recorder is recording, and returns [true]. *)
Theorem recorder_passes_audio_through s inputs outputs input output in0 out0 :
  inputs !! 0%nat = Some input -> input !! 0%nat = Some in0 ->
  outputs !! 0%nat = Some output -> output !! 0%nat = Some out0 ->
  length in0 = length out0 ->
  exists s' outputs',
    process s inputs outputs = Some (s', outputs', true)
    /\ outputs' !! 0%nat ≫= (fun o => o !! 0%nat) = Some in0
    /\ recording s' = recording s
    /\ chunks s' = if recording s then chunks s ++ [in0] else chunks s.
Proof.
  intros Hi Hi0 Ho Ho0 Hlen. unfold process.
  rewrite Hi, Ho, Hi0, Ho0, set_fit by (cbn; lia).
  eexists _, _. split; [reflexivity|].
  split; [|destruct (recording s) eqn:Er; split; first [reflexivity|exact Er]].
  rewrite list_lookup_insert_eq by (eapply lookup_lt_Some; eassumption).
  cbn. rewrite list_lookup_insert_eq by (eapply lookup_lt_Some; eassumption).
  cbn. rewrite Hlen, drop_all, app_nil_r. reflexivity.
Qed.

(** X19: an idle recorder keeps nothing.  While the recorder is not
    recording, a [process] call never changes it, whatever the call
    carries: the call either throws (the [RangeError] of [set], when the
    output channel is shorter than the input channel) or returns [true] with
    the recorder as it was.  So a run of calls that returns leaves the
    recorder as it was, and a run of calls that all fit returns.  A ['stop']
    message sent to a recorder that holds no chunk posts an empty array. *)
Theorem idle_recorder_keeps_nothing s :
  recording s = false ->
  (forall inputs outputs,
     process s inputs outputs = None
     \/ exists outputs', process s inputs outputs = Some (s, outputs', true))
  /\ (forall calls s', run s calls = Some s' -> s' = s)
  /\ (forall calls, Forall fits calls -> run s calls = Some s)
  /\ (chunks s = [] -> onmessage s MsgStop = Some (new, Some [])).
Proof.
  intros Hr. split; [|split; [|split]].
  - intros inputs outputs.
    destruct (process_cases s inputs outputs)
      as [[Hno _]|[_ [outputs' Hyes]]]; [left; exact Hno|].
    right. exists outputs'. rewrite Hyes, Hr.
    destruct (heard (inputs, outputs)); reflexivity.
  - intros calls s' Hrun.
    assert (Hf : Forall fits calls) by (apply (run_returns calls s); eauto).
    rewrite (run_idle calls s Hr Hf) in Hrun. congruence.
  - intros calls Hf. apply run_idle; assumption.
  - intros Hc. rewrite onmessage_stop, Hc. reflexivity.
Qed.

(** ** Concrete runs *)

Lemma two_frames_fit : fits Examples.two_frames.
Proof.
  intros input output in0 out0 Hi Ho Hi0 Ho0.
  injection Hi as <-. injection Ho as <-.
  injection Hi0 as <-. injection Ho0 as <-. cbn. lia.
Qed.

Lemma recording_is_the_concatenation_of_the_blocks_witness :
  Forall fits [ Examples.two_frames; Examples.two_frames ]
  /\ run (mk true []) [ Examples.two_frames; Examples.two_frames ]
     = Some (mk true [ [ 1; 2 ]; [ 1; 2 ] ])
  /\ onmessage (mk true [ [ 1; 2 ]; [ 1; 2 ] ]) MsgStop
     = Some (new, Some [ 1; 2; 1; 2 ]).
Proof.
  assert (H : Forall fits [ Examples.two_frames; Examples.two_frames ]).
  { repeat constructor; apply two_frames_fit. }
  assert (Hrun : run (mk true [])
                   [ Examples.two_frames; Examples.two_frames ]
                 = Some (mk true [ [ 1; 2 ]; [ 1; 2 ] ])).
  { rewrite (run_recording _ (mk true [])) by auto. reflexivity. }
  split; [exact H|]. split; [exact Hrun|].
  apply (recording_is_the_concatenation_of_the_blocks new
           [ Examples.two_frames; Examples.two_frames ]).
  exact Hrun.
Defined.

Lemma recorder_passes_audio_through_witness :
  exists s' outputs',
    process new Examples.two_frames.1 Examples.two_frames.2
    = Some (s', outputs', true)
    /\ outputs' !! 0%nat ≫= (fun o => o !! 0%nat) = Some [ 1; 2 ]
    /\ recording s' = recording new
    /\ chunks s' = if recording new then chunks new ++ [ [ 1; 2 ] ]
                   else chunks new.
Proof.
  apply (recorder_passes_audio_through new Examples.two_frames.1
           Examples.two_frames.2 [ [ 1; 2 ] ] [ [ 0; 0 ] ] [ 1; 2 ] [ 0; 0 ]);
    reflexivity.
Defined.

Lemma idle_recorder_keeps_nothing_witness :
  recording new = false
  /\ Forall fits [ Examples.two_frames ]
  /\ run new [ Examples.two_frames ] = Some new
  /\ onmessage new MsgStop = Some (new, Some []).
Proof.
  assert (H1 : recording new = false) by reflexivity.
  assert (H2 : Forall fits [ Examples.two_frames ]).
  { repeat constructor; apply two_frames_fit. }
  destruct (idle_recorder_keeps_nothing new H1) as (_ & _ & Hrun & Hstop).
  split; [exact H1|]. split; [exact H2|].
  split; [apply Hrun, H2|apply Hstop; reflexivity].
Defined.

End RecorderTheory.

(** * Properties of the state token *)

Module URLTheory.

Import Base64Url URLState.

#[local] Open Scope char_scope.

(** ** The two alphabets *)

Lemma url_char c :
  is_b64 c = true ->
  let u := if Ascii.eqb (if Ascii.eqb c "+" then "-" else c) "/" then "_"
           else if Ascii.eqb c "+" then "-" else c in
  is_token u = true
  /\ (if Ascii.eqb (if Ascii.eqb u "-" then "+" else u) "_" then "/"
      else if Ascii.eqb u "-" then "+" else u) = c.
Proof.
  destruct c as [[] [] [] [] [] [] [] []]; intros H;
    first [discriminate H | split; reflexivity].
Qed.

Lemma token_not_pad c : is_token c = true -> Ascii.eqb c "=" = false.
Proof.
  destruct c as [[] [] [] [] [] [] [] []]; intros H;
    first [discriminate H | reflexivity].
Qed.

Lemma replace_pad a b k :
  Ascii.eqb "=" a = false ->
  replace_all a b (replicate k "=") = replicate k "=".
Proof.
  intros H. induction k as [|k IH]; [reflexivity|].
  unfold replace_all in *. cbn [replicate List.map]. rewrite H. f_equal.
  exact IH.
Qed.

Lemma url_body body :
  forallb is_b64 body = true ->
  let u := replace_all "/" "_" (replace_all "+" "-" body) in
  forallb is_token u = true
  /\ replace_all "_" "/" (replace_all "-" "+" u) = body.
Proof.
  induction body as [|c body IH]; intros H; [split; reflexivity|].
  cbn [forallb] in H. apply andb_prop in H as [Hc H].
  destruct (IH H) as [IH1 IH2]. destruct (url_char c Hc) as [Hu Hr].
  cbn zeta in *. unfold replace_all in *. cbn [List.map forallb].
  rewrite Hu, IH1. split; [reflexivity|]. rewrite Hr. f_equal. exact IH2.
Qed.

(** ** The padding *)

Lemma strip_front_pad k s : strip_front (replicate k "=" ++ s) = strip_front s.
Proof. induction k as [|k IH]; [reflexivity|]. cbn. exact IH. Qed.

Lemma strip_front_token s :
  forallb is_token (reverse s) = true -> strip_front s = s.
Proof.
  destruct s as [|c s]; [reflexivity|]. intros H. cbn.
  rewrite (token_not_pad c); [reflexivity|].
  rewrite reverse_cons, forallb_app in H. apply andb_prop in H as [_ H].
  cbn in H. rewrite andb_true_r in H. exact H.
Qed.

Lemma strip_padding_token u k :
  forallb is_token u = true ->
  strip_padding (u ++ replicate k "=") = u.
Proof.
  intros H. unfold strip_padding.
  rewrite reverse_app, reverse_replicate, strip_front_pad.
  rewrite strip_front_token by (rewrite reverse_involutive; exact H).
  apply reverse_involutive.
Qed.

Lemma to_url_body body k :
  forallb is_b64 body = true ->
  to_url (body ++ replicate k "=")
  = replace_all "/" "_" (replace_all "+" "-" body).
Proof.
  intros H. unfold to_url. unfold replace_all at 1 2.
  rewrite !List.map_app. fold (replace_all "+" "-" body).
  fold (replace_all "+" "-" (replicate k "=")).
  rewrite replace_pad by reflexivity.
  fold (replace_all "/" "_" (replace_all "+" "-" body)).
  fold (replace_all "/" "_" (replicate k "=")).
  rewrite replace_pad by reflexivity.
  apply strip_padding_token. apply (url_body body H).
Qed.

Lemma pad_length n k :
  (k <= 2)%nat -> ((n + k) mod 4 = 0)%nat ->
  (if (n mod 4 =? 0)%nat then [] else replicate (4 - n mod 4) "=")
  = replicate k "=".
Proof.
  intros Hk Hm.
  pose proof (Nat.div_mod_eq (n + k) 4) as H1.
  pose proof (Nat.div_mod_eq n 4) as H2.
  pose proof (Nat.mod_upper_bound n 4) as H3.
  destruct (Nat.eqb_spec (n mod 4) 0) as [E|E].
  - assert (k = 0)%nat as -> by lia. reflexivity.
  - f_equal. lia.
Qed.

(** The decoder undoes what the encoder did to a result of [btoa]. *)
Lemma from_url_to_url s : well_padded s -> from_url (to_url s) = s.
Proof.
  intros (body & k & -> & Hb & Hk & Hm).
  rewrite (to_url_body body k Hb).
  destruct (url_body body Hb) as [_ Hr]. cbn zeta in Hr.
  unfold from_url. rewrite Hr. f_equal.
  rewrite length_app, length_replicate in Hm.
  apply pad_length; assumption.
Qed.

Lemma to_url_token s : well_padded s -> forallb is_token (to_url s) = true.
Proof.
  intros (body & k & -> & Hb & _). rewrite (to_url_body body k Hb).
  apply (url_body body Hb).
Qed.

Lemma to_url_nonempty s : well_padded s -> s <> [] -> to_url s <> [].
Proof.
  intros (body & k & -> & Hb & Hk & Hm) Hne.
  rewrite (to_url_body body k Hb).
  destruct body as [|c body]; [|discriminate].
  exfalso. cbn in Hm, Hne.
  destruct k as [|[|[|k]]]; [apply Hne; reflexivity|discriminate Hm..|lia].
Qed.

(** ** The pattern *)

Lemma token_prefix_all tok rest :
  forallb is_token tok = true ->
  match rest with [] => True | c :: _ => is_token c = false end ->
  token_prefix (tok ++ rest) = tok.
Proof.
  intros H Hr. induction tok as [|c tok IH]; cbn [app token_prefix].
  - destruct rest as [|c rest]; [reflexivity|]. cbn [token_prefix].
    rewrite Hr. reflexivity.
  - cbn [forallb] in H. apply andb_prop in H as [Hc H].
    rewrite Hc, IH by exact H. reflexivity.
Qed.

Lemma token_prefix_token s : forallb is_token (token_prefix s) = true.
Proof.
  induction s as [|c s IH]; [reflexivity|]. cbn [token_prefix].
  destruct (is_token c) eqn:E; [|reflexivity]. cbn [forallb].
  rewrite E. exact IH.
Qed.

Lemma token_prefix_split s : exists rest, s = token_prefix s ++ rest.
Proof.
  induction s as [|c s [rest IH]]; [exists []; reflexivity|].
  cbn [token_prefix].
  destruct (is_token c); [|eexists; reflexivity].
  exists rest. cbn [app]. f_equal. exact IH.
Qed.

Lemma match_state_marker tok rest :
  tok <> [] -> forallb is_token tok = true ->
  match rest with [] => True | c :: _ => is_token c = false end ->
  match_state ([ "#"; "s"; "=" ] ++ tok ++ rest) = Some tok.
Proof.
  intros Hne H Hr. cbn [app match_state].
  rewrite (token_prefix_all tok rest H Hr).
  destruct tok; [contradiction|reflexivity].
Qed.

Lemma match_state_sound hash : forall tok,
  match_state hash = Some tok ->
  tok <> [] /\ forallb is_token tok = true
  /\ exists pre rest, hash = pre ++ [ "#"; "s"; "=" ] ++ tok ++ rest.
Proof.
  induction hash as [|c hash IH]; intros tok H; [discriminate H|].
  assert (Hrec : match_state hash = Some tok ->
                 tok <> [] /\ forallb is_token tok = true
                 /\ exists pre rest,
                      c :: hash = pre ++ [ "#"; "s"; "=" ] ++ tok ++ rest).
  { intros H'. destruct (IH tok H') as (H1 & H2 & pre & rest & ->).
    split; [exact H1|]. split; [exact H2|].
    exists (c :: pre), rest. reflexivity. }
  cbn [match_state] in H.
  destruct (Ascii.eqb_spec c "#") as [->|Hc];
    [|destruct c as [[] [] [] [] [] [] [] []]; try (apply Hrec, H);
      exfalso; apply Hc; reflexivity].
  destruct hash as [|c1 hash]; [discriminate H|].
  destruct (Ascii.eqb_spec c1 "s") as [->|Hc1];
    [|destruct c1 as [[] [] [] [] [] [] [] []]; try (apply Hrec, H);
      exfalso; apply Hc1; reflexivity].
  destruct hash as [|c2 hash]; [discriminate H|].
  destruct (Ascii.eqb_spec c2 "=") as [->|Hc2];
    [|destruct c2 as [[] [] [] [] [] [] [] []]; try (apply Hrec, H);
      exfalso; apply Hc2; reflexivity].
  destruct (token_prefix hash) as [|t0 ts] eqn:E; [apply Hrec, H|].
  injection H as <-. split; [discriminate|].
  split; [rewrite <- E; apply token_prefix_token|].
  destruct (token_prefix_split hash) as [rest Hs].
  rewrite E in Hs. exists [], rest. cbn [app]. do 3 f_equal. exact Hs.
Qed.

Section Host.

Variable AppState : Type.
Variable utf8_bin : string -> list ascii.
Variable btoa : list ascii -> list ascii.
Variable atob : list ascii -> option (list ascii).
Variable bin_utf8 : list ascii -> string.
Variable JSON_stringify : AppState -> string.
Variable JSON_parse : string -> option AppState.

(** X20: the token is URL-safe and decodes to the string it was made from.
    For a string on which the host's coders are inverse of each other
    ([atob] of [btoa], the UTF-8 decoder of the encoder), [btoa] giving
    padded base64, [b64urlEncode] returns characters of [A-Za-z0-9-_] only,
    and [b64urlDecode] of the result is the string. *)
Theorem b64url_round_trip str :
  well_padded (btoa (utf8_bin str)) ->
  atob (btoa (utf8_bin str)) = Some (utf8_bin str) ->
  bin_utf8 (utf8_bin str) = str ->
  forallb is_token (b64urlEncode utf8_bin btoa str) = true
  /\ b64urlDecode atob bin_utf8 (b64urlEncode utf8_bin btoa str) = Some str.
Proof.
  intros Hp Ha Hu. unfold b64urlEncode, b64urlDecode.
  split; [apply to_url_token, Hp|].
  rewrite (from_url_to_url _ Hp), Ha. cbn. rewrite Hu. reflexivity.
Qed.

(** X21: a state written to the URL hash is the state read back.  When the
    host's coders and JSON functions are inverse of each other on the state
    and [btoa] gives a non-empty padded base64 string, [loadStateFromURL]
    on the hash made by [writeStateToURL] returns the state. *)
Theorem state_survives_the_url state :
  let json := JSON_stringify state in
  well_padded (btoa (utf8_bin json)) ->
  btoa (utf8_bin json) <> [] ->
  atob (btoa (utf8_bin json)) = Some (utf8_bin json) ->
  bin_utf8 (utf8_bin json) = json ->
  JSON_parse json = Some state ->
  loadStateFromURL AppState atob bin_utf8 JSON_parse
    (writeStateToURL AppState utf8_bin btoa JSON_stringify state)
  = Some state.
Proof.
  intros json Hp Hne Ha Hu Hj. unfold loadStateFromURL, writeStateToURL.
  fold json. unfold b64urlEncode.
  pose proof (match_state_marker (to_url (btoa (utf8_bin json))) []
                (to_url_nonempty _ Hp Hne) (to_url_token _ Hp) I) as Hm.
  rewrite app_nil_r in Hm. rewrite Hm.
  unfold b64urlDecode. rewrite (from_url_to_url _ Hp), Ha. cbn.
  rewrite Hu. exact Hj.
Qed.

(** X22: what [loadStateFromURL] reads from a hash.  The text it decodes is
    never empty, holds characters of [A-Za-z0-9-_] only and stands in the
    hash right after a ["#s="]; a hash without ["#s="] followed by such a
    character gives [null].  After ["#s="] the token runs up to the first
    other character, what follows being ignored. *)
Theorem hash_token_is_delimited hash :
  (forall tok,
     match_state hash = Some tok ->
     tok <> [] /\ forallb is_token tok = true
     /\ exists pre rest, hash = pre ++ [ "#"; "s"; "=" ] ++ tok ++ rest)
  /\ (match_state hash = None ->
      loadStateFromURL AppState atob bin_utf8 JSON_parse hash = None)
  /\ (forall tok c rest,
        tok <> [] -> forallb is_token tok = true -> is_token c = false ->
        hash = [ "#"; "s"; "=" ] ++ tok ++ c :: rest ->
        match_state hash = Some tok).
Proof.
  split; [|split].
  - apply match_state_sound.
  - intros H. unfold loadStateFromURL. rewrite H. reflexivity.
  - intros tok c rest Hne Ht Hc ->.
    apply (match_state_marker tok (c :: rest) Hne Ht Hc).
Qed.

End Host.

(** ** Concrete runs *)

Lemma question_marks_padded :
  well_padded (Platform.btoa (Platform.utf8_bin "??>>")).
Proof.
  exists [ "P"; "z"; "8"; "+"; "P"; "g" ], 2%nat.
  split; [reflexivity|]. split; [reflexivity|]. split; [lia|reflexivity].
Qed.

Lemma true_padded :
  well_padded
    (Platform.btoa (Platform.utf8_bin (Platform.JSON_stringify true))).
Proof.
  exists [ "d"; "H"; "J"; "1"; "Z"; "Q" ], 2%nat.
  split; [reflexivity|]. split; [reflexivity|]. split; [lia|reflexivity].
Qed.

Lemma b64url_round_trip_witness :
  b64urlEncode Platform.utf8_bin Platform.btoa "??>>"
  = [ "P"; "z"; "8"; "-"; "P"; "g" ]
  /\ b64urlDecode Platform.atob Platform.bin_utf8
       (b64urlEncode Platform.utf8_bin Platform.btoa "??>>")
     = Some "??>>"%string.
Proof.
  split; [reflexivity|].
  apply (b64url_round_trip Platform.utf8_bin Platform.btoa Platform.atob
           Platform.bin_utf8 "??>>").
  - exact question_marks_padded.
  - reflexivity.
  - reflexivity.
Defined.

Lemma state_survives_the_url_witness :
  loadStateFromURL bool Platform.atob Platform.bin_utf8 Platform.JSON_parse
    (writeStateToURL bool Platform.utf8_bin Platform.btoa
       Platform.JSON_stringify true)
  = Some true.
Proof.
  apply (state_survives_the_url bool Platform.utf8_bin Platform.btoa
           Platform.atob Platform.bin_utf8 Platform.JSON_stringify
           Platform.JSON_parse true).
  - exact true_padded.
  - discriminate.
  - reflexivity.
  - reflexivity.
  - reflexivity.
Defined.

Lemma hash_token_is_delimited_witness :
  match_state Examples.hash_example = Some [ "a"; "b"; "c" ].
Proof.
  apply (hash_token_is_delimited bool Platform.atob Platform.bin_utf8
           Platform.JSON_parse Examples.hash_example)
    with (c := "&") (rest := [ "x" ]).
  - discriminate.
  - reflexivity.
  - reflexivity.
  - reflexivity.
Defined.

End URLTheory.
